(** * cchistory: the streaming JSONL-to-command reconstruction engine

    A shallow embedding of [src/jsonl-stream-parser.ts] (class
    [JSONLStreamParser]) together with the properties of its command
    stream.  Layout:

    - [JsString]  : JavaScript strings as sequences of UTF-16 code units,
                    with [trim], [split], [join], [includes], [endsWith];
    - [Json]      : the values [JSON.parse] produces and the parser itself
                    (a lexer automaton followed by a stack machine, total
                    on every input);
    - [Js]        : the fragment of JavaScript's dynamic semantics the
                    extractors rely on (truthiness, property reads,
                    [SameValueZero], [Array.prototype.find], [Map]);
    - the class   : method by method, in a small monad that threads the
                    pending table, may throw, and leaves a trace of the
                    yielded commands and of the [console.error] calls;
    - [Stringify] : [JSON.stringify], the writer of the lines;
    - [Sample]    : the log lines the examples run on;
    - the properties: normalisation, the pending table, one entry, the
      line loop, the end of a file, the project stream, the bound on
      the pending table, the pre-filter.

    The run-time values are those of JavaScript, not those of the
    TypeScript annotations: [JSON.parse] returns whatever the line
    holds, so an [id] may be a number and [message.content] an object,
    and the model follows the program there too. *)

From Stdlib Require Import List NArith ZArith Bool String Ascii Lia.
From Stdlib Require Import Sorting.Permutation Sorting.Sorted.
Import ListNotations.

Set Implicit Arguments.
Set Warnings "-register-all".
Local Open Scope N_scope.

(* ================================================================== *)
(** ** JavaScript strings *)
(* ================================================================== *)

Module JsString.

(** A JavaScript string is a finite sequence of UTF-16 code units. *)
Definition char := N.
Definition jsstring := list char.

(** [js "..."] writes a string literal.  JSON text is full of double
    quotes, so inside [js] an apostrophe stands for the double quote
    (U+0022); every other character is taken as it is (a backslash is an
    ordinary character of the literal). *)
Definition js_char (a : ascii) : char :=
  let n := N_of_ascii a in if n =? 39 then 34 else n.

Fixpoint js (s : string) : jsstring :=
  match s with
  | EmptyString => []
  | String a r => js_char a :: js r
  end.

(** [lit "..."] is the literal with no substitution at all. *)
Fixpoint lit (s : string) : jsstring :=
  match s with
  | EmptyString => []
  | String a r => N_of_ascii a :: lit r
  end.

Fixpoint eqb (s t : jsstring) : bool :=
  match s, t with
  | [], [] => true
  | a :: s', b :: t' => (a =? b) && eqb s' t'
  | _, _ => false
  end.

(** ECMAScript [WhiteSpace] and [LineTerminator] code points: what
    [String.prototype.trim] strips. *)
Definition is_line_terminator (c : char) : bool :=
  (c =? 10) || (c =? 13) || (c =? 8232) || (c =? 8233).

Definition is_white (c : char) : bool :=
  (c =? 9) || (c =? 11) || (c =? 12) || (c =? 32) || (c =? 160)
  || (c =? 5760) || ((8192 <=? c) && (c <=? 8202))
  || (c =? 8239) || (c =? 8287) || (c =? 12288) || (c =? 65279)
  || is_line_terminator c.

Fixpoint trimStart (s : jsstring) : jsstring :=
  match s with
  | [] => []
  | c :: r => if is_white c then trimStart r else s
  end.

Fixpoint trimEnd (s : jsstring) : jsstring :=
  match s with
  | [] => []
  | c :: r =>
      match trimEnd r with
      | [] => if is_white c then [] else [c]
      | r' => c :: r'
      end
  end.

(** [s.trim()] *)
Definition trim (s : jsstring) : jsstring := trimEnd (trimStart s).

Definition LF : char := 10.

(** [s.split('\n')]: never the empty list; [''.split('\n')] is [['']]. *)
Fixpoint split_lines (s : jsstring) : list jsstring :=
  match s with
  | [] => [[]]
  | c :: r =>
      if c =? LF then [] :: split_lines r
      else match split_lines r with
           | [] => [[c]]
           | h :: t => (c :: h) :: t
           end
  end.

(** [parts.join(sep)] *)
Fixpoint join (sep : jsstring) (parts : list jsstring) : jsstring :=
  match parts with
  | [] => []
  | [x] => x
  | x :: rest => x ++ sep ++ join sep rest
  end.

Fixpoint startsWith (s p : jsstring) : bool :=
  match p, s with
  | [], _ => true
  | a :: p', b :: s' => (a =? b) && startsWith s' p'
  | _ :: _, [] => false
  end.

(** [s.includes(p)] *)
Fixpoint includes (s p : jsstring) : bool :=
  startsWith s p ||
  match s with
  | [] => false
  | _ :: r => includes r p
  end.

(** [s.endsWith(p)] *)
Definition endsWith (s p : jsstring) : bool := startsWith (rev s) (rev p).

Definition nonempty (s : jsstring) : bool :=
  match s with [] => false | _ => true end.

End JsString.
Import JsString.

(* ================================================================== *)
(** ** Command text normalisation *)
(* ================================================================== *)

(** The separator of [join('\\n')]: a backslash followed by the letter n. *)
Definition escaped_newline : jsstring := [92; 110].

(** [normalizeBashCommand(command)]:
    [command.split('\n').map(l => l.trim()).filter(l => l.length > 0).join('\\n')] *)
Definition normalizeBashCommand (command : jsstring) : jsstring :=
  join escaped_newline (filter nonempty (map trim (split_lines command))).

(* ================================================================== *)
(** ** JSON values and [JSON.parse] *)
(* ================================================================== *)

Module Json.

(** Numbers are IEEE binary64 values.  A finite non-zero number is
    [n * 2^k] in canonical form ([2^52 <= n < 2^53], or [n < 2^52] and
    [k = -1074] for the subnormals), so equal numbers are equal terms.
    The two zeros are one [Zero]: the program only tests numbers for
    truthiness and (as map keys) with [SameValueZero], and both identify
    [+0] and [-0].  [JSON.parse] never produces [NaN]. *)
Inductive number :=
| Zero
| Finite (neg : bool) (n : N) (k : Z)
| Infinite (neg : bool).

Inductive json :=
| JNull
| JBool (b : bool)
| JNum (x : number)
| JStr (s : jsstring)
| JArr (items : list json)
| JObj (fields : list (jsstring * json)).

Local Open Scope Z_scope.

Definition round_half_even (num den : Z) : Z :=
  let d := num / den in
  let r := num mod den in
  match 2 * r ?= den with
  | Lt => d
  | Gt => d + 1
  | Eq => if Z.even d then d else d + 1
  end.

(** The binary64 value nearest to [m * 10^e] (ties to even). *)
Definition binary64_of_decimal (neg : bool) (m : N) (e : Z) : number :=
  if (m =? 0)%N then Zero else
  let p := if 0 <=? e then Z.of_N m * 10 ^ e else Z.of_N m in
  let q := if 0 <=? e then 1 else 10 ^ (- e) in
  let l := Z.log2 p - Z.log2 q in
  let ge := if 0 <=? l then q * 2 ^ l <=? p else q <=? p * 2 ^ (- l) in
  let t := if ge then l else l - 1 in
  let k := Z.max (t - 52) (-1074) in
  let n := if 0 <=? k then round_half_even p (q * 2 ^ k)
           else round_half_even (p * 2 ^ (- k)) q in
  let nk := if n =? 2 ^ 53 then (2 ^ 52, k + 1) else (n, k) in
  if fst nk =? 0 then Zero
  else if 971 <? snd nk then Infinite neg
  else Finite neg (Z.to_N (fst nk)) (snd nk).

Local Close Scope Z_scope.

(** *** Lexer: one automaton step per code unit *)

Inductive token :=
| TLBrace | TRBrace | TLBrack | TRBrack | TColon | TComma
| TStr (s : jsstring)
| TNum (x : number)
| TTrue | TFalse | TNull.

(** Where the automaton stands inside a number literal: an optional
    minus sign, then 0 or a digit string with no leading 0, then an
    optional point with at least one digit, then an optional exponent
    (e or E, an optional sign, at least one digit). *)
Inductive num_state :=
| NMinus | NZero | NInt | NDot | NFrac | NExp | NExpSign | NExpDigits.

Record num_acc := {
  neg : bool;      (* a leading minus sign *)
  mant : N;        (* the digits read so far, without the point *)
  scale : N;       (* how many of them follow the point *)
  eneg : bool;     (* a minus sign in the exponent *)
  expo : N         (* the exponent digits *)
}.

Inductive mode :=
| MTop
| MStr (acc : jsstring)                    (* inside a string; [acc] reversed *)
| MEsc (acc : jsstring)                    (* after a backslash *)
| MHex (k : nat) (v : N) (acc : jsstring)  (* [S k] hex digits of \u still due *)
| MLit (rest : jsstring) (t : token)       (* inside true / false / null *)
| MNum (st : num_state) (a : num_acc).

Definition is_digit (c : char) : bool := (48 <=? c) && (c <=? 57).

Definition hex_value (c : char) : option N :=
  if (48 <=? c) && (c <=? 57) then Some (c - 48)
  else if (65 <=? c) && (c <=? 70) then Some (c - 55)
  else if (97 <=? c) && (c <=? 102) then Some (c - 87)
  else None.

Definition num_token (a : num_acc) : token :=
  let e := if eneg a then (- Z.of_N (expo a))%Z else Z.of_N (expo a) in
  TNum (binary64_of_decimal (neg a) (mant a) (e - Z.of_N (scale a))%Z).

Definition num_start (is_neg : bool) (m : N) : num_acc :=
  {| neg := is_neg; mant := m; scale := 0; eneg := false; expo := 0 |}.

Definition push_digit (a : num_acc) (c : char) : num_acc :=
  {| neg := neg a; mant := 10 * mant a + (c - 48); scale := scale a;
     eneg := eneg a; expo := expo a |}.

Definition push_frac_digit (a : num_acc) (c : char) : num_acc :=
  {| neg := neg a; mant := 10 * mant a + (c - 48); scale := scale a + 1;
     eneg := eneg a; expo := expo a |}.

Definition push_exp_digit (a : num_acc) (c : char) : num_acc :=
  {| neg := neg a; mant := mant a; scale := scale a;
     eneg := eneg a; expo := 10 * expo a + (c - 48) |}.

Definition set_exp_sign (a : num_acc) (s : bool) : num_acc :=
  {| neg := neg a; mant := mant a; scale := scale a;
     eneg := s; expo := expo a |}.

(** A code unit met between tokens. *)
Definition lex_top (c : char) : option (mode * list token) :=
  if (c =? 9) || (c =? 10) || (c =? 13) || (c =? 32) then Some (MTop, [])
  else if c =? 123 then Some (MTop, [TLBrace])
  else if c =? 125 then Some (MTop, [TRBrace])
  else if c =? 91 then Some (MTop, [TLBrack])
  else if c =? 93 then Some (MTop, [TRBrack])
  else if c =? 58 then Some (MTop, [TColon])
  else if c =? 44 then Some (MTop, [TComma])
  else if c =? 34 then Some (MStr [], [])
  else if c =? 116 then Some (MLit [114; 117; 101] TTrue, [])
  else if c =? 102 then Some (MLit [97; 108; 115; 101] TFalse, [])
  else if c =? 110 then Some (MLit [117; 108; 108] TNull, [])
  else if c =? 45 then Some (MNum NMinus (num_start true 0), [])
  else if c =? 48 then Some (MNum NZero (num_start false 0), [])
  else if is_digit c then Some (MNum NInt (num_start false (c - 48)), [])
  else None.

(** The literal ends at [c]: emit it and read [c] as a fresh code unit. *)
Definition lex_after_num (a : num_acc) (c : char) : option (mode * list token) :=
  match lex_top c with
  | Some (m, ts) => Some (m, num_token a :: ts)
  | None => None
  end.

Definition is_e (c : char) : bool := (c =? 101) || (c =? 69).

Definition lex_num (st : num_state) (a : num_acc) (c : char)
  : option (mode * list token) :=
  match st with
  | NMinus =>
      if c =? 48 then Some (MNum NZero a, [])
      else if is_digit c then Some (MNum NInt (push_digit a c), [])
      else None
  | NZero =>
      if c =? 46 then Some (MNum NDot a, [])
      else if is_e c then Some (MNum NExp a, [])
      else lex_after_num a c
  | NInt =>
      if is_digit c then Some (MNum NInt (push_digit a c), [])
      else if c =? 46 then Some (MNum NDot a, [])
      else if is_e c then Some (MNum NExp a, [])
      else lex_after_num a c
  | NDot =>
      if is_digit c then Some (MNum NFrac (push_frac_digit a c), []) else None
  | NFrac =>
      if is_digit c then Some (MNum NFrac (push_frac_digit a c), [])
      else if is_e c then Some (MNum NExp a, [])
      else lex_after_num a c
  | NExp =>
      if c =? 43 then Some (MNum NExpSign a, [])
      else if c =? 45 then Some (MNum NExpSign (set_exp_sign a true), [])
      else if is_digit c then Some (MNum NExpDigits (push_exp_digit a c), [])
      else None
  | NExpSign =>
      if is_digit c then Some (MNum NExpDigits (push_exp_digit a c), []) else None
  | NExpDigits =>
      if is_digit c then Some (MNum NExpDigits (push_exp_digit a c), [])
      else lex_after_num a c
  end.

Definition lex_escape (acc : jsstring) (c : char) : option (mode * list token) :=
  if c =? 34 then Some (MStr (34 :: acc), [])
  else if c =? 92 then Some (MStr (92 :: acc), [])
  else if c =? 47 then Some (MStr (47 :: acc), [])
  else if c =? 98 then Some (MStr (8 :: acc), [])
  else if c =? 102 then Some (MStr (12 :: acc), [])
  else if c =? 110 then Some (MStr (10 :: acc), [])
  else if c =? 114 then Some (MStr (13 :: acc), [])
  else if c =? 116 then Some (MStr (9 :: acc), [])
  else if c =? 117 then Some (MHex 3 0 acc, [])
  else None.

Definition lex_step (m : mode) (c : char) : option (mode * list token) :=
  match m with
  | MTop => lex_top c
  | MStr acc =>
      if c =? 34 then Some (MTop, [TStr (rev acc)])
      else if c =? 92 then Some (MEsc acc, [])
      else if c <? 32 then None
      else Some (MStr (c :: acc), [])
  | MEsc acc => lex_escape acc c
  | MHex k v acc =>
      match hex_value c with
      | None => None
      | Some d =>
          match k with
          | O => Some (MStr ((16 * v + d) :: acc), [])
          | S k' => Some (MHex k' (16 * v + d) acc, [])
          end
      end
  | MLit rest t =>
      match rest with
      | [] => None
      | x :: rest' =>
          if c =? x
          then match rest' with
               | [] => Some (MTop, [t])
               | _ => Some (MLit rest' t, [])
               end
          else None
      end
  | MNum st a => lex_num st a c
  end.

(** End of input: only between tokens or at the end of a complete number. *)
Definition lex_end (m : mode) : option (list token) :=
  match m with
  | MTop => Some []
  | MNum NZero a | MNum NInt a | MNum NFrac a | MNum NExpDigits a =>
      Some [num_token a]
  | _ => None
  end.

Fixpoint lex_from (m : mode) (s : jsstring) : option (list token) :=
  match s with
  | [] => lex_end m
  | c :: r =>
      match lex_step m c with
      | None => None
      | Some (m', ts) =>
          match lex_from m' r with
          | None => None
          | Some rest => Some (ts ++ rest)
          end
      end
  end.

Definition lex (s : jsstring) : option (list token) := lex_from MTop s.

(** *** Parser: a stack machine over the tokens *)

(** A property definition on an object under construction: a repeated
    key keeps its place and takes the later value. *)
Fixpoint obj_set (fields : list (jsstring * json)) (k : jsstring) (v : json)
  : list (jsstring * json) :=
  match fields with
  | [] => [(k, v)]
  | (k', v') :: r =>
      if JsString.eqb k' k then (k', v) :: r else (k', v') :: obj_set r k v
  end.

Inductive frame :=
| FArr (items : list json)                              (* reversed *)
| FObj (fields : list (jsstring * json)) (key : option jsstring).

Inductive pstate :=
| PValue            (* a value must follow *)
| PArrFirst         (* just after [ *)
| PArrNext          (* after an element *)
| PObjFirst         (* just after { *)
| PObjKey           (* after a comma inside an object *)
| PObjColon         (* after a key *)
| PObjNext          (* after a member *)
| PDone (v : json).

Definition config := (list frame * pstate)%type.

(** A complete value goes to the enclosing array or object. *)
Definition deliver (stack : list frame) (v : json) : option config :=
  match stack with
  | [] => Some ([], PDone v)
  | FArr items :: st => Some (FArr (v :: items) :: st, PArrNext)
  | FObj fields (Some k) :: st => Some (FObj (obj_set fields k v) None :: st, PObjNext)
  | FObj _ None :: _ => None
  end.

Definition start_value (stack : list frame) (t : token) : option config :=
  match t with
  | TStr s => deliver stack (JStr s)
  | TNum x => deliver stack (JNum x)
  | TTrue => deliver stack (JBool true)
  | TFalse => deliver stack (JBool false)
  | TNull => deliver stack JNull
  | TLBrack => Some (FArr [] :: stack, PArrFirst)
  | TLBrace => Some (FObj [] None :: stack, PObjFirst)
  | _ => None
  end.

Definition close_array (stack : list frame) : option config :=
  match stack with
  | FArr items :: st => deliver st (JArr (rev items))
  | _ => None
  end.

Definition close_object (stack : list frame) : option config :=
  match stack with
  | FObj fields None :: st => deliver st (JObj fields)
  | _ => None
  end.

Definition read_key (stack : list frame) (t : token) : option config :=
  match t, stack with
  | TStr k, FObj fields None :: st => Some (FObj fields (Some k) :: st, PObjColon)
  | _, _ => None
  end.

Definition parse_step (c : config) (t : token) : option config :=
  let (stack, st) := c in
  match st with
  | PValue => start_value stack t
  | PArrFirst =>
      match t with TRBrack => close_array stack | _ => start_value stack t end
  | PArrNext =>
      match t with
      | TComma => Some (stack, PValue)
      | TRBrack => close_array stack
      | _ => None
      end
  | PObjFirst =>
      match t with TRBrace => close_object stack | _ => read_key stack t end
  | PObjKey => read_key stack t
  | PObjColon =>
      match t with TColon => Some (stack, PValue) | _ => None end
  | PObjNext =>
      match t with
      | TComma => Some (stack, PObjKey)
      | TRBrace => close_object stack
      | _ => None
      end
  | PDone _ => None
  end.

Fixpoint parse_from (c : config) (ts : list token) : option json :=
  match ts with
  | [] => match c with ([], PDone v) => Some v | _ => None end
  | t :: r =>
      match parse_step c t with
      | None => None
      | Some c' => parse_from c' r
      end
  end.

(** [JSON.parse(text)]: [None] is the [SyntaxError]. *)
Definition JSON_parse (text : jsstring) : option json :=
  match lex text with
  | None => None
  | Some ts => parse_from ([], PValue) ts
  end.

End Json.
Import Json.

(* ================================================================== *)
(** ** The fragment of JavaScript the extractors run on *)
(* ================================================================== *)

Module Js.

(** What a [catch] clause can receive here. *)
Inductive error :=
| SyntaxError          (* [JSON.parse] on malformed text *)
| TypeError            (* a property read on null, a call of a non-function *)
| ReadError.           (* the file stream failed *)

Inductive res (A : Type) :=
| Val (a : A)
| Throw (e : error).
Arguments Val {A} a.
Arguments Throw {A} e.

(** A JavaScript value met at run time: a decoded JSON value or
    [undefined] (written [None]). *)
Definition value := option json.

(** [ToBoolean] *)
Definition truthy (v : json) : bool :=
  match v with
  | JNull => false
  | JBool b => b
  | JNum Zero => false
  | JNum _ => true
  | JStr s => nonempty s
  | JArr _ | JObj _ => true
  end.

Definition truthy_val (v : value) : bool :=
  match v with
  | None => false
  | Some j => truthy j
  end.

Fixpoint assoc (fields : list (jsstring * json)) (k : jsstring) : value :=
  match fields with
  | [] => None
  | (k', v) :: r => if JsString.eqb k' k then Some v else assoc r k
  end.

(** Reading property [k] of a value that is neither null nor undefined.
    The names the program reads ([type], [message], [content], [name],
    [id], [input], [command], [description], [tool_use_id], [is_error],
    [timestamp], [cwd]) exist on no prototype of a decoded value, so only
    an object's own fields answer. *)
Definition prop (v : json) (k : jsstring) : value :=
  match v with
  | JObj fields => assoc fields k
  | _ => None
  end.

(** [v.k] *)
Definition get (v : value) (k : jsstring) : res value :=
  match v with
  | None | Some JNull => Throw TypeError
  | Some j => Val (prop j k)
  end.

(** [v?.k] *)
Definition get_opt (v : value) (k : jsstring) : value :=
  match v with
  | None | Some JNull => None
  | Some j => prop j k
  end.

(** [v === 'literal'] *)
Definition is_string (v : value) (literal : jsstring) : bool :=
  match v with
  | Some (JStr s) => JsString.eqb s literal
  | _ => false
  end.

(** [typeof v === 'string'] *)
Definition typeof_string (v : value) : bool :=
  match v with
  | Some (JStr _) => true
  | _ => false
  end.

(** [v ?? d] *)
Definition nullish_or (v : value) (d : json) : json :=
  match v with
  | None | Some JNull => d
  | Some j => j
  end.

Definition number_eqb (x y : number) : bool :=
  match x, y with
  | Zero, Zero => true
  | Finite s n k, Finite s' n' k' => Bool.eqb s s' && (n =? n') && (k =? k')%Z
  | Infinite s, Infinite s' => Bool.eqb s s'
  | _, _ => false
  end.

(** [SameValueZero], the key comparison of [Map], between a key and a
    value decoded from another line.  Arrays and objects compare by
    identity, and every line is decoded into fresh objects, so such a
    key equals nothing that a later line brings. *)
Definition same_value_zero (a b : json) : bool :=
  match a, b with
  | JNull, JNull => true
  | JBool x, JBool y => Bool.eqb x y
  | JNum x, JNum y => number_eqb x y
  | JStr x, JStr y => JsString.eqb x y
  | _, _ => false
  end.

(** [items.find(p)] where the callback may throw. *)
Fixpoint find (p : json -> res bool) (items : list json) : res value :=
  match items with
  | [] => Val None
  | x :: r =>
      match p x with
      | Throw e => Throw e
      | Val true => Val (Some x)
      | Val false => find p r
      end
  end.

(** [content.find(p)] for a truthy [content]: only arrays have [find];
    on a string, number, boolean or object the call is a [TypeError]. *)
Definition call_find (content : value) (p : json -> res bool) : res value :=
  match content with
  | Some (JArr items) => find p items
  | _ => Throw TypeError
  end.

(** [ToPrimitive(v)] throws.  A decoded object has no callable
    property of its own, so it converts only through the inherited
    [toString], which an own property of that name hides; an array
    converts through [join], which converts each element that is not
    null. *)
Fixpoint to_primitive_throws (v : json) : bool :=
  match v with
  | JObj fields =>
      match assoc fields (lit "toString") with
      | Some _ => true
      | None => false
      end
  | JArr items => existsb to_primitive_throws items
  | _ => false
  end.

(** *** [Map], in insertion order *)

Section MapOps.
Variable V : Type.

Definition jsmap := list (json * V).

Fixpoint map_get (m : jsmap) (k : json) : option V :=
  match m with
  | [] => None
  | (k', v) :: r => if same_value_zero k' k then Some v else map_get r k
  end.

(** [m.set(k, v)]: an existing key keeps its place. *)
Fixpoint map_set (k : json) (v : V) (m : jsmap) : jsmap :=
  match m with
  | [] => [(k, v)]
  | (k', v') :: r =>
      if same_value_zero k' k then (k', v) :: r else (k', v') :: map_set k v r
  end.

Fixpoint map_delete (k : json) (m : jsmap) : jsmap :=
  match m with
  | [] => []
  | (k', v') :: r =>
      if same_value_zero k' k then r else (k', v') :: map_delete k r
  end.

Definition map_values (m : jsmap) : list V := map snd m.

Definition map_size (m : jsmap) : N := N.of_nat (List.length m).

End MapOps.

End Js.
Import Js.

(* ================================================================== *)
(** ** Output records *)
(* ================================================================== *)

(** [new Date(v)] for the entry's timestamp [v], or [new Date()], the
    clock at decoding time. *)
Inductive date :=
| DateOf (v : json)
| DateNow.

(** [new Date(v)]: an object or array is first converted to a primitive. *)
Definition new_Date (v : json) : res date :=
  if to_primitive_throws v then Throw TypeError else Val (DateOf v).

Inductive command_source := bash | user.

(** [ClaudeCommand] ([types.ts] is not part of the sources; the fields
    are those [createClaudeCommand] writes, plus [success], which
    [processEntry] and [flushPendingCommands] assign later). *)
Record ClaudeCommand := {
  timestamp : date;
  command : jsstring;
  source : command_source;
  description : value;
  projectPath : value;
  success : option bool
}.

(** [c.success = b] *)
Definition set_success (c : ClaudeCommand) (b : bool) : ClaudeCommand :=
  {| timestamp := timestamp c; command := command c; source := source c;
     description := description c; projectPath := projectPath c;
     success := Some b |}.

Record tool_result := {
  tool_use_id : json;
  is_error : json
}.

Inductive error_type := JSON_syntax | parsing.

(** The three [console.error] calls, by their arguments (the text of the
    runtime's own error message is left out). *)
Inductive diagnostic :=
| ErrorParsingLine (lineNumber : N) (filePath : jsstring) (errorType : error_type)
| ErrorReadingFile (filePath : jsstring)
| ErrorReadingProjectDirectory (projectPath : jsstring).

Inductive event :=
| Yield (c : ClaudeCommand)
| ConsoleError (d : diagnostic).

Fixpoint commands (t : list event) : list ClaudeCommand :=
  match t with
  | [] => []
  | Yield c :: r => c :: commands r
  | ConsoleError _ :: r => commands r
  end.

Fixpoint diagnostics (t : list event) : list diagnostic :=
  match t with
  | [] => []
  | Yield _ :: r => diagnostics r
  | ConsoleError d :: r => d :: diagnostics r
  end.

(* ================================================================== *)
(** ** The generator monad *)
(* ================================================================== *)

(** A method of the parser runs on the pending table, may throw, and
    leaves a trace of yields and diagnostics.  After [yield c] the
    program never touches [c] again (it is removed from the table, or
    the table is cleared), so yielded commands are values. *)
Definition pending := jsmap ClaudeCommand.

Definition M (A : Type) := pending -> res A * pending * list event.

Definition ret {A} (a : A) : M A := fun p => (Val a, p, []).

Definition bind {A B} (m : M A) (f : A -> M B) : M B :=
  fun p =>
    match m p with
    | (Val a, p', t) =>
        match f a p' with
        | (r, p'', t') => (r, p'', t ++ t')
        end
    | (Throw e, p', t) => (Throw e, p', t)
    end.

Definition throw {A} (e : error) : M A := fun p => (Throw e, p, []).

(** A pure computation that may throw. *)
Definition lift {A} (r : res A) : M A := fun p => (r, p, []).

Definition yield (c : ClaudeCommand) : M unit := fun p => (Val tt, p, [Yield c]).

Definition console_error (d : diagnostic) : M unit :=
  fun p => (Val tt, p, [ConsoleError d]).

Definition get_pending : M pending := fun p => (Val p, p, []).

Definition update_pending (f : pending -> pending) : M unit :=
  fun p => (Val tt, f p, []).

(** [try { m } catch (e) { h e }] *)
Definition try_catch {A} (m : M A) (h : error -> M A) : M A :=
  fun p =>
    match m p with
    | (Val a, p', t) => (Val a, p', t)
    | (Throw e, p', t) =>
        match h e p' with
        | (r, p'', t') => (r, p'', t ++ t')
        end
    end.

Declare Scope gen_scope.
Delimit Scope gen_scope with gen.
Notation "x <- m ;; k" := (bind m (fun x => k))
  (at level 61, m at next level, right associativity) : gen_scope.
Notation "m ;; k" := (bind m (fun _ => k))
  (at level 61, right associativity) : gen_scope.
Local Open Scope gen_scope.

Definition res_bind {A B} (r : res A) (f : A -> res B) : res B :=
  match r with
  | Val a => f a
  | Throw e => Throw e
  end.

(* ================================================================== *)
(** ** [class JSONLStreamParser] *)
(* ================================================================== *)

(** [maxPendingEntries = 100], the cleanup threshold. *)
Definition maxPendingEntries : N := 100.

(** [lineContainsCommands(line)] *)
Definition lineContainsCommands (line : jsstring) : bool :=
  includes line (js "'Bash'")
  || includes line (js "'tool_result'")
  || includes line (lit "<bash-input>").

(** *** Event extractors *)

(** [entry.timestamp ? new Date(entry.timestamp) : new Date()] *)
Definition entry_timestamp (entry : json) : res date :=
  match prop entry (lit "timestamp") with
  | Some v => if truthy v then new_Date v else Val DateNow
  | None => Val DateNow
  end.

(** [createClaudeCommand(block, entry, source)].  [block] and [entry]
    are objects at both call sites.  A truthy [command] that is not a
    string has no [split]; that [TypeError], like the one [new Date]
    may raise, is caught and null returned. *)
Definition createClaudeCommand (block entry : json) (src : command_source)
  : option ClaudeCommand :=
  let body :=
    res_bind (get (Some block) (lit "input")) (fun input =>
    let cmd := get_opt input (lit "command") in
    if negb (truthy_val cmd) then Val None else
    res_bind (entry_timestamp entry) (fun ts =>
    res_bind (match cmd with
              | Some (JStr s) => Val (normalizeBashCommand s)
              | _ => Throw TypeError
              end) (fun normalized =>
    let descr := get_opt input (lit "description") in
    Val (Some {| timestamp := ts;
                 command := normalized;
                 source := src;
                 description := if truthy_val descr then descr else None;
                 projectPath := prop entry (lit "cwd");
                 success := None |}))))
  in
  match body with
  | Val r => r
  | Throw _ => None
  end.

(** [findBashToolBlock(content)]:
    [content.find(block => block.type === 'tool_use' && block.name === 'Bash')] *)
Definition findBashToolBlock (content : value) : res value :=
  call_find content (fun block =>
    res_bind (get (Some block) (lit "type")) (fun ty =>
    if is_string ty (lit "tool_use")
    then res_bind (get (Some block) (lit "name")) (fun nm =>
         Val (is_string nm (lit "Bash")))
    else Val false)).

(** [entry.message?.content], read once [entry.type] has been read. *)
Definition message_content (entry : json) : value :=
  get_opt (prop entry (lit "message")) (lit "content").

(** [extractBashCommand(entry)] *)
Definition extractBashCommand (entry : json) : res (option ClaudeCommand) :=
  res_bind (get (Some entry) (lit "type")) (fun ty =>
  if negb (is_string ty (lit "assistant")) || negb (truthy_val (message_content entry))
  then Val None else
  res_bind (findBashToolBlock (message_content entry)) (fun bashBlock =>
  match bashBlock with
  | Some block => if truthy block then Val (createClaudeCommand block entry bash) else Val None
  | None => Val None
  end)).

(** [extractToolUseId(entry)]: [bashBlock?.id || null] *)
Definition extractToolUseId (entry : json) : res value :=
  res_bind (get (Some entry) (lit "type")) (fun ty =>
  if negb (is_string ty (lit "assistant")) || negb (truthy_val (message_content entry))
  then Val None else
  res_bind (findBashToolBlock (message_content entry)) (fun bashBlock =>
  let id := get_opt bashBlock (lit "id") in
  Val (if truthy_val id then id else None))).

(** [extractToolResult(entry)] *)
Definition extractToolResult (entry : json) : res (option tool_result) :=
  res_bind (get (Some entry) (lit "type")) (fun ty =>
  if negb (is_string ty (lit "user")) || negb (truthy_val (message_content entry))
  then Val None else
  if typeof_string (message_content entry) then Val None else
  res_bind (call_find (message_content entry) (fun block =>
              res_bind (get (Some block) (lit "type")) (fun bty =>
              if is_string bty (lit "tool_result")
              then res_bind (get (Some block) (lit "tool_use_id")) (fun id =>
                   Val (truthy_val id))
              else Val false))) (fun toolResult =>
  match get_opt toolResult (lit "tool_use_id") with
  | Some id =>
      if truthy id
      then Val (Some {| tool_use_id := id;
                        is_error := nullish_or (get_opt toolResult (lit "is_error"))
                                               (JBool false) |})
      else Val None
  | None => Val None
  end)).

Definition open_tag : jsstring := lit "<bash-input>".
Definition close_tag : jsstring := lit "</bash-input>".

(** The lazy group [(.*?)] followed by the closing tag: the shortest run
    of code units, none of them a line terminator, after which the
    closing tag stands. *)
Fixpoint lazy_group (s : jsstring) : option jsstring :=
  if startsWith s close_tag then Some []
  else match s with
       | [] => None
       | c :: r =>
           if is_line_terminator c then None
           else match lazy_group r with
                | Some g => Some (c :: g)
                | None => None
                end
       end.

(** [content.match(/<bash-input>(.*?)<\/bash-input>/)]: the capture of
    the leftmost match. *)
Fixpoint bash_input_match (content : jsstring) : option jsstring :=
  match (if startsWith content open_tag
         then lazy_group (skipn (List.length open_tag) content)
         else None) with
  | Some g => Some g
  | None =>
      match content with
      | [] => None
      | _ :: r => bash_input_match r
      end
  end.

(** [findUserCommand(content)] *)
Definition findUserCommand (content : jsstring) : option jsstring :=
  match bash_input_match content with
  | Some g => Some (trim g)
  | None => None
  end.

(** [extractUserCommand(entry)] *)
Definition extractUserCommand (entry : json) : res (option ClaudeCommand) :=
  res_bind (get (Some entry) (lit "type")) (fun ty =>
  if negb (is_string ty (lit "user")) || negb (truthy_val (message_content entry))
  then Val None else
  match message_content entry with
  | Some (JStr content) =>
      match findUserCommand content with
      | Some cmd =>
          if nonempty cmd
          then Val (createClaudeCommand
                      (JObj [(lit "input", JObj [(lit "command", JStr cmd)])])
                      entry user)
          else Val None
      | None => Val None
      end
  | _ => Val None
  end).

(** *** The correlation engine *)

Fixpoint yield_each (cs : list ClaudeCommand) : M unit :=
  match cs with
  | [] => ret tt
  | c :: r => yield c ;; yield_each r
  end.

(** [flushPendingCommands()] *)
Definition flushPendingCommands : M unit :=
  p <- get_pending ;;
  yield_each (map (fun c => set_success c true) (map_values p)) ;;
  update_pending (fun _ => []).

(** [cleanupOldPendingCommands()] *)
Definition cleanupOldPendingCommands : M unit :=
  p <- get_pending ;;
  if maxPendingEntries <? map_size p then flushPendingCommands else ret tt.

Definition parse_line (line : jsstring) : res json :=
  match JSON_parse line with
  | Some entry => Val entry
  | None => Throw SyntaxError
  end.

(** [processEntry(line, lineNumber, filePath)] *)
Definition processEntry (line : jsstring) (lineNumber : N) (filePath : jsstring)
  : M unit :=
  try_catch
    (entry <- lift (parse_line line) ;;
     bashCommand <- lift (extractBashCommand entry) ;;
     match bashCommand with
     | Some cmd =>
         toolUseId <- lift (extractToolUseId entry) ;;
         match toolUseId with
         | Some id => update_pending (map_set id cmd)
         | None => yield (set_success cmd true)
         end
     | None => ret tt
     end ;;
     toolResult <- lift (extractToolResult entry) ;;
     match toolResult with
     | Some r =>
         p <- get_pending ;;
         match map_get p (tool_use_id r) with
         | Some cmd =>
             update_pending (map_delete (tool_use_id r)) ;;
             yield (set_success cmd (negb (truthy (is_error r))))
         | None => ret tt
         end
     | None => ret tt
     end ;;
     userCommand <- lift (extractUserCommand entry) ;;
     match userCommand with
     | Some cmd => yield (set_success cmd true)
     | None => ret tt
     end)
    (fun e =>
       console_error
         (ErrorParsingLine lineNumber filePath
            (match e with SyntaxError => JSON_syntax | _ => parsing end))).

(** What the readline interface hands over: the lines it could read,
    and whether the underlying stream then failed. *)
Record readline := {
  lines : list jsstring;
  fails : bool
}.

(** The body of the [for await] loop for the line that brings the
    counters to [lineNumber] and [entryCount]. *)
Definition processLine (line : jsstring) (lineNumber entryCount : N)
  (filePath : jsstring) : M unit :=
  if negb (nonempty (trim line)) then ret tt
  else if negb (lineContainsCommands line) then ret tt
  else
    processEntry line lineNumber filePath ;;
    if entryCount mod maxPendingEntries =? 0
    then cleanupOldPendingCommands
    else ret tt.

Fixpoint processLines_from (lineNumber entryCount : N) (ls : list jsstring)
  (filePath : jsstring) : M unit :=
  match ls with
  | [] => ret tt
  | line :: rest =>
      processLine line (lineNumber + 1) (entryCount + 1) filePath ;;
      processLines_from (lineNumber + 1) (entryCount + 1) rest filePath
  end.

(** [processLines(rl, filePath)] *)
Definition processLines (rl : readline) (filePath : jsstring) : M unit :=
  processLines_from 0 0 (lines rl) filePath ;;
  if fails rl then throw ReadError else ret tt.

(** [createFileStream(filePath)], on what reading [filePath] gives. *)
Definition createFileStream (filePath : jsstring) (rl : readline) : M unit :=
  try_catch
    (processLines rl filePath ;;
     flushPendingCommands)
    (fun _ => console_error (ErrorReadingFile filePath)).

(** *** The project stream *)

(** A directory entry: its name, what [stat] reports as its
    modification time in milliseconds ([None] when [stat] fails), and
    what reading it gives. *)
Record dir_entry := {
  name : jsstring;
  stat_mtime : option Z;
  content : readline
}.

Record file_stat := {
  path : jsstring;
  mtime : Z;
  reader : readline
}.

(** [fileStats.sort((a, b) => a.mtime.getTime() - b.mtime.getTime())]:
    ascending, and stable. *)
Fixpoint insert_by_mtime (x : file_stat) (l : list file_stat) : list file_stat :=
  match l with
  | [] => [x]
  | y :: r =>
      if (mtime x - mtime y <=? 0)%Z then x :: y :: r
      else y :: insert_by_mtime x r
  end.

Fixpoint sort_by_mtime (l : list file_stat) : list file_stat :=
  match l with
  | [] => []
  | x :: r => insert_by_mtime x (sort_by_mtime r)
  end.

Fixpoint for_each_file (l : list file_stat) : M unit :=
  match l with
  | [] => ret tt
  | f :: r => createFileStream (path f) (reader f) ;; for_each_file r
  end.

Section Project.

(** [path.join], of [node:path]. *)
Variable join_path : jsstring -> jsstring -> jsstring.

(** [Promise.all(jsonlFiles.map(async file => ({path, mtime})))] *)
Fixpoint stat_all (projectPath : jsstring) (l : list dir_entry)
  : res (list file_stat) :=
  match l with
  | [] => Val []
  | e :: r =>
      match stat_mtime e with
      | None => Throw ReadError
      | Some t =>
          res_bind (stat_all projectPath r) (fun rest =>
          Val ({| path := join_path projectPath (name e);
                  mtime := t; reader := content e |} :: rest))
      end
  end.

(** [createProjectStream(projectPath)], on what [readdir] gives
    ([None] when it fails). *)
Definition createProjectStream (projectPath : jsstring)
  (readdir : option (list dir_entry)) : M unit :=
  try_catch
    (files <- lift (match readdir with
                    | Some fs => Val fs
                    | None => Throw ReadError
                    end) ;;
     let jsonlFiles := filter (fun e => endsWith (name e) (lit ".jsonl")) files in
     fileStats <- lift (stat_all projectPath jsonlFiles) ;;
     for_each_file (sort_by_mtime fileStats))
    (fun _ => console_error (ErrorReadingProjectDirectory projectPath)).

(** [createResilientCommandStream(projectPath)]: a new parser, whose
    pending table is empty. *)
Definition createResilientCommandStream (projectPath : jsstring)
  (readdir : option (list dir_entry)) : list event :=
  snd (createProjectStream projectPath readdir []).

End Project.

(** The stream of one file read by a new parser. *)
Definition file_stream (filePath : jsstring) (rl : readline) : list event :=
  snd (createFileStream filePath rl []).

(* ================================================================== *)
(** ** Vocabulary of the statements *)
(* ================================================================== *)

(** A line of normalised text: not empty, no white space at either end,
    no line feed inside. *)
Definition tight (x : jsstring) : Prop :=
  x <> [] /\ trimStart x = x /\ trimEnd x = x /\ ~ In LF x.

(** The line reaches [processEntry]: it is not blank and the
    pre-filter lets it through. *)
Definition reaches_decoder (line : jsstring) : bool :=
  nonempty (trim line) && lineContainsCommands line.

(** The pending table holds at most one entry per key. *)
Fixpoint unique_keys (p : pending) : Prop :=
  match p with
  | [] => True
  | (k, _) :: r => map_get r k = None /\ unique_keys r
  end.

(** Every pending command came from a Bash tool use and has no
    [success] yet. *)
Definition awaiting (c : ClaudeCommand) : Prop :=
  source c = bash /\ success c = None.

Definition all_awaiting (p : pending) : Prop :=
  Forall (fun kc => awaiting (snd kc)) p.

(** What one call of [processEntry] on [line] can do to the pending
    table, and the trace it leaves. *)
Inductive entry_step (line : jsstring) (lineNumber : N) (filePath : jsstring)
  (p : pending) : pending -> list event -> Prop :=
| step_caught (e : error_type) :
    entry_step line lineNumber filePath p
      p [ConsoleError (ErrorParsingLine lineNumber filePath e)]
| step_store (entry : json) (cmd : ClaudeCommand) (id : json) :
    JSON_parse line = Some entry ->
    extractBashCommand entry = Val (Some cmd) ->
    extractToolUseId entry = Val (Some id) ->
    entry_step line lineNumber filePath p
      (map_set id cmd p) []
| step_immediate (entry : json) (cmd : ClaudeCommand) :
    JSON_parse line = Some entry ->
    extractBashCommand entry = Val (Some cmd) ->
    extractToolUseId entry = Val None ->
    entry_step line lineNumber filePath p
      p [Yield (set_success cmd true)]
| step_resolve (entry : json) (r : tool_result) (cmd : ClaudeCommand) :
    JSON_parse line = Some entry ->
    extractToolResult entry = Val (Some r) ->
    map_get p (tool_use_id r) = Some cmd ->
    entry_step line lineNumber filePath p
      (map_delete (tool_use_id r) p)
      [Yield (set_success cmd (negb (truthy (is_error r))))]
| step_dropped (entry : json) (r : tool_result) :
    JSON_parse line = Some entry ->
    extractToolResult entry = Val (Some r) ->
    map_get p (tool_use_id r) = None ->
    entry_step line lineNumber filePath p p []
| step_user (entry : json) (cmd : ClaudeCommand) :
    JSON_parse line = Some entry ->
    extractUserCommand entry = Val (Some cmd) ->
    entry_step line lineNumber filePath p
      p [Yield (set_success cmd true)]
| step_nothing (entry : json) :
    JSON_parse line = Some entry ->
    extractBashCommand entry = Val None ->
    extractToolResult entry = Val None ->
    extractUserCommand entry = Val None ->
    entry_step line lineNumber filePath p p [].

(** The order the project's files are streamed in. *)
Definition mtime_le (a b : file_stat) : Prop := (mtime a <= mtime b)%Z.

(** The trace of [flushPendingCommands] on table [p]. *)
Definition flush_trace (p : pending) : list event :=
  map (fun kc => Yield (set_success (snd kc) true)) p.

(** [line] decodes to an entry that stores or resolves identifier [id]. *)
Definition mentions (id : json) (line : jsstring) : bool :=
  match JSON_parse line with
  | Some entry =>
      match extractToolUseId entry with
      | Val (Some k) => same_value_zero k id
      | _ => false
      end
      || match extractToolResult entry with
         | Val (Some r) => same_value_zero (tool_use_id r) id
         | _ => false
         end
  | None => false
  end.

(** The cleanup that follows [line] flushes the table: the line reaches
    the decoder, it brings the count to a multiple of
    [maxPendingEntries], and its entry leaves more than
    [maxPendingEntries] commands pending. *)
Definition flushes_after (line : jsstring) (count : N) (filePath : jsstring)
  (p : pending) : bool :=
  reaches_decoder line
  && (count mod maxPendingEntries =? 0)
  && (maxPendingEntries <? map_size (snd (fst (processEntry line count filePath p)))).

(** The bounded-table window: no cleanup flushes the table while the
    lines [ls] are read, starting after [n] lines with table [p]. *)
Fixpoint within_window (n : N) (p : pending) (ls : list jsstring)
  (filePath : jsstring) : bool :=
  match ls with
  | [] => true
  | line :: rest =>
      negb (flushes_after line (n + 1) filePath p)
      && within_window (n + 1)
           (snd (fst (processLine line (n + 1) (n + 1) filePath p))) rest filePath
  end.

(** Every yielded command has its [success] set, and a user command is
    never a failure. *)
Definition resolved_event (e : event) : Prop :=
  match e with
  | Yield c => success c <> None /\ (source c = user -> success c = Some true)
  | ConsoleError _ => True
  end.

(* ================================================================== *)
(** ** The writer of the log: [JSON.stringify] *)
(* ================================================================== *)

(** The program only reads logs.  The lines it reads are written by the
    assistant with [JSON.stringify]; it is modelled here to state on
    which lines the pre-filter can be trusted. *)
Module Stringify.
Section Stringify.

(** [Number::toString], and the order in which the members of an object
    are written (integer-like keys first, then the others as inserted):
    both are left open. *)
Variable number_text : number -> jsstring.
Variable member_order : list jsstring -> list jsstring.

Definition is_high_surrogate (c : char) : bool := (55296 <=? c) && (c <=? 56319).
Definition is_low_surrogate (c : char) : bool := (56320 <=? c) && (c <=? 57343).

Definition hex_digit (n : N) : char := if n <? 10 then 48 + n else 87 + n.

Definition unicode_escape (c : char) : jsstring :=
  [92; 117; hex_digit (c / 4096); hex_digit ((c / 256) mod 16);
   hex_digit ((c / 16) mod 16); hex_digit (c mod 16)].

(** A code unit that is not a surrogate. *)
Definition quote_unit (c : char) : jsstring :=
  if c =? 8 then [92; 98]
  else if c =? 9 then [92; 116]
  else if c =? 10 then [92; 110]
  else if c =? 12 then [92; 102]
  else if c =? 13 then [92; 114]
  else if c =? 34 then [92; 34]
  else if c =? 92 then [92; 92]
  else if c <? 32 then unicode_escape c
  else [c].

(** The inside of a quoted string.  [high] is a high surrogate just
    read: with a low surrogate after it the pair is written as it is, a
    surrogate on its own is written as an escape. *)
Fixpoint quote_from (high : option char) (s : jsstring) : jsstring :=
  match s with
  | [] =>
      match high with
      | Some h => unicode_escape h
      | None => []
      end
  | c :: r =>
      match high with
      | Some h =>
          if is_low_surrogate c then h :: c :: quote_from None r
          else unicode_escape h
               ++ (if is_high_surrogate c then quote_from (Some c) r
                   else quote_unit c ++ quote_from None r)
      | None =>
          if is_high_surrogate c then quote_from (Some c) r
          else if is_low_surrogate c then unicode_escape c ++ quote_from None r
          else quote_unit c ++ quote_from None r
      end
  end.

Definition QuoteJSONString (s : jsstring) : jsstring :=
  [34] ++ quote_from None s ++ [34].

(** [JSON.stringify(v)], with neither replacer nor indentation. *)
Fixpoint JSON_stringify (v : json) : jsstring :=
  match v with
  | JNull => lit "null"
  | JBool true => lit "true"
  | JBool false => lit "false"
  | JNum x => number_text x
  | JStr s => QuoteJSONString s
  | JArr items => lit "[" ++ join (lit ",") (map JSON_stringify items) ++ lit "]"
  | JObj fields =>
      lit "{"
      ++ join (lit ",")
           (member_order
              ((fix members (fs : list (jsstring * json)) : list jsstring :=
                  match fs with
                  | [] => []
                  | (k, x) :: r =>
                      (QuoteJSONString k ++ lit ":" ++ JSON_stringify x) :: members r
                  end) fields))
      ++ lit "}"
  end.

End Stringify.
End Stringify.

(** [m] occurs in [s]. *)
Definition infix (m s : jsstring) : Prop := exists a b, s = a ++ m ++ b.


(* ================================================================== *)
(** ** Sample log lines *)
(* ================================================================== *)

Module Sample.

Definition log : jsstring := lit "session.jsonl".

(** The example of the specification: a Bash tool use and its result. *)
Definition bash_use : jsstring :=
  js "{'type':'assistant','message':{'content':[{'type':'tool_use','name':'Bash','id':'t1','input':{'command':'ls -la\n'}}]}}".

Definition tool_result_ok : jsstring :=
  js "{'type':'user','message':{'content':[{'type':'tool_result','tool_use_id':'t1','is_error':false}]}}".

Definition tool_result_failed : jsstring :=
  js "{'type':'user','message':{'content':[{'type':'tool_result','tool_use_id':'t1','is_error':true}]}}".

Definition ls_command : ClaudeCommand :=
  {| timestamp := DateNow; command := lit "ls -la"; source := bash;
     description := None; projectPath := None; success := None |}.

(** A Bash tool use without [id], and one whose [id] is the empty string. *)
Definition bash_use_no_id : jsstring :=
  js "{'type':'assistant','message':{'content':[{'type':'tool_use','name':'Bash','input':{'command':'pwd'}}]}}".


Definition pwd_command : ClaudeCommand :=
  {| timestamp := DateNow; command := lit "pwd"; source := bash;
     description := None; projectPath := None; success := None |}.

(** Commands typed by the user. *)
Definition user_command : jsstring :=
  js "{'type':'user','message':{'content':'<bash-input>git status</bash-input>'}}".

Definition user_blank_command : jsstring :=
  js "{'type':'user','message':{'content':'<bash-input>  </bash-input>'}}".

Definition user_two_line_command : jsstring :=
  js "{'type':'user','message':{'content':'<bash-input>echo a\necho b</bash-input>'}}".

Definition git_status_command : ClaudeCommand :=
  {| timestamp := DateNow; command := lit "git status"; source := user;
     description := None; projectPath := None; success := None |}.

(** Lines that are not JSON: one without any marker of the pre-filter,
    one with the marker of the Bash tool. *)
Definition malformed : jsstring := js "{not json".

Definition malformed_with_marker : jsstring := js "{'name':'Bash'".

(** The same tool use as [bash_use] with the B of the tool name written
    as a JSON escape, a user command whose angle brackets are escaped
    (as HTML-safe encoders write them), and a tool result with an
    escaped underscore. *)
Definition bash_use_escaped : jsstring :=
  js "{'type':'assistant','message':{'content':[{'type':'tool_use','name':'\u0042ash','id':'t1','input':{'command':'ls -la\n'}}]}}".

Definition user_command_escaped : jsstring :=
  js "{'type':'user','message':{'content':'\u003cbash-input\u003egit status\u003c/bash-input\u003e'}}".

Definition tool_result_escaped : jsstring :=
  js "{'type':'user','message':{'content':[{'type':'tool\u005fresult','tool_use_id':'t1','is_error':true}]}}".

(** A log whose pending table grows past the threshold: Bash tool uses
    with the identifiers [tx], [txx], [txxx], ... on every line but
    lines 100 and 200, which are summary lines and are dropped by the
    pre-filter; 202 lines in all, 200 of which reach the decoder.
    [bounded_log] is the same log up to line 199, with one more tool
    use on line 200. *)
Definition tool_use_line (i : nat) : jsstring :=
  js "{'type':'assistant','message':{'content':[{'type':'tool_use','name':'Bash','id':'t"
  ++ repeat 120 i
  ++ js "','input':{'command':'make'}}]}}".

Definition summary_line : jsstring := js "{'type':'summary','summary':'Build fixes'}".

Definition unbounded_log : list jsstring :=
  map tool_use_line (seq 1 99) ++ [summary_line]
  ++ map tool_use_line (seq 100 99) ++ [summary_line]
  ++ map tool_use_line (seq 199 2).

Definition bounded_log : list jsstring :=
  map tool_use_line (seq 1 99) ++ [summary_line]
  ++ map tool_use_line (seq 100 100).

(** A project directory: two logs and a file that is not a log.  The
    directory lists the newer log first. *)
Definition posix_join (dir file : jsstring) : jsstring := dir ++ lit "/" ++ file.

Definition older_log : dir_entry :=
  {| name := lit "b.jsonl"; stat_mtime := Some 1000%Z;
     content := {| lines := [bash_use; tool_result_ok]; fails := false |} |}.

Definition newer_log : dir_entry :=
  {| name := lit "a.jsonl"; stat_mtime := Some 2000%Z;
     content := {| lines := [user_command]; fails := false |} |}.

Definition notes : dir_entry :=
  {| name := lit "notes.txt"; stat_mtime := Some 500%Z;
     content := {| lines := [user_command]; fails := false |} |}.

Definition project : list dir_entry := [newer_log; notes; older_log].

Definition older_stat : file_stat :=
  {| path := posix_join (lit "proj") (lit "b.jsonl"); mtime := 1000%Z;
     reader := content older_log |}.

Definition newer_stat : file_stat :=
  {| path := posix_join (lit "proj") (lit "a.jsonl"); mtime := 2000%Z;
     reader := content newer_log |}.

End Sample.

(* ================================================================== *)
(** ** Project root discovery *)
(* ================================================================== *)

(** What one line tells about the working directory:
    [JSON.parse(line).cwd] when it is truthy; a line that does not
    parse, or parses to null, is skipped by the inner [catch]. *)
Definition line_cwd (line : jsstring) : value :=
  match JSON_parse line with
  | None => None
  | Some entry =>
      match get (Some entry) (lit "cwd") with
      | Val (Some v) => if truthy v then Some v else None
      | _ => None
      end
  end.

(** How the [for await] loop of [extractCwdFromFile] ends: on the
    [return], on the [break], or with the lines used up. *)
Inductive cwd_scan :=
| CwdFound (v : json)
| CwdStopped
| CwdExhausted.

(** The loop, with [lineCount] lines already counted:
    [if (++lineCount > maxLines) break] comes first. *)
Fixpoint scan_cwd (lineCount maxLines : nat) (ls : list jsstring) : cwd_scan :=
  match ls with
  | [] => CwdExhausted
  | line :: rest =>
      if (maxLines <? lineCount + 1)%nat then CwdStopped
      else match line_cwd line with
           | Some v => CwdFound v
           | None => scan_cwd (lineCount + 1) maxLines rest
           end
  end.

(** How a call of [extractCwdFromFile] ends.  [settled] is what its
    promise settles to.  [stray_error] tells that the stream was closed
    before its end although it fails: the loop was left by [return] or
    by [break], [rl.close()] and [fileStream.close()] ran with a read
    in flight, no iterator is left to reject, and the read error
    surfaces after the promise has settled, outside every [try] of the
    program. *)
Record cwd_outcome := {
  settled : res value;
  stray_error : bool
}.

(** [extractCwdFromFile(filePath, maxLines)], on what reading
    [filePath] gives.  A failure of the stream rejects the promise when
    the loop asks for a line that does not come; once the loop has been
    left it is a stray error. *)
Definition extractCwdFromFile (rl : readline) (maxLines : nat) : cwd_outcome :=
  match scan_cwd 0 maxLines (lines rl) with
  | CwdFound v => {| settled := Val (Some v); stray_error := fails rl |}
  | CwdStopped => {| settled := Val None; stray_error := fails rl |}
  | CwdExhausted =>
      {| settled := if fails rl then Throw ReadError else Val None;
         stray_error := false |}
  end.

(** The default of [maxLines]. *)
Definition default_maxLines : nat := 10.

(** What [extractProjectRoot] gives: the value it returns, and whether
    one of the files it looked at left a stray error behind (what the
    host does with such an error, by default ending the process, is
    outside this function). *)
Record root_outcome := {
  root : value;
  stray : bool
}.

(** The outcome [o] of the files that follow, after a file that left
    a stray error behind when [b] holds. *)
Definition and_stray (b : bool) (o : root_outcome) : root_outcome :=
  {| root := root o; stray := b || stray o |}.

(** The loop of [extractProjectRoot] over the [.jsonl] files, in the
    order [readdir] lists them; the inner [catch] passes over a file
    whose promise is rejected. *)
Fixpoint first_cwd (files : list dir_entry) : root_outcome :=
  match files with
  | [] => {| root := None; stray := false |}
  | e :: r =>
      let o := extractCwdFromFile (content e) default_maxLines in
      match settled o with
      | Val (Some v) =>
          if truthy v then {| root := Some v; stray := stray_error o |}
          else and_stray (stray_error o) (first_cwd r)
      | _ => and_stray (stray_error o) (first_cwd r)
      end
  end.

(** [extractProjectRoot(projectPath)], on what [readdir] gives. *)
Definition extractProjectRoot (readdir : option (list dir_entry)) : root_outcome :=
  match readdir with
  | None => {| root := None; stray := false |}
  | Some files =>
      first_cwd (filter (fun e => endsWith (name e) (lit ".jsonl")) files)
  end.

(** The stream fails behind line [maxLines]: a loop that finds nothing
    in the first [maxLines] lines has left by [break] before the
    failure shows. *)
Definition fails_late (rl : readline) (maxLines : nat) : bool :=
  fails rl && (maxLines <? List.length (lines rl))%nat.

(** The first line of [ls] that tells a working directory. *)
Fixpoint first_cwd_line (ls : list jsstring) : value :=
  match ls with
  | [] => None
  | line :: rest =>
      match line_cwd line with
      | Some v => Some v
      | None => first_cwd_line rest
      end
  end.

(** Every code unit of [s] is white space. *)
Definition blank (s : jsstring) : Prop := Forall (fun c => is_white c = true) s.

(** [block] is what [findBashToolBlock] looks for. *)
Definition is_bash_block (block : json) : Prop :=
  prop block (lit "type") = Some (JStr (lit "tool_use"))
  /\ prop block (lit "name") = Some (JStr (lit "Bash")).

(** [block] is what [extractToolResult] looks for. *)
Definition is_result_block (block : json) : Prop :=
  prop block (lit "type") = Some (JStr (lit "tool_result"))
  /\ truthy_val (prop block (lit "tool_use_id")) = true.

(** The text of a command is on one line, with no white space around. *)
Definition one_line (c : ClaudeCommand) : Prop :=
  ~ In LF (command c) /\ trim (command c) = command c.

(** The callbacks of the two [find] calls. *)
Definition bash_test (block : json) : res bool :=
  res_bind (get (Some block) (lit "type")) (fun ty =>
  if is_string ty (lit "tool_use")
  then res_bind (get (Some block) (lit "name")) (fun nm =>
       Val (is_string nm (lit "Bash")))
  else Val false).

Definition result_test (block : json) : res bool :=
  res_bind (get (Some block) (lit "type")) (fun bty =>
  if is_string bty (lit "tool_result")
  then res_bind (get (Some block) (lit "tool_use_id")) (fun id =>
       Val (truthy_val id))
  else Val false).

(** An event is a command that satisfies [P], or a diagnostic. *)
Definition yields_only (P : ClaudeCommand -> Prop) (e : event) : Prop :=
  match e with
  | Yield c => P c
  | ConsoleError _ => True
  end.

(** The commands held in the pending table all satisfy [P]. *)
Definition table_of (P : ClaudeCommand -> Prop) (p : pending) : Prop :=
  Forall (fun kc => P (snd kc)) p.

(** The test of the [filter] calls on what [readdir] lists. *)
Definition is_log (e : dir_entry) : bool := endsWith (name e) (lit ".jsonl").

(** The error type that the [catch] of [processEntry] prints for a
    line: [JSON.parse] throws a [SyntaxError], and nothing else does. *)
Definition error_type_of (line : jsstring) : error_type :=
  match JSON_parse line with
  | Some _ => parsing
  | None => JSON_syntax
  end.

(* ================================================================== *)
(** ** More sample data *)
(* ================================================================== *)

Module Fixture.

(** The entry a sample line decodes to. *)
Definition decoded (line : jsstring) : json :=
  match JSON_parse line with
  | Some entry => entry
  | None => JNull
  end.

(** A second Bash tool use under the identifier of [Sample.bash_use]. *)
Definition bash_use_again : jsstring :=
  js "{'type':'assistant','message':{'content':[{'type':'tool_use','name':'Bash','id':'t1','input':{'command':'pwd'}}]}}".




Definition failed_result : tool_result :=
  {| tool_use_id := JStr (lit "t1"); is_error := JBool true |}.

Definition ok_result : tool_result :=
  {| tool_use_id := JStr (lit "t1"); is_error := JBool false |}.

(** A table with [Sample.ls_command] pending under [t1], and the empty
    table. *)
Definition one_pending : pending := [(JStr (lit "t1"), Sample.ls_command)].

Definition emptied : pending := [].

(** A hundred Bash tool uses, each under an identifier of its own. *)
Definition hundred_uses : list jsstring := map Sample.tool_use_line (seq 1 100).

(** The content of a user entry. *)
Definition tagged_text : jsstring :=
  lit "ran <bash-input> git status </bash-input> and <bash-input>ls</bash-input>".

(** A line of blanks and tabs. *)
Definition blank_line : jsstring := [32; 9; 32].

(** Entries that tell the working directory, and one that does not. *)
Definition rooted_line : jsstring :=
  js "{'type':'user','cwd':'/home/u/app','message':{'content':'hello'}}".

Definition rootless_line : jsstring :=
  js "{'type':'summary','summary':'Build fixes','cwd':''}".

(** A directory with a file that is not a log, a log whose stream
    fails before any line, and a log that tells the working directory
    on its third line. *)
Definition readme : dir_entry :=
  {| name := lit "README.md"; stat_mtime := Some 100%Z;
     content := {| lines := [rooted_line]; fails := false |} |}.

Definition broken_log : dir_entry :=
  {| name := lit "a.jsonl"; stat_mtime := Some 300%Z;
     content := {| lines := []; fails := true |} |}.

Definition rooted_log : dir_entry :=
  {| name := lit "b.jsonl"; stat_mtime := Some 200%Z;
     content := {| lines := [Sample.malformed; rootless_line; rooted_line];
                   fails := false |} |}.

(** A log whose stream fails after two lines that tell nothing, and a
    log that is read to its end and tells nothing. *)
Definition truncated_log : dir_entry :=
  {| name := lit "t.jsonl"; stat_mtime := Some 250%Z;
     content := {| lines := [Sample.summary_line; rootless_line];
                   fails := true |} |}.

Definition rootless_log : dir_entry :=
  {| name := lit "z.jsonl"; stat_mtime := Some 400%Z;
     content := {| lines := [Sample.summary_line; Sample.bash_use];
                   fails := false |} |}.

Definition rooted_project : list dir_entry :=
  [readme; broken_log; truncated_log; rooted_log; rootless_log].

Definition rootless_project : list dir_entry :=
  [readme; broken_log; truncated_log; rootless_log].

(** A log that vanished between [readdir] and [stat]. *)
Definition vanished_log : dir_entry :=
  {| name := lit "c.jsonl"; stat_mtime := None;
     content := {| lines := []; fails := true |} |}.

(** A file whose stream fails after its first line. *)
Definition truncated_stat : file_stat :=
  {| path := Sample.posix_join (lit "proj") (lit "t.jsonl"); mtime := 900%Z;
     reader := {| lines := [Sample.bash_use]; fails := true |} |}.

End Fixture.

(* ================================================================== *)
(** * Properties *)
(* ================================================================== *)

(* ================================================================== *)
(** ** Facts about strings *)
(* ================================================================== *)

Lemma eqb_spec (s t : jsstring) : JsString.eqb s t = true <-> s = t.
Proof.
  revert t; induction s as [|a s IH]; intros [|b t]; simpl;
    try (split; [discriminate|discriminate]); try tauto.
  rewrite andb_true_iff, N.eqb_eq, IH. split.
  - intros [-> ->]; reflexivity.
  - intros H; injection H; auto.
Qed.

Lemma eqb_refl (s : jsstring) : JsString.eqb s s = true.
Proof. apply eqb_spec; reflexivity. Qed.

Lemma trimStart_length (s : jsstring) :
  (List.length (trimStart s) <= List.length s)%nat.
Proof.
  induction s as [|c r IH]; simpl; [lia|].
  destruct (is_white c); simpl; lia.
Qed.

Lemma trimStart_fixed_head (c : char) (r : jsstring) :
  trimStart (c :: r) = c :: r -> is_white c = false.
Proof.
  simpl. destruct (is_white c); [|reflexivity].
  intros H. pose proof (trimStart_length r) as L.
  rewrite H in L. simpl in L. lia.
Qed.

Lemma trimStart_app (s t : jsstring) :
  s <> [] -> trimStart s = s -> trimStart (s ++ t) = s ++ t.
Proof.
  destruct s as [|c r]; [congruence|].
  intros _ H. apply trimStart_fixed_head in H.
  simpl. rewrite H. reflexivity.
Qed.

Lemma trimEnd_app (s t : jsstring) :
  t <> [] -> trimEnd t = t -> trimEnd (s ++ t) = s ++ t.
Proof.
  intros Hne Ht. induction s as [|a s IH]; simpl; [assumption|].
  rewrite IH. destruct (s ++ t) eqn:E; [|reflexivity].
  apply app_eq_nil in E. tauto.
Qed.

Lemma trimEnd_idem (s : jsstring) : trimEnd (trimEnd s) = trimEnd s.
Proof.
  induction s as [|c r IH]; simpl; [reflexivity|].
  destruct (trimEnd r) as [|d r'] eqn:E.
  - destruct (is_white c) eqn:W; simpl; [reflexivity|].
    rewrite W. reflexivity.
  - simpl. simpl in IH. rewrite IH. reflexivity.
Qed.

Lemma trimStart_idem (s : jsstring) : trimStart (trimStart s) = trimStart s.
Proof.
  induction s as [|c r IH]; simpl; [reflexivity|].
  destruct (is_white c) eqn:W; [assumption|].
  simpl. rewrite W. reflexivity.
Qed.

(** [trimEnd] keeps the head of what it leaves. *)
Lemma trimEnd_head (c : char) (r : jsstring) :
  trimEnd (c :: r) = [] \/ exists r', trimEnd (c :: r) = c :: r'.
Proof.
  simpl. destruct (trimEnd r).
  - destruct (is_white c); [left; reflexivity|right; eexists; reflexivity].
  - right; eexists; reflexivity.
Qed.

Lemma trimStart_trim (s : jsstring) : trimStart (trim s) = trim s.
Proof.
  unfold trim. pose proof (trimStart_idem s) as I.
  destruct (trimStart s) as [|c r] eqn:E; [reflexivity|].
  apply trimStart_fixed_head in I.
  destruct (trimEnd_head c r) as [H|[r' H]]; rewrite H; [reflexivity|].
  simpl. rewrite I. reflexivity.
Qed.

Lemma trimEnd_trim (s : jsstring) : trimEnd (trim s) = trim s.
Proof. unfold trim. apply trimEnd_idem. Qed.

Lemma trimStart_In (c : char) (s : jsstring) : In c (trimStart s) -> In c s.
Proof.
  induction s as [|a r IH]; simpl; [tauto|].
  destruct (is_white a); simpl; tauto.
Qed.

Lemma trimEnd_In (c : char) (s : jsstring) : In c (trimEnd s) -> In c s.
Proof.
  induction s as [|a r IH]; simpl; [tauto|].
  destruct (trimEnd r) as [|d r'].
  - destruct (is_white a); simpl; tauto.
  - intros [H|H]; [left; assumption|right; apply IH; assumption].
Qed.

Lemma trim_In (c : char) (s : jsstring) : In c (trim s) -> In c s.
Proof. unfold trim. intros H. apply trimStart_In, trimEnd_In, H. Qed.

(** No piece of [split('\n')] holds a line feed. *)
Lemma split_lines_no_LF (s x : jsstring) :
  In x (split_lines s) -> ~ In LF x.
Proof.
  revert x; induction s as [|c r IH]; simpl; intros x.
  - intros [<-|[]]. simpl; tauto.
  - destruct (c =? LF) eqn:E.
    + intros [<-|H]; [simpl; tauto|apply IH; assumption].
    + destruct (split_lines r) as [|h t] eqn:S.
      * intros [<-|[]]. simpl. apply N.eqb_neq in E. intuition congruence.
      * intros [<-|H].
        -- simpl. apply N.eqb_neq in E. intros [H|H]; [congruence|].
           apply (IH h); [left; reflexivity|assumption].
        -- apply IH. right; assumption.
Qed.

(** A text without line feed is its own single piece. *)
Lemma split_lines_single (s : jsstring) : ~ In LF s -> split_lines s = [s].
Proof.
  induction s as [|c r IH]; simpl; [reflexivity|].
  intros H. destruct (c =? LF) eqn:E.
  - apply N.eqb_eq in E. exfalso; apply H; left; assumption.
  - rewrite IH; [reflexivity|tauto].
Qed.

Lemma trim_tight (x : jsstring) : tight x -> trim x = x.
Proof. intros (_ & S & E & _). unfold trim. rewrite S. exact E. Qed.

Lemma normalized_pieces_tight (s x : jsstring) :
  In x (filter nonempty (map trim (split_lines s))) -> tight x.
Proof.
  rewrite filter_In, in_map_iff. intros [[y [<- Hy]] Hne].
  repeat split.
  - destruct (trim y); [discriminate|congruence].
  - apply trimStart_trim.
  - apply trimEnd_trim.
  - intros H. apply trim_In in H. exact (split_lines_no_LF _ _ Hy H).
Qed.

Lemma join_tight (parts : list jsstring) :
  parts <> [] -> Forall tight parts -> tight (join escaped_newline parts).
Proof.
  induction parts as [|x rest IH]; [congruence|].
  intros _ H. inversion H as [|? ? Hx Hrest]; subst.
  destruct rest as [|y rest']; [exact Hx|].
  assert (T : tight (join escaped_newline (y :: rest'))) by (apply IH; [discriminate|assumption]).
  destruct Hx as (Xne & XS & XE & XL). destruct T as (Tne & TS & TE & TL).
  change (join escaped_newline (x :: y :: rest'))
    with (x ++ escaped_newline ++ join escaped_newline (y :: rest')).
  repeat split.
  - destruct x; [congruence|discriminate].
  - apply trimStart_app; assumption.
  - rewrite app_assoc. apply trimEnd_app; assumption.
  - rewrite !in_app_iff. intros [H1|[H1|H1]]; [tauto| |tauto].
    unfold escaped_newline, LF in H1. simpl in H1.
    destruct H1 as [H1|[H1|[]]]; discriminate.
Qed.

(* ================================================================== *)
(** ** Normalisation *)
(* ================================================================== *)

(** C8.  Normalising a command text twice gives what normalising it
    once gives: [normalizeBashCommand (normalizeBashCommand x) =
    normalizeBashCommand x] for every text [x]. *)
Theorem normalizeBashCommand_idempotent (x : jsstring) :
  normalizeBashCommand (normalizeBashCommand x) = normalizeBashCommand x.
Proof.
  unfold normalizeBashCommand at 2 3.
  pose proof (normalized_pieces_tight x) as P.
  destruct (filter nonempty (map trim (split_lines x))) as [|y l] eqn:E.
  - reflexivity.
  - assert (T : tight (join escaped_newline (y :: l))).
    { apply join_tight; [discriminate|]. apply Forall_forall. exact P. }
    unfold normalizeBashCommand.
    rewrite split_lines_single by apply T.
    cbn [map]. rewrite (trim_tight T).
    destruct T as [T _].
    destruct (join escaped_newline (y :: l)); [congruence|reflexivity].
Qed.

(* ================================================================== *)
(** ** Facts about the pending table *)
(* ================================================================== *)

Lemma number_eqb_eq (x y : number) : number_eqb x y = true -> x = y.
Proof.
  destruct x as [|s n k|s], y as [|s' n' k'|s']; simpl; try discriminate; auto.
  - rewrite !andb_true_iff. intros [[A B] C].
    apply Bool.eqb_prop in A. apply N.eqb_eq in B. apply Z.eqb_eq in C.
    congruence.
  - intros A. apply Bool.eqb_prop in A. congruence.
Qed.

(** Keys that [SameValueZero] identifies are the same value. *)
Lemma same_value_zero_eq (a b : json) : same_value_zero a b = true -> a = b.
Proof.
  destruct a, b; simpl; try discriminate; auto.
  - intros H. apply Bool.eqb_prop in H. congruence.
  - intros H. apply number_eqb_eq in H. congruence.
  - intros H. apply eqb_spec in H. congruence.
Qed.

Lemma same_value_zero_false_sym (a b : json) :
  same_value_zero a b = false -> same_value_zero b a = false.
Proof.
  intros H. destruct (same_value_zero b a) eqn:E; [|reflexivity].
  pose proof (same_value_zero_eq _ _ E). subst. congruence.
Qed.

Section PendingFacts.
Variable V : Type.
Implicit Types (m : jsmap V) (k : json) (v : V).

Lemma map_get_set_same m k k' v :
  same_value_zero k k' = true -> map_get (map_set k v m) k' = Some v.
Proof.
  intros H. pose proof (same_value_zero_eq _ _ H) as <-.
  induction m as [|[k0 v0] r IH]; simpl.
  - rewrite H. reflexivity.
  - destruct (same_value_zero k0 k) eqn:E; simpl; rewrite E; auto.
Qed.

Lemma map_get_set_other m k k' v :
  same_value_zero k k' = false -> map_get (map_set k v m) k' = map_get m k'.
Proof.
  intros H. induction m as [|[k0 v0] r IH]; simpl.
  - rewrite H. reflexivity.
  - destruct (same_value_zero k0 k) eqn:E; simpl.
    + apply same_value_zero_eq in E. subst k0. rewrite H. reflexivity.
    + rewrite IH. reflexivity.
Qed.

Lemma map_get_delete_other m k k' :
  same_value_zero k k' = false -> map_get (map_delete k m) k' = map_get m k'.
Proof.
  intros H. induction m as [|[k0 v0] r IH]; simpl; [reflexivity|].
  destruct (same_value_zero k0 k) eqn:E; simpl.
  - apply same_value_zero_eq in E. subst k0. rewrite H. reflexivity.
  - rewrite IH. reflexivity.
Qed.

Lemma map_get_delete_none m k k' :
  map_get m k' = None -> map_get (map_delete k m) k' = None.
Proof.
  induction m as [|[k0 v0] r IH]; simpl; [reflexivity|].
  destruct (same_value_zero k0 k') eqn:E; [discriminate|].
  intros H. destruct (same_value_zero k0 k); simpl; [assumption|].
  rewrite E. auto.
Qed.

End PendingFacts.

Lemma map_get_delete_same (p : pending) (k : json) :
  unique_keys p -> map_get (map_delete k p) k = None.
Proof.
  induction p as [|[k0 v0] r IH]; simpl; [reflexivity|].
  intros [U1 U2]. destruct (same_value_zero k0 k) eqn:E; simpl.
  - apply same_value_zero_eq in E. subst k0. assumption.
  - rewrite E. auto.
Qed.

Lemma unique_keys_set (p : pending) (k : json) (c : ClaudeCommand) :
  unique_keys p -> unique_keys (map_set k c p).
Proof.
  induction p as [|[k0 v0] r IH]; simpl; [tauto|].
  intros [U1 U2]. destruct (same_value_zero k0 k) eqn:E; simpl.
  - tauto.
  - split; [|auto].
    rewrite map_get_set_other; [assumption|].
    apply same_value_zero_false_sym; assumption.
Qed.

Lemma unique_keys_delete (p : pending) (k : json) :
  unique_keys p -> unique_keys (map_delete k p).
Proof.
  induction p as [|[k0 v0] r IH]; simpl; [tauto|].
  intros [U1 U2]. destruct (same_value_zero k0 k); simpl; [assumption|].
  split; [apply map_get_delete_none; assumption|auto].
Qed.

(* ================================================================== *)
(** ** Facts about the extractors *)
(* ================================================================== *)

Lemma get_entry (entry : json) (k : jsstring) :
  entry <> JNull -> get (Some entry) k = Val (prop entry k).
Proof. destruct entry; simpl; congruence. Qed.

Lemma assistant_not_user (v : value) :
  is_string v (lit "assistant") = true -> is_string v (lit "user") = false.
Proof.
  destruct v as [[| | |s| |]|]; simpl; try discriminate.
  intros H. apply eqb_spec in H. subst s. reflexivity.
Qed.

(** An entry that gives a Bash command is of type [assistant]. *)
Lemma extractBashCommand_kind (entry : json) (cmd : ClaudeCommand) :
  extractBashCommand entry = Val (Some cmd) ->
  entry <> JNull /\ is_string (prop entry (lit "type")) (lit "assistant") = true.
Proof.
  intros H.
  assert (N : entry <> JNull) by (intros ->; discriminate H).
  split; [assumption|].
  unfold extractBashCommand in H. rewrite get_entry in H by assumption.
  cbn [res_bind] in H.
  destruct (is_string (prop entry (lit "type")) (lit "assistant"));
    [reflexivity|discriminate H].
Qed.

(** An entry that gives a tool result is of type [user] and its content
    is not a string. *)
Lemma extractToolResult_kind (entry : json) (r : tool_result) :
  extractToolResult entry = Val (Some r) ->
  entry <> JNull /\ is_string (prop entry (lit "type")) (lit "user") = true
  /\ typeof_string (message_content entry) = false.
Proof.
  intros H.
  assert (N : entry <> JNull) by (intros ->; discriminate H).
  split; [assumption|].
  unfold extractToolResult in H. rewrite get_entry in H by assumption.
  cbn [res_bind] in H.
  destruct (is_string (prop entry (lit "type")) (lit "user")); [|discriminate H].
  split; [reflexivity|].
  destruct (truthy_val (message_content entry)); [|discriminate H].
  cbn [negb orb] in H.
  destruct (typeof_string (message_content entry)); [discriminate H|reflexivity].
Qed.

(** An entry that gives a user command is of type [user] and its
    content is a string. *)
Lemma extractUserCommand_kind (entry : json) (c : ClaudeCommand) :
  extractUserCommand entry = Val (Some c) ->
  entry <> JNull /\ is_string (prop entry (lit "type")) (lit "user") = true
  /\ typeof_string (message_content entry) = true.
Proof.
  intros H.
  assert (N : entry <> JNull) by (intros ->; discriminate H).
  split; [assumption|].
  unfold extractUserCommand in H. rewrite get_entry in H by assumption.
  cbn [res_bind] in H.
  destruct (is_string (prop entry (lit "type")) (lit "user")); [|discriminate H].
  split; [reflexivity|].
  destruct (truthy_val (message_content entry)); [|discriminate H].
  cbn [negb orb] in H.
  destruct (message_content entry) as [[| | |s| |]|];
    try discriminate H; reflexivity.
Qed.

Lemma not_user_no_tool_result (entry : json) :
  entry <> JNull -> is_string (prop entry (lit "type")) (lit "user") = false ->
  extractToolResult entry = Val None.
Proof.
  intros N H. unfold extractToolResult. rewrite get_entry by assumption.
  cbn [res_bind]. rewrite H. reflexivity.
Qed.

Lemma not_user_no_user_command (entry : json) :
  entry <> JNull -> is_string (prop entry (lit "type")) (lit "user") = false ->
  extractUserCommand entry = Val None.
Proof.
  intros N H. unfold extractUserCommand. rewrite get_entry by assumption.
  cbn [res_bind]. rewrite H. reflexivity.
Qed.

Lemma user_no_bash_command (entry : json) :
  entry <> JNull -> is_string (prop entry (lit "type")) (lit "user") = true ->
  extractBashCommand entry = Val None.
Proof.
  intros N H. unfold extractBashCommand. rewrite get_entry by assumption.
  cbn [res_bind].
  destruct (is_string (prop entry (lit "type")) (lit "assistant")) eqn:E; [|reflexivity].
  apply assistant_not_user in E. congruence.
Qed.

Lemma string_content_no_tool_result (entry : json) :
  entry <> JNull -> typeof_string (message_content entry) = true ->
  extractToolResult entry = Val None.
Proof.
  intros N H. unfold extractToolResult. rewrite get_entry by assumption.
  cbn [res_bind]. rewrite H.
  destruct (negb _ || negb _); reflexivity.
Qed.

Lemma array_content_no_user_command (entry : json) :
  entry <> JNull -> typeof_string (message_content entry) = false ->
  extractUserCommand entry = Val None.
Proof.
  intros N H. unfold extractUserCommand. rewrite get_entry by assumption.
  cbn [res_bind].
  destruct (negb _ || negb _); [reflexivity|].
  destruct (message_content entry) as [[| | |s| |]|]; try reflexivity.
  discriminate.
Qed.

(** A command just built carries the source it was built for and no
    [success]. *)
Lemma createClaudeCommand_fresh (block entry : json) (src : command_source)
  (c : ClaudeCommand) :
  createClaudeCommand block entry src = Some c ->
  source c = src /\ success c = None.
Proof.
  unfold createClaudeCommand.
  destruct (get (Some block) (lit "input")) as [input|e]; cbn [res_bind]; [|discriminate].
  destruct (negb (truthy_val (get_opt input (lit "command")))); [discriminate|].
  destruct (entry_timestamp entry) as [ts|e]; cbn [res_bind]; [|discriminate].
  destruct (get_opt input (lit "command")) as [[| | |s| |]|];
    cbn [res_bind]; try discriminate.
  intros H. injection H as <-. split; reflexivity.
Qed.

Lemma extractBashCommand_awaiting (entry : json) (cmd : ClaudeCommand) :
  extractBashCommand entry = Val (Some cmd) -> awaiting cmd.
Proof.
  unfold extractBashCommand.
  destruct (get (Some entry) (lit "type")) as [ty|e]; cbn [res_bind]; [|discriminate].
  destruct (negb _ || negb _); [discriminate|].
  destruct (findBashToolBlock (message_content entry)) as [[block|]|e];
    cbn [res_bind]; try discriminate.
  destruct (truthy block); [|discriminate].
  intros H. injection H as H. apply createClaudeCommand_fresh in H.
  exact H.
Qed.

Lemma extractUserCommand_source (entry : json) (cmd : ClaudeCommand) :
  extractUserCommand entry = Val (Some cmd) -> source cmd = user.
Proof.
  unfold extractUserCommand.
  destruct (get (Some entry) (lit "type")) as [ty|e]; cbn [res_bind]; [|discriminate].
  destruct (negb _ || negb _); [discriminate|].
  destruct (message_content entry) as [[| | |s| |]|]; try discriminate.
  destruct (findUserCommand s) as [c|]; [|discriminate].
  destruct (nonempty c); [|discriminate].
  intros H. injection H as H. apply createClaudeCommand_fresh in H.
  tauto.
Qed.

(* ================================================================== *)
(** ** One entry *)
(* ================================================================== *)

Section OneEntry.
Variables (line : jsstring) (lineNumber : N) (filePath : jsstring).

Ltac run_entry :=
  unfold processEntry, try_catch, bind, lift, parse_line, yield,
    update_pending, get_pending, console_error, ret.

Lemma processEntry_syntax_error (p : pending) :
  JSON_parse line = None ->
  processEntry line lineNumber filePath p
  = (Val tt, p, [ConsoleError (ErrorParsingLine lineNumber filePath JSON_syntax)]).
Proof. intros H. run_entry. rewrite H. reflexivity. Qed.

Lemma processEntry_store (p : pending) entry cmd id :
  JSON_parse line = Some entry ->
  extractBashCommand entry = Val (Some cmd) ->
  extractToolUseId entry = Val (Some id) ->
  processEntry line lineNumber filePath p = (Val tt, map_set id cmd p, []).
Proof.
  intros HP HB HI.
  destruct (extractBashCommand_kind _ HB) as [N A].
  pose proof (assistant_not_user _ A) as U.
  run_entry. rewrite HP, HB, HI.
  rewrite (not_user_no_tool_result N U), (not_user_no_user_command N U).
  reflexivity.
Qed.

Lemma processEntry_immediate (p : pending) entry cmd :
  JSON_parse line = Some entry ->
  extractBashCommand entry = Val (Some cmd) ->
  extractToolUseId entry = Val None ->
  processEntry line lineNumber filePath p
  = (Val tt, p, [Yield (set_success cmd true)]).
Proof.
  intros HP HB HI.
  destruct (extractBashCommand_kind _ HB) as [N A].
  pose proof (assistant_not_user _ A) as U.
  run_entry. rewrite HP, HB, HI.
  rewrite (not_user_no_tool_result N U), (not_user_no_user_command N U).
  reflexivity.
Qed.

Lemma processEntry_result (p : pending) entry r :
  JSON_parse line = Some entry ->
  extractToolResult entry = Val (Some r) ->
  processEntry line lineNumber filePath p
  = match map_get p (tool_use_id r) with
    | Some cmd =>
        (Val tt, map_delete (tool_use_id r) p,
         [Yield (set_success cmd (negb (truthy (is_error r))))])
    | None => (Val tt, p, [])
    end.
Proof.
  intros HP HR.
  destruct (extractToolResult_kind _ HR) as (N & U & C).
  run_entry. rewrite HP, (user_no_bash_command N U), HR.
  rewrite (array_content_no_user_command N C).
  destruct (map_get p (tool_use_id r)); reflexivity.
Qed.

Lemma processEntry_user (p : pending) entry cmd :
  JSON_parse line = Some entry ->
  extractUserCommand entry = Val (Some cmd) ->
  processEntry line lineNumber filePath p
  = (Val tt, p, [Yield (set_success cmd true)]).
Proof.
  intros HP HU.
  destruct (extractUserCommand_kind _ HU) as (N & U & C).
  run_entry. rewrite HP, (user_no_bash_command N U).
  rewrite (string_content_no_tool_result N C), HU.
  reflexivity.
Qed.

(** [processEntry] never throws, and what it does is one of the steps
    of [entry_step]. *)
Lemma processEntry_step (p : pending) :
  exists p' t,
    processEntry line lineNumber filePath p = (Val tt, p', t)
    /\ entry_step line lineNumber filePath p p' t.
Proof.
  destruct (JSON_parse line) as [entry|] eqn:HP.
  2:{ eexists _, _. split; [apply processEntry_syntax_error; assumption|constructor]. }
  destruct (extractBashCommand entry) as [[cmd|]|e] eqn:HB.
  - destruct (extractToolUseId entry) as [[id|]|e] eqn:HI.
    + eexists _, _. split; [eapply processEntry_store; eassumption|].
      eapply step_store; eassumption.
    + eexists _, _. split; [eapply processEntry_immediate; eassumption|].
      eapply step_immediate; eassumption.
    + eexists _, _. split; [|apply step_caught].
      run_entry. rewrite HP, HB, HI. reflexivity.
  - destruct (extractToolResult entry) as [[r|]|e] eqn:HR.
    + rewrite (processEntry_result p HP HR).
      destruct (map_get p (tool_use_id r)) eqn:G; eexists _, _; (split; [reflexivity|]).
      * eapply step_resolve; eassumption.
      * eapply step_dropped; eassumption.
    + destruct (extractUserCommand entry) as [[c|]|e] eqn:HU.
      * eexists _, _. split; [eapply processEntry_user; eassumption|].
        eapply step_user; eassumption.
      * eexists _, _. split; [|eapply step_nothing; eassumption].
        run_entry. rewrite HP, HB, HR, HU. reflexivity.
      * eexists _, _. split; [|apply step_caught].
        run_entry. rewrite HP, HB, HR, HU. reflexivity.
    + eexists _, _. split; [|apply step_caught].
      run_entry. rewrite HP, HB, HR. reflexivity.
  - eexists _, _. split; [|apply step_caught].
    run_entry. rewrite HP, HB. reflexivity.
Qed.

End OneEntry.

(* ================================================================== *)
(** ** Flushing *)
(* ================================================================== *)

Lemma yield_each_run (cs : list ClaudeCommand) (p : pending) :
  yield_each cs p = (Val tt, p, map Yield cs).
Proof.
  induction cs as [|c r IH]; [reflexivity|].
  simpl. unfold bind, yield. rewrite IH. reflexivity.
Qed.

Lemma flushPendingCommands_run (p : pending) :
  flushPendingCommands p = (Val tt, [], flush_trace p).
Proof.
  unfold flushPendingCommands, bind, get_pending, update_pending.
  rewrite yield_each_run. unfold flush_trace, map_values.
  rewrite !map_map, app_nil_r. reflexivity.
Qed.

Lemma cleanupOldPendingCommands_run (p : pending) :
  cleanupOldPendingCommands p
  = if maxPendingEntries <? map_size p
    then (Val tt, [], flush_trace p)
    else (Val tt, p, []).
Proof.
  unfold cleanupOldPendingCommands, bind, get_pending.
  destruct (maxPendingEntries <? map_size p).
  - rewrite flushPendingCommands_run. reflexivity.
  - reflexivity.
Qed.

(** Whenever the cleanup runs, at most [maxPendingEntries] commands
    stay pending. *)
Lemma cleanupOldPendingCommands_bound (p : pending) :
  map_size (snd (fst (cleanupOldPendingCommands p))) <= maxPendingEntries.
Proof.
  rewrite cleanupOldPendingCommands_run.
  destruct (maxPendingEntries <? map_size p) eqn:E; simpl.
  - unfold map_size, maxPendingEntries. simpl. lia.
  - apply N.ltb_ge in E. exact E.
Qed.

(* ================================================================== *)
(** ** One line, many lines *)
(* ================================================================== *)

Section Lines.
Variable filePath : jsstring.

Lemma processLine_skip line n e (p : pending) :
  reaches_decoder line = false ->
  processLine line n e filePath p = (Val tt, p, []).
Proof.
  unfold reaches_decoder, processLine. intros H.
  destruct (nonempty (trim line)); [|reflexivity].
  simpl in H. rewrite H. reflexivity.
Qed.

Lemma processLine_reach line n e (p : pending) :
  reaches_decoder line = true ->
  processLine line n e filePath p
  = bind (processEntry line n filePath)
      (fun _ => if e mod maxPendingEntries =? 0
                then cleanupOldPendingCommands else ret tt) p.
Proof.
  unfold reaches_decoder, processLine. intros H.
  apply andb_true_iff in H. destruct H as [-> ->]. reflexivity.
Qed.


(** What one line does: nothing, or one entry step followed, on a line
    whose count is a multiple of [maxPendingEntries], by the cleanup. *)
Lemma processLine_cases line n e (p : pending) :
  exists p' t,
    processLine line n e filePath p = (Val tt, p', t)
    /\ ((p' = p /\ t = [])
        \/ exists p1 t1,
             entry_step line n filePath p p1 t1
             /\ ((p' = p1 /\ t = t1)
                 \/ (e mod maxPendingEntries = 0 /\ p' = [] /\ t = t1 ++ flush_trace p1))).
Proof.
  destruct (reaches_decoder line) eqn:R.
  2:{ exists p, []. split; [apply processLine_skip; assumption|left; auto]. }
  rewrite processLine_reach by assumption. unfold bind.
  destruct (processEntry_step line n filePath p) as (p1 & t1 & -> & S).
  destruct (e mod maxPendingEntries =? 0) eqn:E.
  - rewrite cleanupOldPendingCommands_run.
    destruct (maxPendingEntries <? map_size p1).
    + eexists _, _. split; [reflexivity|]. right. exists p1, t1.
      split; [assumption|]. right. apply N.eqb_eq in E. auto.
    + eexists _, _. split; [reflexivity|]. right. exists p1, t1.
      split; [assumption|]. left. rewrite app_nil_r. auto.
  - eexists _, _. split; [reflexivity|]. right. exists p1, t1.
    split; [assumption|]. left. unfold ret. rewrite app_nil_r. auto.
Qed.

(** The line loop never throws. *)
Lemma processLines_from_total ls n e (p : pending) :
  exists p' t, processLines_from n e ls filePath p = (Val tt, p', t).
Proof.
  revert n e p; induction ls as [|line rest IH]; intros n e p.
  - exists p, []. reflexivity.
  - simpl. unfold bind.
    destruct (processLine_cases line (n + 1) (e + 1) p) as (p1 & t1 & -> & _).
    destruct (IH (n + 1) (e + 1) p1) as (p2 & t2 & ->).
    eexists _, _. reflexivity.
Qed.

Lemma processLines_from_cons line rest n e (p p1 p2 : pending) t1 t2 :
  processLine line (n + 1) (e + 1) filePath p = (Val tt, p1, t1) ->
  processLines_from (n + 1) (e + 1) rest filePath p1 = (Val tt, p2, t2) ->
  processLines_from n e (line :: rest) filePath p = (Val tt, p2, t1 ++ t2).
Proof. intros H1 H2. simpl. unfold bind. rewrite H1, H2. reflexivity. Qed.

Lemma processLines_from_app l1 l2 n e (p p1 p2 : pending) t1 t2 :
  processLines_from n e l1 filePath p = (Val tt, p1, t1) ->
  processLines_from (n + N.of_nat (List.length l1)) (e + N.of_nat (List.length l1))
    l2 filePath p1 = (Val tt, p2, t2) ->
  processLines_from n e (l1 ++ l2) filePath p = (Val tt, p2, t1 ++ t2).
Proof.
  revert n e p t1; induction l1 as [|line rest IH]; intros n e p t1 H1 H2.
  - simpl in *. unfold ret in H1. injection H1 as <- <-.
    rewrite !N.add_0_r in H2. exact H2.
  - simpl in H1. unfold bind in H1.
    destruct (processLine_cases line (n + 1) (e + 1) p) as (q & u & E & _).
    rewrite E in H1.
    destruct (processLines_from_total rest (n + 1) (e + 1) q) as (q' & u' & E').
    rewrite E' in H1. injection H1 as <- <-.
    rewrite <- app_comm_cons. rewrite <- app_assoc.
    eapply processLines_from_cons; [eassumption|].
    eapply IH; [eassumption|].
    replace (n + 1 + N.of_nat (List.length rest))
      with (n + N.of_nat (List.length (line :: rest))) by (simpl List.length; lia).
    replace (e + 1 + N.of_nat (List.length rest))
      with (e + N.of_nat (List.length (line :: rest))) by (simpl List.length; lia).
    exact H2.
Qed.

(** Lines that do not reach the decoder leave everything as it is. *)
Lemma processLines_from_skipped ls n e (p : pending) :
  Forall (fun l => reaches_decoder l = false) ls ->
  processLines_from n e ls filePath p = (Val tt, p, []).
Proof.
  revert n e; induction ls as [|line rest IH]; intros n e H; [reflexivity|].
  inversion H; subst.
  simpl. unfold bind.
  rewrite processLine_skip by assumption.
  rewrite IH by assumption. reflexivity.
Qed.

End Lines.

(* ================================================================== *)
(** ** Invariants of the stream *)
(* ================================================================== *)

Lemma all_awaiting_set (p : pending) k c :
  awaiting c -> all_awaiting p -> all_awaiting (map_set k c p).
Proof.
  intros A. unfold all_awaiting.
  induction p as [|[k0 v0] r IH]; simpl; intros H.
  - constructor; [assumption|constructor].
  - inversion H; subst.
    destruct (same_value_zero k0 k); constructor; auto.
Qed.

Lemma all_awaiting_delete (p : pending) k :
  all_awaiting p -> all_awaiting (map_delete k p).
Proof.
  unfold all_awaiting.
  induction p as [|[k0 v0] r IH]; simpl; intros H; [constructor|].
  inversion H; subst.
  destruct (same_value_zero k0 k); [assumption|constructor; auto].
Qed.

Lemma all_awaiting_get (p : pending) k c :
  all_awaiting p -> map_get p k = Some c -> awaiting c.
Proof.
  unfold all_awaiting.
  induction p as [|[k0 v0] r IH]; simpl; intros H; [discriminate|].
  inversion H; subst.
  destruct (same_value_zero k0 k); [|auto].
  intros E. injection E as <-. assumption.
Qed.

Lemma resolved_after_set_success (c : ClaudeCommand) (b : bool) :
  (source c = user -> b = true) -> resolved_event (Yield (set_success c b)).
Proof.
  intros H. simpl. split; [discriminate|].
  intros U. rewrite (H U). reflexivity.
Qed.

Lemma flush_trace_resolved (p : pending) : Forall resolved_event (flush_trace p).
Proof.
  unfold flush_trace. apply Forall_forall. intros e H.
  apply in_map_iff in H. destruct H as [kc [<- _]].
  apply resolved_after_set_success. reflexivity.
Qed.

Lemma entry_step_invariant line n f (p p' : pending) t :
  entry_step line n f p p' t ->
  (unique_keys p -> unique_keys p')
  /\ (all_awaiting p -> all_awaiting p' /\ Forall resolved_event t).
Proof.
  intros S. destruct S.
  - split; [auto|]. intros A. split; [assumption|].
    constructor; [exact I|constructor].
  - split; [apply unique_keys_set|]. intros A. split; [|constructor].
    apply all_awaiting_set; [|assumption].
    eapply extractBashCommand_awaiting; eassumption.
  - split; [auto|]. intros A. split; [assumption|].
    constructor; [|constructor].
    apply resolved_after_set_success. reflexivity.
  - split; [apply unique_keys_delete|]. intros A.
    split; [apply all_awaiting_delete; assumption|].
    constructor; [|constructor].
    apply resolved_after_set_success. intros U.
    destruct (all_awaiting_get _ A H1) as [B _]. congruence.
  - split; [auto|]. intros A. split; [assumption|constructor].
  - split; [auto|]. intros A. split; [assumption|].
    constructor; [|constructor].
    apply resolved_after_set_success. reflexivity.
  - split; [auto|]. intros A. split; [assumption|constructor].
Qed.

Lemma processLines_from_invariant f ls n e (p p' : pending) t :
  processLines_from n e ls f p = (Val tt, p', t) ->
  (unique_keys p -> unique_keys p')
  /\ (all_awaiting p -> all_awaiting p' /\ Forall resolved_event t).
Proof.
  revert n e p t; induction ls as [|line rest IH]; intros n e p t H.
  - simpl in H. unfold ret in H. injection H as <- <-.
    split; [auto|]. intros A; split; [assumption|constructor].
  - simpl in H. unfold bind in H.
    destruct (processLine_cases f line (n + 1) (e + 1) p) as (p1 & t1 & E & C).
    rewrite E in H.
    destruct (processLines_from_total f rest (n + 1) (e + 1) p1) as (p2 & t2 & E2).
    rewrite E2 in H. injection H as <- <-.
    destruct (IH _ _ _ _ E2) as [U2 A2].
    destruct C as [[-> ->]|(q & u & S & C)].
    + split; [assumption|]. intros A. destruct (A2 A). auto.
    + destruct (entry_step_invariant S) as [U1 A1].
      destruct C as [[-> ->]|(_ & -> & ->)].
      * split; [auto|]. intros A. destruct (A1 A) as [B1 B2].
        destruct (A2 B1). split; [assumption|].
        apply Forall_app; auto.
      * split; [intros _; apply U2; exact I|].
        intros A. destruct (A1 A) as [B1 B2].
        destruct (A2 (Forall_nil _)). split; [assumption|].
        rewrite !Forall_app. repeat split; auto.
        apply flush_trace_resolved.
Qed.

(** What [createFileStream] does, from what the line loop does. *)
Lemma createFileStream_run f (rl : readline) (p p1 : pending) t1 :
  processLines_from 0 0 (lines rl) f p = (Val tt, p1, t1) ->
  createFileStream f rl p
  = if fails rl
    then (Val tt, p1, t1 ++ [ConsoleError (ErrorReadingFile f)])
    else (Val tt, [], t1 ++ flush_trace p1).
Proof.
  intros H. unfold createFileStream, try_catch, processLines, bind.
  rewrite H. destruct (fails rl).
  - unfold throw, console_error. rewrite app_nil_r. reflexivity.
  - unfold ret. rewrite flushPendingCommands_run, !app_nil_r. reflexivity.
Qed.

Lemma createFileStream_total f (rl : readline) (p : pending) :
  exists p' t, createFileStream f rl p = (Val tt, p', t).
Proof.
  destruct (processLines_from_total f (lines rl) 0 0 p) as (p1 & t1 & E).
  rewrite (@createFileStream_run f rl p p1 t1 E).
  destruct (fails rl); eexists _, _; reflexivity.
Qed.

Lemma createFileStream_invariant f (rl : readline) (p p' : pending) t :
  createFileStream f rl p = (Val tt, p', t) ->
  all_awaiting p -> all_awaiting p' /\ Forall resolved_event t.
Proof.
  destruct (processLines_from_total f (lines rl) 0 0 p) as (p1 & t1 & E).
  rewrite (@createFileStream_run f rl p p1 t1 E).
  destruct (@processLines_from_invariant f _ _ _ _ _ _ E) as [_ A1].
  intros H A. destruct (A1 A) as [B1 B2].
  destruct (fails rl); injection H as <- <-.
  - split; [assumption|]. apply Forall_app. split; [assumption|].
    constructor; [exact I|constructor].
  - split; [constructor|]. apply Forall_app. split; [assumption|].
    apply flush_trace_resolved.
Qed.

Lemma resolved_commands (t : list event) (c : ClaudeCommand) :
  Forall resolved_event t -> In c (commands t) ->
  success c <> None /\ (source c = user -> success c = Some true).
Proof.
  induction t as [|[c0|d] r IH]; simpl; intros H; [tauto| |];
    inversion H; subst.
  - intros [<-|I]; [assumption|auto].
  - auto.
Qed.

(** Every command in the stream of a file has its [success] set. *)
Lemma file_stream_success_set f (rl : readline) (c : ClaudeCommand) :
  In c (commands (file_stream f rl)) -> success c <> None.
Proof.
  unfold file_stream. intros I.
  destruct (createFileStream_total f rl []) as (p' & t & E).
  rewrite E in I. simpl in I.
  destruct (createFileStream_invariant _ _ E (Forall_nil _)) as [_ R].
  apply (resolved_commands c R I).
Qed.

(** The pending table of a parser never holds two entries under one
    identifier. *)
Lemma pending_keys_stay_unique f ls (p' : pending) t :
  processLines_from 0 0 ls f [] = (Val tt, p', t) -> unique_keys p'.
Proof.
  intros E. apply (processLines_from_invariant _ _ _ _ _ E). exact I.
Qed.

(** The example of the specification: the Bash tool use [ls -la] and
    its result give one command, normalised, resolved as a success. *)
Example specification_example :
  file_stream Sample.log
    {| lines := [Sample.bash_use; Sample.tool_result_ok]; fails := false |}
  = [Yield {| timestamp := DateNow; command := lit "ls -la"; source := bash;
              description := None; projectPath := None;
              success := Some true |}].
Proof. vm_compute. reflexivity. Qed.

(* ================================================================== *)
(** ** Commands that need no correlation *)
(* ================================================================== *)

(** C6.  When an assistant entry gives a Bash command and no tool-use
    identifier, [processEntry] yields that command at once with
    [success] true and leaves the pending table as it was; in the line
    loop the command is the first event of the line, ahead of whatever
    the following lines bring. *)
Theorem bash_command_without_identifier_is_emitted_at_once
  (line : jsstring) (entry : json) (cmd : ClaudeCommand)
  (lineNumber : N) (filePath : jsstring) (p : pending) :
  JSON_parse line = Some entry ->
  extractBashCommand entry = Val (Some cmd) ->
  extractToolUseId entry = Val None ->
  processEntry line lineNumber filePath p
  = (Val tt, p, [Yield (set_success cmd true)])
  /\ success (set_success cmd true) = Some true
  /\ (reaches_decoder line = true ->
      forall rest, exists p' t,
        processLines_from lineNumber lineNumber (line :: rest) filePath p
        = (Val tt, p', Yield (set_success cmd true) :: t)).
Proof.
  intros HP HB HI.
  pose proof (processEntry_immediate line (lineNumber + 1) filePath p HP HB HI) as E.
  split; [eapply processEntry_immediate; eassumption|].
  split; [reflexivity|].
  intros R rest.
  destruct (processLine_cases filePath line (lineNumber + 1) (lineNumber + 1) p)
    as (p1 & t1 & L & _).
  pose proof L as L'.
  rewrite processLine_reach in L' by assumption.
  unfold bind in L'. rewrite E in L'.
  destruct ((if (lineNumber + 1) mod maxPendingEntries =? 0
             then cleanupOldPendingCommands else ret tt) p) as [[r q] u].
  injection L' as _ _ <-.
  destruct (processLines_from_total filePath rest (lineNumber + 1) (lineNumber + 1) p1)
    as (p2 & t2 & E2).
  exists p2, (u ++ t2).
  change (Yield (set_success cmd true) :: u ++ t2)
    with ((Yield (set_success cmd true) :: u) ++ t2).
  eapply processLines_from_cons; eassumption.
Qed.

Lemma bash_command_without_identifier_witness :
  processEntry Sample.bash_use_no_id 7 Sample.log []
  = (Val tt, [], [Yield (set_success Sample.pwd_command true)]).
Proof.
  refine (proj1 (@bash_command_without_identifier_is_emitted_at_once
    Sample.bash_use_no_id
    (match JSON_parse Sample.bash_use_no_id with Some e => e | None => JNull end)
    Sample.pwd_command 7 Sample.log [] _ _ _)); vm_compute; reflexivity.
Defined.




(* ================================================================== *)
(** ** Commands typed by the user *)
(* ================================================================== *)

Lemma findUserCommand_nil : findUserCommand [] = None.
Proof. reflexivity. Qed.

Lemma extractUserCommand_found (entry : json) (content cmd : jsstring)
  (ts : date) :
  is_string (prop entry (lit "type")) (lit "user") = true ->
  message_content entry = Some (JStr content) ->
  findUserCommand content = Some cmd -> nonempty cmd = true ->
  entry_timestamp entry = Val ts ->
  extractUserCommand entry
  = Val (Some {| timestamp := ts;
                 command := normalizeBashCommand cmd;
                 source := user;
                 description := None;
                 projectPath := prop entry (lit "cwd");
                 success := None |}).
Proof.
  intros U C F Hne T.
  assert (N : entry <> JNull) by (intros ->; discriminate U).
  unfold extractUserCommand. rewrite get_entry by assumption.
  cbn [res_bind]. rewrite U, C.
  destruct content as [|a content']; [discriminate F|].
  cbn [truthy_val truthy nonempty negb orb]. rewrite F.
  destruct cmd as [|b cmd']; [discriminate Hne|].
  cbn [nonempty]. unfold createClaudeCommand.
  cbn [get prop assoc res_bind get_opt truthy_val truthy nonempty negb].
  rewrite eqb_refl. cbn [res_bind get_opt prop assoc].
  rewrite eqb_refl. cbn [truthy_val truthy nonempty negb].
  rewrite T. reflexivity.
Qed.

(** C7 as the specification states it does not hold: a user entry
    whose text holds a [<bash-input>] tag with nothing but spaces
    inside yields no command at all ([findUserCommand] trims the
    capture and [extractUserCommand] returns null on the empty
    string). *)
Lemma user_tag_without_command_counterexample :
  ~ (forall (line : jsstring) (entry : json)
            (content before inner after : jsstring)
            (lineNumber : N) (filePath : jsstring) (p : pending),
       JSON_parse line = Some entry ->
       is_string (prop entry (lit "type")) (lit "user") = true ->
       message_content entry = Some (JStr content) ->
       content = before ++ open_tag ++ inner ++ close_tag ++ after ->
       exists c,
         In c (commands (snd (processEntry line lineNumber filePath p)))
         /\ success c = Some true).
Proof.
  intros H.
  destruct (H Sample.user_blank_command
              (JObj [(lit "type", JStr (lit "user"));
                     (lit "message",
                      JObj [(lit "content",
                             JStr (lit "<bash-input>  </bash-input>"))])])
              (lit "<bash-input>  </bash-input>") [] (lit "  ") []
              1 Sample.log [])
    as [c [I _]]; try (vm_compute; reflexivity).
  vm_compute in I. exact I.
Qed.

(** The same happens when the text between the tags runs over two
    lines: the dot of the pattern stops at a line terminator. *)
Example user_two_line_command_is_dropped :
  processEntry Sample.user_two_line_command 1 Sample.log []
  = (Val tt, [], []).
Proof. vm_compute. reflexivity. Qed.

(** C7, amended.  When the first [<bash-input>...</bash-input>] match of
    a user entry's text has a capture that is not empty once trimmed
    (and the entry's timestamp, if it has one, is a value [new Date]
    accepts), [processEntry] yields exactly one command, the normalised
    capture with source [user] and [success] true, whatever the pending
    table holds and without changing it; and no command of source
    [user] in the stream of a file ever has a [success] other than
    true. *)
Theorem user_command_is_emitted_as_success
  (line : jsstring) (entry : json) (content cmd : jsstring) (ts : date)
  (lineNumber : N) (filePath : jsstring) (p : pending) :
  JSON_parse line = Some entry ->
  is_string (prop entry (lit "type")) (lit "user") = true ->
  message_content entry = Some (JStr content) ->
  findUserCommand content = Some cmd ->
  nonempty cmd = true ->
  entry_timestamp entry = Val ts ->
  (exists c,
      command c = normalizeBashCommand cmd /\ source c = user
      /\ processEntry line lineNumber filePath p
         = (Val tt, p, [Yield (set_success c true)]))
  /\ (forall (rl : readline) (c : ClaudeCommand),
        In c (commands (file_stream filePath rl)) ->
        source c = user -> success c = Some true).
Proof.
  intros HP U C F Hne T. split.
  - pose proof (extractUserCommand_found entry U C F Hne T) as E.
    eexists. split; [|split];
      [| |eapply processEntry_user; eassumption]; reflexivity.
  - intros rl c I S. unfold file_stream in I.
    destruct (createFileStream_total filePath rl []) as (p' & t & E).
    rewrite E in I. simpl in I.
    destruct (createFileStream_invariant _ _ E (Forall_nil _)) as [_ R].
    destruct (resolved_commands c R I) as [_ K]. auto.
Qed.

Lemma user_command_witness :
  exists c,
    command c = normalizeBashCommand (lit "git status") /\ source c = user
    /\ processEntry Sample.user_command 3 Sample.log
         [(JStr (lit "t1"), Sample.ls_command)]
       = (Val tt, [(JStr (lit "t1"), Sample.ls_command)],
          [Yield (set_success c true)]).
Proof.
  refine (proj1 (@user_command_is_emitted_as_success
    Sample.user_command
    (match JSON_parse Sample.user_command with Some e => e | None => JNull end)
    (lit "<bash-input>git status</bash-input>") (lit "git status") DateNow
    3 Sample.log [(JStr (lit "t1"), Sample.ls_command)] _ _ _ _ _ _)).
  all: vm_compute; reflexivity.
Defined.

(* ================================================================== *)
(** ** Correlating a tool use with its result *)
(* ================================================================== *)


Lemma mod_add_in_block (n k : N) :
  n mod maxPendingEntries + k < maxPendingEntries ->
  (n + k) mod maxPendingEntries = n mod maxPendingEntries + k.
Proof.
  unfold maxPendingEntries. intros H.
  rewrite N.Div0.add_mod.
  remember (n mod 100) as a eqn:Ea.
  assert (K : k < 100) by lia.
  rewrite (N.mod_small k 100) by exact K.
  apply N.mod_small. exact H.
Qed.

Lemma mod_succ_in_block (n k : N) :
  n mod maxPendingEntries + k < maxPendingEntries -> 0 < k ->
  (n + k) mod maxPendingEntries <> 0.
Proof.
  intros H K. rewrite mod_add_in_block by assumption.
  remember (n mod maxPendingEntries) as a. lia.
Qed.

Lemma mod_succ_shift (n k : N) :
  n mod maxPendingEntries + (1 + k) < maxPendingEntries ->
  (n + 1) mod maxPendingEntries + k < maxPendingEntries.
Proof.
  intros H. rewrite mod_add_in_block.
  - remember (n mod maxPendingEntries) as a. lia.
  - remember (n mod maxPendingEntries) as a. lia.
Qed.

(** An entry that does not mention [id] leaves [id]'s pending command
    alone. *)
Lemma entry_step_untouched line n f (p p' : pending) t (id : json) :
  mentions id line = false ->
  entry_step line n f p p' t ->
  map_get p' id = map_get p id.
Proof.
  unfold mentions. intros M S. destruct S; try reflexivity.
  - rewrite H, H1 in M. apply orb_false_iff in M. destruct M as [M _].
    apply map_get_set_other. assumption.
  - rewrite H, H0 in M. apply orb_false_iff in M. destruct M as [_ M].
    apply map_get_delete_other. assumption.
Qed.

(** Lines inside one block of [maxPendingEntries] lines that do not
    mention [id] keep [id]'s command pending. *)
Lemma processLines_from_untouched f (mid : list jsstring) (id : json)
  (cmd : ClaudeCommand) :
  forall (n : N) (p : pending),
    Forall (fun l => mentions id l = false) mid ->
    n mod maxPendingEntries + N.of_nat (List.length mid) < maxPendingEntries ->
    map_get p id = Some cmd -> unique_keys p ->
    exists p1 t,
      processLines_from n n mid f p = (Val tt, p1, t)
      /\ map_get p1 id = Some cmd /\ unique_keys p1.
Proof.
  induction mid as [|line rest IH]; intros n p HM HW HG HU.
  - exists p, []. repeat split; assumption.
  - inversion HM as [|? ? M1 M2]; subst.
    assert (HW' : n mod maxPendingEntries + (1 + N.of_nat (List.length rest))
                  < maxPendingEntries)
      by (simpl List.length in HW; lia).
    assert (NZ : (n + 1) mod maxPendingEntries <> 0)
      by (apply mod_succ_in_block; lia).
    destruct (processLine_cases f line (n + 1) (n + 1) p) as (q & u & E & C).
    assert (map_get q id = Some cmd /\ unique_keys q) as [G1 U1].
    { destruct C as [[-> ->]|(q1 & u1 & S & [[-> ->]|(Z & _)])];
        [tauto| |contradiction].
      split.
      - rewrite (entry_step_untouched _ M1 S). assumption.
      - apply (entry_step_invariant S). assumption. }
    destruct (IH (n + 1) q M2 (mod_succ_shift _ _ HW') G1 U1)
      as (p1 & t & E1 & G & U).
    exists p1, (u ++ t). split; [|tauto].
    eapply processLines_from_cons; eassumption.
Qed.

(** A line whose cleanup does not flush is skipped or does one entry
    step. *)
Lemma processLine_no_flush f line m (p : pending) :
  flushes_after line m f p = false ->
  exists q u,
    processLine line m m f p = (Val tt, q, u)
    /\ ((q = p /\ u = []) \/ entry_step line m f p q u).
Proof.
  unfold flushes_after. intros H.
  destruct (reaches_decoder line) eqn:R.
  2:{ exists p, []. split; [apply processLine_skip; assumption|left; auto]. }
  rewrite processLine_reach by assumption. unfold bind.
  destruct (processEntry_step line m f p) as (p1 & t1 & E & S).
  rewrite E in H. rewrite E. cbn [fst snd andb] in H.
  destruct (m mod maxPendingEntries =? 0).
  - rewrite cleanupOldPendingCommands_run. cbn [andb] in H. rewrite H.
    exists p1, t1. rewrite app_nil_r. split; [reflexivity|right; assumption].
  - exists p1, t1. unfold ret. rewrite app_nil_r.
    split; [reflexivity|right; assumption].
Qed.


(** Lines that stay inside one block of [maxPendingEntries] lines are
    inside the window, whatever the table holds. *)
Lemma within_window_inside_block f (ls : list jsstring) :
  forall (n : N) (p : pending),
    n mod maxPendingEntries + N.of_nat (List.length ls) < maxPendingEntries ->
    within_window n p ls f = true.
Proof.
  induction ls as [|line rest IH]; intros n p H; [reflexivity|].
  cbn [within_window].
  assert (H' : n mod maxPendingEntries + (1 + N.of_nat (List.length rest))
               < maxPendingEntries)
    by (simpl List.length in H; lia).
  assert (NZ : (n + 1) mod maxPendingEntries <> 0)
    by (apply mod_succ_in_block; lia).
  apply N.eqb_neq in NZ.
  unfold flushes_after. rewrite NZ, andb_false_r. cbn [andb negb].
  apply IH. apply mod_succ_shift. exact H'.
Qed.



(* ================================================================== *)
(** ** The end of a file *)
(* ================================================================== *)

Lemma processLines_run f (ls : list jsstring) (p p1 : pending) t1 :
  processLines_from 0 0 ls f p = (Val tt, p1, t1) ->
  processLines {| lines := ls; fails := false |} f p = (Val tt, p1, t1).
Proof.
  intros H. unfold processLines, bind. simpl. rewrite H.
  unfold ret. rewrite app_nil_r. reflexivity.
Qed.

(** A tool-use line that reaches the decoder stores its command; the
    cleanup that may follow finds a table it has no reason to flush as
    long as the table is small. *)
Lemma processLine_store f use n (p : pending) entry cmd id :
  reaches_decoder use = true ->
  JSON_parse use = Some entry ->
  extractBashCommand entry = Val (Some cmd) ->
  extractToolUseId entry = Val (Some id) ->
  map_size (map_set id cmd p) <= maxPendingEntries ->
  processLine use n n f p = (Val tt, map_set id cmd p, []).
Proof.
  intros R HP HB HI S. rewrite processLine_reach by assumption.
  unfold bind. rewrite (processEntry_store use n f p HP HB HI).
  destruct (n mod maxPendingEntries =? 0); [|reflexivity].
  rewrite cleanupOldPendingCommands_run.
  apply N.ltb_ge in S. rewrite S. reflexivity.
Qed.

(** C2.  When the lines of a file are exhausted, [createFileStream]
    yields every command left in the pending table once, in table
    order, each with its [success] set to true and otherwise as it was
    stored, and leaves the table empty.  In particular a file read by a
    new parser in which one line stores a Bash command and no other
    line reaches the decoder yields exactly that command, with
    [success] true. *)
Theorem end_of_file_flushes_pending_commands
  (filePath : jsstring) (ls : list jsstring) (p : pending) :
  (exists p1 t1 flushed,
      processLines {| lines := ls; fails := false |} filePath p = (Val tt, p1, t1)
      /\ createFileStream filePath {| lines := ls; fails := false |} p
         = (Val tt, [], t1 ++ map Yield flushed)
      /\ flushed = map (fun c => set_success c true) (map_values p1)
      /\ List.length flushed = List.length p1
      /\ Forall (fun c => success c = Some true) flushed
      /\ map command flushed = map command (map_values p1))
  /\ (forall (before after : list jsstring) (use : jsstring) (entry : json)
             (cmd : ClaudeCommand) (id : json),
        ls = before ++ use :: after ->
        Forall (fun l => reaches_decoder l = false) before ->
        Forall (fun l => reaches_decoder l = false) after ->
        reaches_decoder use = true ->
        JSON_parse use = Some entry ->
        extractBashCommand entry = Val (Some cmd) ->
        extractToolUseId entry = Val (Some id) ->
        file_stream filePath {| lines := ls; fails := false |}
        = [Yield (set_success cmd true)]
        /\ success (set_success cmd true) = Some true
        /\ command (set_success cmd true) = command cmd).
Proof.
  split.
  - destruct (processLines_from_total filePath ls 0 0 p) as (p1 & t1 & E).
    exists p1, t1, (map (fun c => set_success c true) (map_values p1)).
    split; [apply processLines_run; assumption|].
    split.
    { rewrite (@createFileStream_run filePath {| lines := ls; fails := false |}
                 p p1 t1 E). simpl.
      unfold flush_trace, map_values. rewrite !map_map. reflexivity. }
    split; [reflexivity|].
    split; [unfold map_values; rewrite !length_map; reflexivity|].
    split.
    + apply Forall_forall. intros c I. apply in_map_iff in I.
      destruct I as (c0 & <- & _). reflexivity.
    + rewrite map_map. reflexivity.
  - intros before after use entry cmd id -> HB HA R HP HC HI.
    split; [|split; reflexivity].
    unfold file_stream.
    assert (E : processLines_from 0 0 (before ++ use :: after) filePath []
                = (Val tt, [(id, cmd)], [])).
    { change (@nil event) with (@nil event ++ [] ++ []).
      eapply processLines_from_app.
      - apply processLines_from_skipped. assumption.
      - eapply processLines_from_cons.
        + eapply processLine_store; try eassumption.
          unfold map_size, maxPendingEntries. simpl. lia.
        + apply processLines_from_skipped. assumption. }
    rewrite (@createFileStream_run filePath
               {| lines := before ++ use :: after; fails := false |} [] _ _ E).
    reflexivity.
Qed.

Lemma end_of_file_flush_witness :
  file_stream Sample.log
    {| lines := [[]; Sample.malformed] ++ Sample.bash_use :: [lit "   "];
       fails := false |}
  = [Yield (set_success Sample.ls_command true)]
  /\ success (set_success Sample.ls_command true) = Some true
  /\ command (set_success Sample.ls_command true) = command Sample.ls_command.
Proof.
  refine (proj2 (@end_of_file_flushes_pending_commands Sample.log
    ([[]; Sample.malformed] ++ Sample.bash_use :: [lit "   "]) [])
    [[]; Sample.malformed] [lit "   "] Sample.bash_use
    (match JSON_parse Sample.bash_use with Some e => e | None => JNull end)
    Sample.ls_command (JStr (lit "t1")) eq_refl _ _ _ _ _ _).
  - repeat (apply Forall_cons; [vm_compute; reflexivity|]). apply Forall_nil.
  - repeat (apply Forall_cons; [vm_compute; reflexivity|]). apply Forall_nil.
  - vm_compute; reflexivity.
  - vm_compute; reflexivity.
  - vm_compute; reflexivity.
  - vm_compute; reflexivity.
Defined.

(* ================================================================== *)
(** ** Malformed lines *)
(* ================================================================== *)




(* ================================================================== *)
(** ** The project stream *)
(* ================================================================== *)

Lemma commands_app (t u : list event) : commands (t ++ u) = commands t ++ commands u.
Proof.
  induction t as [|[c|d] r IH]; simpl; [reflexivity| |assumption].
  rewrite IH. reflexivity.
Qed.

Lemma insert_by_mtime_perm (x : file_stat) (l : list file_stat) :
  Permutation (x :: l) (insert_by_mtime x l).
Proof.
  induction l as [|y r IH]; simpl; [reflexivity|].
  destruct (mtime x - mtime y <=? 0)%Z; [reflexivity|].
  rewrite perm_swap. apply perm_skip. assumption.
Qed.

Lemma sort_by_mtime_perm (l : list file_stat) : Permutation l (sort_by_mtime l).
Proof.
  induction l as [|x r IH]; simpl; [reflexivity|].
  rewrite <- insert_by_mtime_perm. apply perm_skip. assumption.
Qed.

Lemma insert_by_mtime_Forall (P : file_stat -> Prop) (x : file_stat)
  (l : list file_stat) :
  P x -> Forall P l -> Forall P (insert_by_mtime x l).
Proof.
  intros Hx H. induction H as [|y r Hy Hr IH]; simpl.
  - constructor; [assumption|constructor].
  - destruct (mtime x - mtime y <=? 0)%Z; repeat constructor; assumption.
Qed.

Lemma insert_by_mtime_sorted (x : file_stat) (l : list file_stat) :
  StronglySorted mtime_le l -> StronglySorted mtime_le (insert_by_mtime x l).
Proof.
  intros H. induction H as [|y r Hs IH Hy]; simpl.
  - constructor; constructor.
  - destruct (mtime x - mtime y <=? 0)%Z eqn:E.
    + apply Z.leb_le in E. constructor.
      * constructor; assumption.
      * constructor; [unfold mtime_le; lia|].
        eapply Forall_impl; [|exact Hy].
        unfold mtime_le. intros z Hz. lia.
    + apply Z.leb_gt in E. constructor; [assumption|].
      apply insert_by_mtime_Forall; [unfold mtime_le; lia|assumption].
Qed.

Lemma sort_by_mtime_sorted (l : list file_stat) :
  StronglySorted mtime_le (sort_by_mtime l).
Proof.
  induction l as [|x r IH]; simpl; [constructor|].
  apply insert_by_mtime_sorted. assumption.
Qed.

(** A file that is read to its end leaves the pending table empty, so
    every file of the project meets a parser that is as good as new. *)
Lemma for_each_file_run (l : list file_stat) :
  Forall (fun f => fails (reader f) = false) l ->
  for_each_file l []
  = (Val tt, [], flat_map (fun f => file_stream (path f) (reader f)) l).
Proof.
  induction 1 as [|f r Hf Hr IH]; [reflexivity|].
  simpl. unfold bind, file_stream.
  destruct (processLines_from_total (path f) (lines (reader f)) 0 0 [])
    as (p1 & t1 & E).
  rewrite (@createFileStream_run (path f) (reader f) [] p1 t1 E), Hf.
  rewrite IH. reflexivity.
Qed.

Section ProjectFacts.
Variable join_path : jsstring -> jsstring -> jsstring.

Lemma createProjectStream_run projectPath (files : list dir_entry)
  (stats : list file_stat) :
  stat_all join_path projectPath
    (filter (fun e => endsWith (name e) (lit ".jsonl")) files) = Val stats ->
  Forall (fun f => fails (reader f) = false) stats ->
  createResilientCommandStream join_path projectPath (Some files)
  = flat_map (fun f => file_stream (path f) (reader f)) (sort_by_mtime stats).
Proof.
  intros S R.
  unfold createResilientCommandStream, createProjectStream, try_catch, bind, lift.
  rewrite S. rewrite for_each_file_run; [reflexivity|].
  apply Forall_forall. intros f I.
  apply (Permutation_in _ (Permutation_sym (sort_by_mtime_perm stats))) in I.
  revert f I. apply Forall_forall. assumption.
Qed.

(** C9.  The project stream is the concatenation of the streams of the
    project's [.jsonl] files taken in ascending order of modification
    time (the order is a sorted rearrangement of the files); so with
    two files [A] and [B], [A] older than [B], each giving one command,
    the stream gives [A]'s command and then [B]'s, whichever way the
    directory lists them. *)
Theorem project_stream_is_chronological
  (projectPath : jsstring) (files : list dir_entry) (stats : list file_stat) :
  stat_all join_path projectPath
    (filter (fun e => endsWith (name e) (lit ".jsonl")) files) = Val stats ->
  Forall (fun f => fails (reader f) = false) stats ->
  createResilientCommandStream join_path projectPath (Some files)
  = flat_map (fun f => file_stream (path f) (reader f)) (sort_by_mtime stats)
  /\ Permutation stats (sort_by_mtime stats)
  /\ StronglySorted mtime_le (sort_by_mtime stats)
  /\ (forall (A B : file_stat) (cA cB : ClaudeCommand),
        stats = [A; B] \/ stats = [B; A] ->
        (mtime A < mtime B)%Z ->
        commands (file_stream (path A) (reader A)) = [cA] ->
        commands (file_stream (path B) (reader B)) = [cB] ->
        commands (createResilientCommandStream join_path projectPath (Some files))
        = [cA; cB]).
Proof.
  intros S R.
  pose proof (createProjectStream_run projectPath files S R) as E.
  split; [assumption|].
  split; [apply sort_by_mtime_perm|].
  split; [apply sort_by_mtime_sorted|].
  intros A B cA cB HS Hlt HA HB. rewrite E.
  assert (O : sort_by_mtime stats = [A; B]).
  { destruct HS as [-> | ->]; simpl.
    - destruct (mtime A - mtime B <=? 0)%Z eqn:C; [reflexivity|].
      apply Z.leb_gt in C. lia.
    - destruct (mtime B - mtime A <=? 0)%Z eqn:C; [|reflexivity].
      apply Z.leb_le in C. lia. }
  rewrite O. simpl. rewrite app_nil_r, commands_app, HA, HB. reflexivity.
Qed.

End ProjectFacts.

Lemma project_stream_witness :
  commands (createResilientCommandStream Sample.posix_join (lit "proj")
              (Some Sample.project))
  = [set_success Sample.ls_command true;
     set_success Sample.git_status_command true].
Proof.
  refine (proj2 (proj2 (proj2 (@project_stream_is_chronological
    Sample.posix_join (lit "proj") Sample.project
    [Sample.newer_stat; Sample.older_stat] _ _)))
    Sample.older_stat Sample.newer_stat
    (set_success Sample.ls_command true)
    (set_success Sample.git_status_command true) _ _ _ _).
  - vm_compute; reflexivity.
  - repeat (apply Forall_cons; [vm_compute; reflexivity|]). apply Forall_nil.
  - right. reflexivity.
  - vm_compute; reflexivity.
  - vm_compute; reflexivity.
  - vm_compute; reflexivity.
Defined.

(* ================================================================== *)
(** ** The bound on the pending table *)
(* ================================================================== *)

(** When the line that brings the count to a multiple of
    [maxPendingEntries] reaches the decoder, the cleanup runs after it
    and at most [maxPendingEntries] commands stay pending. *)
Lemma processLine_bound f line n e (p : pending) :
  reaches_decoder line = true -> e mod maxPendingEntries = 0 ->
  map_size (snd (fst (processLine line n e f p))) <= maxPendingEntries.
Proof.
  intros R Z. rewrite processLine_reach by assumption. unfold bind.
  destruct (processEntry_step line n f p) as (p1 & t1 & -> & _).
  apply N.eqb_eq in Z. rewrite Z.
  pose proof (cleanupOldPendingCommands_bound p1) as B.
  destruct (cleanupOldPendingCommands p1) as [[r q] u]. exact B.
Qed.

(** C3, on the code.  The check of the pending table sits behind the
    two [continue] statements of the line loop, so it is skipped when
    the line that brings the count to a multiple of 100 is blank or is
    dropped by the pre-filter.  In [Sample.unbounded_log] lines 100 and
    200 are such lines.  After line 200 the table holds 198 commands;
    after line 202, the 200th line to reach the decoder, it holds 200;
    nothing has been yielded.  With a 200th line that reaches the
    decoder ([Sample.bounded_log]) the check runs and the 199 pending
    commands are flushed. *)
Theorem cleanup_is_skipped_on_filtered_line :
  List.length Sample.unbounded_log = 202%nat
  /\ List.length (filter reaches_decoder Sample.unbounded_log) = 200%nat
  /\ reaches_decoder (nth 199 Sample.unbounded_log []) = false
  /\ (exists p,
        processLines_from 0 0 (firstn 200 Sample.unbounded_log) Sample.log []
        = (Val tt, p, [])
        /\ map_size p = 198 /\ maxPendingEntries < map_size p)
  /\ (exists p,
        processLines_from 0 0 Sample.unbounded_log Sample.log []
        = (Val tt, p, [])
        /\ map_size p = 200 /\ maxPendingEntries < map_size p)
  /\ (exists t,
        processLines_from 0 0 Sample.bounded_log Sample.log [] = (Val tt, [], t)
        /\ List.length (commands t) = 199%nat).
Proof.
  split; [reflexivity|].
  split; [vm_compute; reflexivity|].
  split; [vm_compute; reflexivity|].
  split; [|split].
  - eexists. split; [vm_compute; reflexivity|].
    split; vm_compute; reflexivity.
  - eexists. split; [vm_compute; reflexivity|].
    split; vm_compute; reflexivity.
  - eexists. split; [vm_compute; reflexivity|].
    vm_compute; reflexivity.
Qed.

(* ================================================================== *)
(** ** The pre-filter *)
(* ================================================================== *)

Lemma startsWith_app (m b : jsstring) : startsWith (m ++ b) m = true.
Proof.
  induction m as [|c m IH]; simpl; [destruct b; reflexivity|].
  rewrite N.eqb_refl. exact IH.
Qed.

Lemma startsWith_split (s p : jsstring) :
  startsWith s p = true -> exists r, s = p ++ r.
Proof.
  revert s; induction p as [|c p IH]; intros s H.
  - exists s. reflexivity.
  - destruct s as [|d s]; [discriminate H|]. simpl in H.
    apply andb_true_iff in H. destruct H as [E H].
    apply N.eqb_eq in E. subst d.
    destruct (IH s H) as [r ->]. exists r. reflexivity.
Qed.

Lemma includes_unfold (s p : jsstring) :
  includes s p
  = startsWith s p || match s with [] => false | _ :: r => includes r p end.
Proof. destruct s; reflexivity. Qed.

Lemma includes_infix (m s : jsstring) : infix m s -> includes s m = true.
Proof.
  intros (a & b & ->). induction a as [|c a IH].
  - rewrite includes_unfold. simpl app. rewrite startsWith_app. reflexivity.
  - change (includes ((c :: a) ++ m ++ b) m)
      with (startsWith (c :: a ++ m ++ b) m || includes (a ++ m ++ b) m).
    rewrite IH. apply orb_true_r.
Qed.

Lemma infix_refl (s : jsstring) : infix s s.
Proof. exists [], []. rewrite app_nil_r. reflexivity. Qed.

Lemma infix_trans (a b c : jsstring) : infix a b -> infix b c -> infix a c.
Proof.
  intros (x & y & ->) (u & v & ->). exists (u ++ x), (y ++ v).
  rewrite <- !app_assoc. reflexivity.
Qed.

Lemma infix_app_r (m s a : jsstring) : infix m s -> infix m (a ++ s).
Proof.
  intros (x & y & ->). exists (a ++ x), y. rewrite <- app_assoc. reflexivity.
Qed.

Lemma infix_app_l (m s b : jsstring) : infix m s -> infix m (s ++ b).
Proof.
  intros (x & y & ->). exists x, (y ++ b). rewrite <- !app_assoc. reflexivity.
Qed.

Lemma infix_cons (m s : jsstring) (c : char) : infix m s -> infix m (c :: s).
Proof. apply (@infix_app_r m s [c]). Qed.

Lemma infix_join (sep x : jsstring) (l : list jsstring) :
  In x l -> infix x (join sep l).
Proof.
  induction l as [|y r IH]; [intros []|].
  intros [->|I].
  - destruct r as [|z r']; [apply infix_refl|].
    exists [], (sep ++ join sep (z :: r')). reflexivity.
  - specialize (IH I). destruct r as [|z r']; [destruct I|].
    change (join sep (y :: z :: r')) with (y ++ sep ++ join sep (z :: r')).
    destruct IH as (a & b & ->). exists (y ++ sep ++ a), b.
    rewrite <- !app_assoc. reflexivity.
Qed.

Section StringifyFacts.
Variable number_text : number -> jsstring.
Variable member_order : list jsstring -> list jsstring.
Hypothesis member_order_perm : forall l, Permutation l (member_order l).

Local Notation "'stringify'" :=
  (Stringify.JSON_stringify number_text member_order).
Import Stringify.

Lemma quote_from_cons (high : option char) (c : char) (r : jsstring) :
  quote_from high (c :: r)
  = match high with
    | Some h =>
        if is_low_surrogate c then h :: c :: quote_from None r
        else unicode_escape h
             ++ (if is_high_surrogate c then quote_from (Some c) r
                 else quote_unit c ++ quote_from None r)
    | None =>
        if is_high_surrogate c then quote_from (Some c) r
        else if is_low_surrogate c then unicode_escape c ++ quote_from None r
        else quote_unit c ++ quote_from None r
    end.
Proof. reflexivity. Qed.

(** The opening tag survives quoting: none of its code units is escaped. *)
Lemma quote_from_open_tag (a b : jsstring) (high : option char) :
  infix open_tag (quote_from high (a ++ open_tag ++ b)).
Proof.
  revert high; induction a as [|c a IH]; intros high.
  - destruct high as [h|].
    + exists (unicode_escape h), (quote_from None b). reflexivity.
    + exists [], (quote_from None b). reflexivity.
  - rewrite <- app_comm_cons, quote_from_cons. destruct high as [h|].
    + destruct (is_low_surrogate c).
      * apply infix_cons, infix_cons, IH.
      * destruct (is_high_surrogate c).
        -- apply infix_app_r, IH.
        -- apply infix_app_r, infix_app_r, IH.
    + destruct (is_high_surrogate c); [apply IH|].
      destruct (is_low_surrogate c); apply infix_app_r, IH.
Qed.

Lemma QuoteJSONString_open_tag (s : jsstring) :
  infix open_tag s -> infix open_tag (QuoteJSONString s).
Proof.
  intros (a & b & ->). unfold QuoteJSONString.
  apply infix_app_r, infix_app_l, quote_from_open_tag.
Qed.

Definition member (kv : jsstring * json) : jsstring :=
  QuoteJSONString (fst kv) ++ lit ":" ++ stringify (snd kv).

Lemma stringify_array (items : list json) :
  stringify (JArr items)
  = lit "[" ++ join (lit ",") (map stringify items) ++ lit "]".
Proof. reflexivity. Qed.

Lemma stringify_object (fields : list (jsstring * json)) :
  stringify (JObj fields)
  = lit "{" ++ join (lit ",") (member_order (map member fields)) ++ lit "}".
Proof.
  cbn [JSON_stringify].
  match goal with
  | |- ?lhs = _ =>
      match lhs with
      | context [member_order ?l] => assert (E : l = map member fields)
      end
  end.
  { induction fields as [|[k v] r IH]; [reflexivity|].
    cbn [map]. rewrite <- IH. reflexivity. }
  rewrite E. reflexivity.
Qed.

(** The text of a value holds the text of each element and of each
    property value. *)
Lemma stringify_item (v : json) (items : list json) :
  In v items -> infix (stringify v) (stringify (JArr items)).
Proof.
  intros I. rewrite stringify_array.
  apply infix_app_r, infix_app_l, infix_join, in_map, I.
Qed.

Lemma stringify_field (k : jsstring) (v : json) (fields : list (jsstring * json)) :
  assoc fields k = Some v -> infix (stringify v) (stringify (JObj fields)).
Proof.
  intros A. rewrite stringify_object.
  assert (I : exists k', In (k', v) fields).
  { induction fields as [|[k0 v0] r IH]; [discriminate A|].
    simpl in A. destruct (JsString.eqb k0 k).
    - injection A as ->. exists k0. left. reflexivity.
    - destruct (IH A) as [k' I]. exists k'. right. exact I. }
  destruct I as [k' I]. apply (in_map member) in I.
  apply (Permutation_in _ (member_order_perm _)) in I.
  apply infix_app_r, infix_app_l.
  eapply infix_trans; [|apply infix_join, I].
  unfold member. cbn [fst snd]. apply infix_app_r, infix_app_r, infix_refl.
Qed.

Lemma prop_infix (v w : json) (k : jsstring) :
  prop v k = Some w -> infix (stringify w) (stringify v).
Proof.
  destruct v; try discriminate. simpl prop. apply stringify_field.
Qed.

Lemma get_opt_infix (v : value) (w x : json) (k : jsstring) :
  v = Some x -> get_opt v k = Some w -> infix (stringify w) (stringify x).
Proof.
  intros -> H. destruct x; try discriminate H; simpl in H;
    eapply stringify_field; eassumption.
Qed.

Lemma message_content_infix (entry c : json) :
  message_content entry = Some c -> infix (stringify c) (stringify entry).
Proof.
  unfold message_content. intros H.
  destruct (prop entry (lit "message")) as [m|] eqn:M; [|discriminate H].
  eapply infix_trans; [|eapply prop_infix; exact M].
  eapply get_opt_infix; [reflexivity|exact H].
Qed.

Lemma find_In (p : json -> res bool) (items : list json) (x : json) :
  Js.find p items = Val (Some x) -> In x items /\ p x = Val true.
Proof.
  induction items as [|y r IH]; simpl; [discriminate|].
  destruct (p y) as [[|]|e] eqn:P; try discriminate.
  - intros H. injection H as <-. split; [left; reflexivity|assumption].
  - intros H. destruct (IH H). split; [right|]; assumption.
Qed.

(** A property that equals a literal shows the literal, quoted, in the
    text of the block. *)
Lemma literal_property_infix (block : json) (k literal : jsstring) :
  is_string (prop block k) literal = true ->
  infix (QuoteJSONString literal) (stringify block).
Proof.
  destruct (prop block k) as [[| | |s| |]|] eqn:P; try discriminate.
  simpl. intros E. apply eqb_spec in E. subst s.
  apply (prop_infix _ _ P).
Qed.

Lemma call_find_In (content : value) (p : json -> res bool) (x : json) :
  call_find content p = Val (Some x) ->
  exists items, content = Some (JArr items) /\ In x items /\ p x = Val true.
Proof.
  destruct content as [[| | | |items|]|]; try discriminate.
  simpl. intros H. exists items. split; [reflexivity|apply find_In; assumption].
Qed.

Lemma bash_input_match_unfold (c : jsstring) :
  bash_input_match c
  = match (if startsWith c open_tag
           then lazy_group (skipn (List.length open_tag) c)
           else None) with
    | Some g => Some g
    | None =>
        match c with
        | [] => None
        | _ :: r => bash_input_match r
        end
    end.
Proof. destruct c; reflexivity. Qed.

Lemma bash_input_match_infix (c g : jsstring) :
  bash_input_match c = Some g -> infix open_tag c.
Proof.
  induction c as [|a r IH]; rewrite bash_input_match_unfold.
  - discriminate.
  - destruct (startsWith (a :: r) open_tag) eqn:S.
    + intros _. destruct (startsWith_split _ _ S) as [rest ->].
      exists [], rest. reflexivity.
    + intros H. apply infix_cons, IH, H.
Qed.

(** On the text [JSON.stringify] writes for an entry, whatever the
    rendering of numbers and the enumeration order of properties, the
    pre-filter is safe: when it answers false, no extractor finds an
    event in the entry. *)
Lemma lineContainsCommands_safe_on_stringify (entry : json) :
  lineContainsCommands (stringify entry) = false ->
  (forall c, extractBashCommand entry <> Val (Some c))
  /\ (forall r, extractToolResult entry <> Val (Some r))
  /\ (forall c, extractUserCommand entry <> Val (Some c)).
Proof.
  unfold lineContainsCommands. intros H.
  apply orb_false_iff in H. destruct H as [H H3].
  apply orb_false_iff in H. destruct H as [H1 H2].
  split; [|split].
  - intros c E. unfold extractBashCommand in E.
    destruct (get (Some entry) (lit "type")) as [ty|e]; cbn [res_bind] in E;
      [|discriminate E].
    destruct (negb _ || negb _); [discriminate E|].
    destruct (findBashToolBlock (message_content entry)) as [[block|]|e] eqn:F;
      cbn [res_bind] in E; try discriminate E.
    apply call_find_In in F. destruct F as (items & C & I & P).
    assert (N : block <> JNull) by (intros ->; discriminate P).
    rewrite !get_entry in P by assumption. cbn [res_bind] in P.
    destruct (is_string (prop block (lit "type")) (lit "tool_use")); [|discriminate P].
    injection P as P. apply literal_property_infix in P.
    change (infix (js "'Bash'") (stringify block)) in P.
    assert (X : infix (js "'Bash'") (stringify entry)).
    { eapply infix_trans; [exact P|].
      eapply infix_trans; [apply stringify_item; exact I|].
      apply message_content_infix. exact C. }
    apply includes_infix in X. congruence.
  - intros r E. unfold extractToolResult in E.
    destruct (get (Some entry) (lit "type")) as [ty|e]; cbn [res_bind] in E;
      [|discriminate E].
    destruct (negb _ || negb _); [discriminate E|].
    destruct (typeof_string (message_content entry)); [discriminate E|].
    destruct (call_find (message_content entry) _) as [[block|]|e] eqn:F;
      cbn [res_bind] in E; try discriminate E.
    apply call_find_In in F. destruct F as (items & C & I & P).
    assert (N : block <> JNull) by (intros ->; discriminate P).
    rewrite !get_entry in P by assumption. cbn [res_bind] in P.
    destruct (is_string (prop block (lit "type")) (lit "tool_result")) eqn:T;
      [|discriminate P].
    apply literal_property_infix in T.
    change (infix (js "'tool_result'") (stringify block)) in T.
    assert (X : infix (js "'tool_result'") (stringify entry)).
    { eapply infix_trans; [exact T|].
      eapply infix_trans; [apply stringify_item; exact I|].
      apply message_content_infix. exact C. }
    apply includes_infix in X. congruence.
  - intros c E. unfold extractUserCommand in E.
    destruct (get (Some entry) (lit "type")) as [ty|e]; cbn [res_bind] in E;
      [|discriminate E].
    destruct (negb _ || negb _); [discriminate E|].
    destruct (message_content entry) as [[| | |content| |]|] eqn:C;
      try discriminate E.
    unfold findUserCommand in E.
    destruct (bash_input_match content) as [g|] eqn:B; [|discriminate E].
    apply bash_input_match_infix in B.
    assert (X : infix (lit "<bash-input>") (stringify entry)).
    { eapply infix_trans; [|apply message_content_infix; exact C].
      apply (QuoteJSONString_open_tag B). }
    apply includes_infix in X. congruence.
Qed.

End StringifyFacts.

(** C4, on the code.  [lineContainsCommands] looks for the markers in
    the raw text, [JSON.parse] decodes escapes: a line that spells a
    marker with a [\u] escape decodes to the very entry of the plain
    line, yet the pre-filter drops it and its event is lost.  This
    happens for each of the three events. *)
Theorem escaped_marker_is_filtered_out :
  (lineContainsCommands Sample.bash_use_escaped = false
   /\ JSON_parse Sample.bash_use_escaped = JSON_parse Sample.bash_use
   /\ option_map extractBashCommand (JSON_parse Sample.bash_use_escaped)
      = Some (Val (Some Sample.ls_command))
   /\ file_stream Sample.log
        {| lines := [Sample.bash_use_escaped]; fails := false |} = []
   /\ file_stream Sample.log
        {| lines := [Sample.bash_use]; fails := false |}
      = [Yield (set_success Sample.ls_command true)])
  /\ (lineContainsCommands Sample.user_command_escaped = false
      /\ JSON_parse Sample.user_command_escaped = JSON_parse Sample.user_command
      /\ option_map extractUserCommand (JSON_parse Sample.user_command_escaped)
         = Some (Val (Some Sample.git_status_command))
      /\ file_stream Sample.log
           {| lines := [Sample.user_command_escaped]; fails := false |} = []
      /\ file_stream Sample.log
           {| lines := [Sample.user_command]; fails := false |}
         = [Yield (set_success Sample.git_status_command true)])
  /\ (lineContainsCommands Sample.tool_result_escaped = false
      /\ JSON_parse Sample.tool_result_escaped = JSON_parse Sample.tool_result_failed
      /\ option_map extractToolResult (JSON_parse Sample.tool_result_escaped)
         = Some (Val (Some {| tool_use_id := JStr (lit "t1");
                              is_error := JBool true |}))
      /\ file_stream Sample.log
           {| lines := [Sample.bash_use; Sample.tool_result_escaped];
              fails := false |}
         = [Yield (set_success Sample.ls_command true)]
      /\ file_stream Sample.log
           {| lines := [Sample.bash_use; Sample.tool_result_failed];
              fails := false |}
         = [Yield (set_success Sample.ls_command false)]).
Proof. repeat split; vm_compute; reflexivity. Qed.

(* ================================================================== *)
(** ** More on normalisation *)
(* ================================================================== *)

Lemma normalized_parts_nonempty (x : jsstring) :
  filter nonempty (map trim (split_lines x)) <> [] ->
  tight (normalizeBashCommand x).
Proof.
  intros H. apply join_tight; [assumption|].
  apply Forall_forall. apply normalized_pieces_tight.
Qed.

(** X1.  The normalised text of a command is on one line and has no
    white space at either end. *)
Theorem normalizeBashCommand_one_line (x : jsstring) :
  ~ In LF (normalizeBashCommand x)
  /\ trim (normalizeBashCommand x) = normalizeBashCommand x.
Proof.
  destruct (filter nonempty (map trim (split_lines x))) as [|y l] eqn:E.
  - unfold normalizeBashCommand. rewrite E. simpl. tauto.
  - assert (T : tight (normalizeBashCommand x)).
    { apply normalized_parts_nonempty. rewrite E. discriminate. }
    split; [apply T|apply trim_tight, T].
Qed.

Lemma trimStart_nil (s : jsstring) : trimStart s = [] <-> blank s.
Proof.
  unfold blank. induction s as [|c r IH]; simpl.
  - split; [constructor|reflexivity].
  - destruct (is_white c) eqn:W.
    + rewrite IH. split; [constructor; assumption|].
      intros H. inversion H; assumption.
    + split; [discriminate|].
      intros H. inversion H; congruence.
Qed.

Lemma trimEnd_nonwhite_head (c : char) (r : jsstring) :
  is_white c = false -> trimEnd (c :: r) <> [].
Proof.
  intros W. simpl. destruct (trimEnd r); [rewrite W|]; discriminate.
Qed.

Lemma trim_nil (s : jsstring) : trim s = [] <-> blank s.
Proof.
  rewrite <- trimStart_nil. unfold trim. split.
  - intros H. pose proof (trimStart_idem s) as I.
    destruct (trimStart s) as [|c r]; [reflexivity|].
    apply trimStart_fixed_head in I.
    exfalso. exact (@trimEnd_nonwhite_head c r I H).
  - intros ->. reflexivity.
Qed.

Lemma split_lines_nonempty (x : jsstring) : split_lines x <> [].
Proof.
  destruct x as [|c r]; simpl; [discriminate|].
  destruct (c =? LF); [discriminate|].
  destruct (split_lines r); discriminate.
Qed.

(** [split('\n')] and [join('\n')] are inverse to each other on the
    text. *)
Lemma split_lines_join (x : jsstring) : join [LF] (split_lines x) = x.
Proof.
  induction x as [|c r IH]; [reflexivity|].
  pose proof (split_lines_nonempty r) as NE.
  simpl. destruct (c =? LF) eqn:E.
  - apply N.eqb_eq in E. subst c.
    destruct (split_lines r) as [|h t] eqn:S; [congruence|].
    change (join [LF] ([] :: h :: t)) with ([LF] ++ join [LF] (h :: t)).
    rewrite IH. reflexivity.
  - destruct (split_lines r) as [|h t] eqn:S; [congruence|].
    destruct t as [|h' t'].
    + simpl in *. subst r. reflexivity.
    + change (join [LF] ((c :: h) :: h' :: t'))
        with (c :: join [LF] (h :: h' :: t')).
      rewrite IH. reflexivity.
Qed.

Lemma blank_join (l : list jsstring) : blank (join [LF] l) <-> Forall blank l.
Proof.
  unfold blank. induction l as [|x r IH].
  - split; constructor.
  - destruct r as [|y r'].
    + simpl. split; [intros H; constructor; [assumption|constructor]|].
      intros H. inversion H; assumption.
    + change (join [LF] (x :: y :: r')) with (x ++ [LF] ++ join [LF] (y :: r')).
      rewrite !Forall_app, IH. split.
      * intros (A & _ & B). constructor; assumption.
      * intros H. inversion H; subst. repeat split; try assumption.
        constructor; [reflexivity|constructor].
Qed.

Lemma filter_nonempty_nil (l : list jsstring) :
  filter nonempty (map trim l) = [] <-> Forall blank l.
Proof.
  induction l as [|x r IH]; simpl.
  - split; constructor.
  - destruct (trim x) as [|c t] eqn:T; simpl.
    + rewrite IH. apply trim_nil in T. split.
      * intros H. constructor; assumption.
      * intros H. inversion H; assumption.
    + split; [discriminate|]. intros H. inversion H; subst.
      apply trim_nil in H2. congruence.
Qed.

Lemma normalizeBashCommand_nil_parts (x : jsstring) :
  normalizeBashCommand x = [] <-> filter nonempty (map trim (split_lines x)) = [].
Proof.
  split.
  - intros H.
    destruct (filter nonempty (map trim (split_lines x))) as [|y l] eqn:E;
      [reflexivity|].
    assert (T : tight (normalizeBashCommand x))
      by (apply normalized_parts_nonempty; rewrite E; discriminate).
    destruct T as [T _]. contradiction.
  - intros H. unfold normalizeBashCommand. rewrite H. reflexivity.
Qed.

(** X2.  The normalised text is empty exactly when the command text
    holds nothing but white space. *)
Theorem normalizeBashCommand_empty_iff_blank (x : jsstring) :
  normalizeBashCommand x = [] <-> blank x.
Proof.
  rewrite normalizeBashCommand_nil_parts, filter_nonempty_nil, <- blank_join.
  rewrite split_lines_join. reflexivity.
Qed.

Lemma split_lines_app (a b : jsstring) :
  split_lines (a ++ LF :: b) = split_lines a ++ split_lines b.
Proof.
  induction a as [|c r IH]; [reflexivity|].
  simpl. destruct (c =? LF); [rewrite IH; reflexivity|].
  rewrite IH. pose proof (split_lines_nonempty r) as N.
  destruct (split_lines r); [congruence|reflexivity].
Qed.

Lemma join_app (sep : jsstring) (l1 l2 : list jsstring) :
  l1 <> [] -> l2 <> [] ->
  join sep (l1 ++ l2) = join sep l1 ++ sep ++ join sep l2.
Proof.
  intros N1 N2. induction l1 as [|x r IH]; [congruence|].
  destruct r as [|y r'].
  - simpl. destruct l2; [congruence|reflexivity].
  - change (join sep ((x :: y :: r') ++ l2))
      with (x ++ sep ++ join sep ((y :: r') ++ l2)).
    rewrite IH by discriminate.
    change (join sep (x :: y :: r')) with (x ++ sep ++ join sep (y :: r')).
    rewrite <- !app_assoc. reflexivity.
Qed.

Lemma join_tight_two (A B : list jsstring) :
  Forall tight A -> Forall tight B ->
  join escaped_newline (A ++ B)
  = join escaped_newline
      (filter nonempty [join escaped_newline A; join escaped_newline B]).
Proof.
  intros TA TB.
  assert (NE : forall L, Forall tight L -> L <> [] ->
                         nonempty (join escaped_newline L) = true).
  { intros L TL NL. destruct (join_tight NL TL) as [T _].
    destruct (join escaped_newline L); [congruence|reflexivity]. }
  destruct A as [|xa la]; destruct B as [|xb lb].
  - reflexivity.
  - cbn [app filter]. change (join escaped_newline []) with (@nil char).
    cbn [nonempty]. rewrite (NE _ TB) by discriminate. reflexivity.
  - rewrite app_nil_r. cbn [filter].
    rewrite (NE _ TA) by discriminate.
    change (join escaped_newline []) with (@nil char). reflexivity.
  - rewrite join_app by discriminate. cbn [filter].
    rewrite (NE _ TA), (NE _ TB) by discriminate. reflexivity.
Qed.

(** X3.  Normalising two texts joined by a line feed gives the two
    normalised texts joined by the escaped line feed, an empty one
    being left out. *)
Theorem normalizeBashCommand_app (a b : jsstring) :
  normalizeBashCommand (a ++ LF :: b)
  = join escaped_newline
      (filter nonempty [normalizeBashCommand a; normalizeBashCommand b]).
Proof.
  unfold normalizeBashCommand.
  rewrite split_lines_app, map_app, filter_app.
  apply join_tight_two; apply Forall_forall; apply normalized_pieces_tight.
Qed.

(* ================================================================== *)
(** ** What the extractors pick *)
(* ================================================================== *)

Lemma is_string_iff (v : value) (literal : jsstring) :
  is_string v literal = true <-> v = Some (JStr literal).
Proof.
  destruct v as [[| | |s| |]|]; simpl; try (split; discriminate).
  rewrite eqb_spec. split; [congruence|]. intros H; injection H; auto.
Qed.

(** [find] returns the first element its callback accepts. *)
Lemma find_first (p : json -> res bool) (items : list json) (x : json) :
  Js.find p items = Val (Some x) ->
  exists before after,
    items = before ++ x :: after
    /\ Forall (fun b => p b = Val false) before
    /\ p x = Val true.
Proof.
  induction items as [|y r IH]; simpl; [discriminate|].
  destruct (p y) as [[|]|e] eqn:P; try discriminate.
  - intros H. injection H as <-. exists [], r. repeat split; [constructor|assumption].
  - intros H. destruct (IH H) as (b & a & -> & F & T).
    exists (y :: b), a. repeat split; [constructor|]; assumption.
Qed.

Lemma call_find_first (content : value) (p : json -> res bool) (x : json) :
  call_find content p = Val (Some x) ->
  exists before after,
    content = Some (JArr (before ++ x :: after))
    /\ Forall (fun b => p b = Val false) before
    /\ p x = Val true.
Proof.
  destruct content as [[| | | |items|]|]; try discriminate.
  simpl. intros H. destruct (find_first _ _ H) as (b & a & -> & F & T).
  exists b, a. auto.
Qed.

Lemma bash_test_true (block : json) :
  bash_test block = Val true -> is_bash_block block.
Proof.
  unfold bash_test, is_bash_block. destruct block; try discriminate;
    cbn [get res_bind]; intros H;
    match type of H with
    | context [is_string ?v (lit "tool_use")] =>
        destruct (is_string v (lit "tool_use")) eqn:T; [|discriminate H]
    end;
    injection H as H; apply is_string_iff in T; apply is_string_iff in H;
    split; assumption.
Qed.

Lemma bash_test_false (block : json) :
  bash_test block = Val false -> ~ is_bash_block block.
Proof.
  unfold bash_test, is_bash_block. intros H [T N].
  destruct block; try discriminate T.
  cbn [get res_bind] in H.
  apply is_string_iff in T. apply is_string_iff in N.
  rewrite T, N in H. discriminate H.
Qed.

(** X4.  A Bash command comes from the first block of the entry's
    content that is a [tool_use] block named [Bash]: blocks of other
    tools before it are passed over, Bash blocks after it are never
    looked at.  The command text is the normalised [input.command] of
    that block, a non-empty string, and the identifier
    [extractToolUseId] gives is the [id] of the same block. *)
Theorem extractBashCommand_first_Bash_block (entry : json) (cmd : ClaudeCommand) :
  extractBashCommand entry = Val (Some cmd) ->
  exists before block after text,
    message_content entry = Some (JArr (before ++ block :: after))
    /\ Forall (fun b => ~ is_bash_block b) before
    /\ is_bash_block block
    /\ get_opt (prop block (lit "input")) (lit "command") = Some (JStr text)
    /\ nonempty text = true
    /\ command cmd = normalizeBashCommand text
    /\ source cmd = bash
    /\ extractToolUseId entry
       = Val (if truthy_val (prop block (lit "id"))
              then prop block (lit "id") else None).
Proof.
  intros H. destruct (extractBashCommand_kind _ H) as [N A].
  unfold extractBashCommand in H. rewrite get_entry in H by assumption.
  cbn [res_bind] in H. rewrite A in H.
  destruct (truthy_val (message_content entry)) eqn:TC; [|discriminate H].
  cbn [negb orb] in H.
  destruct (findBashToolBlock (message_content entry)) as [[block|]|e] eqn:F;
    cbn [res_bind] in H; try discriminate H.
  destruct (truthy block); [|discriminate H].
  injection H as H.
  pose proof F as F'. unfold findBashToolBlock in F'.
  apply call_find_first in F'. destruct F' as (before & after & C & FB & TB).
  apply bash_test_true in TB.
  assert (IB : exists fields, block = JObj fields).
  { destruct TB as [T _]. destruct block; try discriminate T. eexists; reflexivity. }
  destruct IB as [fields ->].
  (* the command *)
  unfold createClaudeCommand in H.
  cbn [get res_bind] in H.
  destruct (get_opt (prop (JObj fields) (lit "input")) (lit "command"))
    as [c|] eqn:GC; [|discriminate H].
  cbn [truthy_val] in H. destruct (truthy c) eqn:TR; [|discriminate H].
  cbn [negb] in H.
  destruct (entry_timestamp entry) as [ts|e]; cbn [res_bind] in H; [|discriminate H].
  destruct c as [| | |text| |]; cbn [res_bind] in H; try discriminate H.
  injection H as <-.
  exists before, (JObj fields), after, text.
  split; [assumption|]. split.
  { eapply Forall_impl; [|exact FB]. intros b. apply bash_test_false. }
  split; [assumption|]. split; [exact GC|].
  split; [exact TR|]. split; [reflexivity|]. split; [reflexivity|].
  unfold extractToolUseId. rewrite get_entry by assumption.
  cbn [res_bind]. rewrite A, TC. cbn [negb orb]. rewrite F. reflexivity.
Qed.

Lemma result_test_true (block : json) :
  result_test block = Val true -> is_result_block block.
Proof.
  unfold result_test, is_result_block. destruct block; try discriminate;
    cbn [get res_bind]; intros H;
    match type of H with
    | context [is_string ?v (lit "tool_result")] =>
        destruct (is_string v (lit "tool_result")) eqn:T; [|discriminate H]
    end;
    injection H as H; apply is_string_iff in T; split; assumption.
Qed.

Lemma result_test_false (block : json) :
  result_test block = Val false -> ~ is_result_block block.
Proof.
  unfold result_test, is_result_block. intros H [T I].
  destruct block; try discriminate T.
  cbn [get res_bind] in H.
  apply is_string_iff in T. rewrite T in H. congruence.
Qed.

(** X5.  A tool result comes from the first block of the entry's
    content that is a [tool_result] block with a truthy [tool_use_id]:
    its identifier is that [tool_use_id], and its [is_error] is the
    block's, or false when the block has none or has null.  So the
    identifier is never falsy and [is_error] is never null. *)
Theorem extractToolResult_first_result_block (entry : json) (r : tool_result) :
  extractToolResult entry = Val (Some r) ->
  exists before block after,
    message_content entry = Some (JArr (before ++ block :: after))
    /\ Forall (fun b => ~ is_result_block b) before
    /\ is_result_block block
    /\ prop block (lit "tool_use_id") = Some (tool_use_id r)
    /\ is_error r = nullish_or (prop block (lit "is_error")) (JBool false)
    /\ truthy (tool_use_id r) = true
    /\ is_error r <> JNull.
Proof.
  intros H. destruct (extractToolResult_kind _ H) as (N & U & S).
  unfold extractToolResult in H. rewrite get_entry in H by assumption.
  cbn [res_bind] in H. rewrite U, S in H.
  destruct (truthy_val (message_content entry)); [|discriminate H].
  cbn [negb orb] in H.
  destruct (call_find (message_content entry) _) as [[block|]|e] eqn:F;
    cbn [res_bind] in H; try discriminate H.
  apply call_find_first in F. destruct F as (before & after & C & FB & TB).
  apply result_test_true in TB.
  assert (IB : exists fields, block = JObj fields).
  { destruct TB as [T _]. destruct block; try discriminate T. eexists; reflexivity. }
  destruct IB as [fields ->]. cbn [get_opt] in H.
  destruct (prop (JObj fields) (lit "tool_use_id")) as [id|] eqn:I; [|discriminate H].
  destruct (truthy id) eqn:TI; [|discriminate H].
  injection H as <-. cbn [tool_use_id is_error].
  exists before, (JObj fields), after.
  split; [assumption|]. split.
  { eapply Forall_impl; [|exact FB]. intros b. apply result_test_false. }
  split; [assumption|]. split; [assumption|]. split; [reflexivity|].
  split; [assumption|].
  match goal with
  | |- nullish_or ?v _ <> _ => destruct v as [[| | | | |]|]
  end; cbn [nullish_or]; discriminate.
Qed.

(* ================================================================== *)
(** ** The pattern of user commands *)
(* ================================================================== *)

Lemma lazy_group_unfold (s : jsstring) :
  lazy_group s
  = if startsWith s close_tag then Some []
    else match s with
         | [] => None
         | c :: r =>
             if is_line_terminator c then None
             else match lazy_group r with
                  | Some g => Some (c :: g)
                  | None => None
                  end
         end.
Proof. destruct s; reflexivity. Qed.

Lemma startsWith_close_other (c : char) (r : jsstring) :
  c <> 60 -> startsWith (c :: r) close_tag = false.
Proof.
  intros H. apply N.eqb_neq in H. unfold close_tag.
  change (lit "</bash-input>") with (60 :: lit "/bash-input>").
  cbn [startsWith]. rewrite N.eqb_sym, H. reflexivity.
Qed.

Lemma startsWith_open_other (c : char) (r : jsstring) :
  c <> 60 -> startsWith (c :: r) open_tag = false.
Proof.
  intros H. apply N.eqb_neq in H. unfold open_tag.
  change (lit "<bash-input>") with (60 :: lit "bash-input>").
  cbn [startsWith]. rewrite N.eqb_sym, H. reflexivity.
Qed.

(** Text without [<] and without line terminator is captured whole. *)
Lemma lazy_group_plain (inner after : jsstring) :
  ~ In 60 inner ->
  Forall (fun c => is_line_terminator c = false) inner ->
  lazy_group (inner ++ close_tag ++ after) = Some inner.
Proof.
  induction inner as [|c r IH]; intros NL NT.
  - rewrite lazy_group_unfold.
    change ([] ++ close_tag ++ after) with (close_tag ++ after).
    rewrite startsWith_app. reflexivity.
  - rewrite lazy_group_unfold. inversion NT as [|? ? T1 T2]; subst.
    rewrite <- app_comm_cons.
    rewrite startsWith_close_other by (intros ->; apply NL; left; reflexivity).
    rewrite T1, IH; [reflexivity| |assumption].
    intros I. apply NL. right. assumption.
Qed.

Lemma skipn_length_app (a s : jsstring) : skipn (List.length a) (a ++ s) = s.
Proof. induction a as [|c r IH]; [reflexivity|exact IH]. Qed.

Lemma bash_input_match_plain (before s g : jsstring) :
  ~ In 60 before ->
  lazy_group s = Some g ->
  bash_input_match (before ++ open_tag ++ s) = Some g.
Proof.
  induction before as [|c r IH]; intros NL G.
  - rewrite bash_input_match_unfold.
    change ([] ++ open_tag ++ s) with (open_tag ++ s).
    rewrite startsWith_app.
    rewrite skipn_length_app, G. reflexivity.
  - rewrite bash_input_match_unfold. rewrite <- app_comm_cons.
    rewrite startsWith_open_other by (intros ->; apply NL; left; reflexivity).
    apply IH; [|assumption]. intros I. apply NL. right. assumption.
Qed.

(** X6.  With plain text (no [<]) before the opening tag and plain
    one-line text between the tags, [findUserCommand] returns the
    trimmed text between the tags, whatever follows the closing tag:
    later tags are never looked at. *)
Theorem findUserCommand_first_tag (before inner after : jsstring) :
  ~ In 60 before ->
  ~ In 60 inner ->
  Forall (fun c => is_line_terminator c = false) inner ->
  findUserCommand (before ++ open_tag ++ inner ++ close_tag ++ after)
  = Some (trim inner).
Proof.
  intros NB NI NT. unfold findUserCommand.
  erewrite bash_input_match_plain;
    [reflexivity|assumption|apply lazy_group_plain; assumption].
Qed.

Lemma findUserCommand_first_tag_witness :
  findUserCommand
    (lit "run " ++ open_tag ++ lit " git status " ++ close_tag
       ++ lit " then <bash-input>rm -rf x</bash-input>")
  = Some (trim (lit " git status ")).
Proof.
  apply findUserCommand_first_tag.
  - vm_compute. intuition discriminate.
  - vm_compute. intuition discriminate.
  - repeat (apply Forall_cons; [vm_compute; reflexivity|]). apply Forall_nil.
Defined.

Lemma lazy_group_sound (s g : jsstring) :
  lazy_group s = Some g ->
  (exists after, s = g ++ close_tag ++ after)
  /\ Forall (fun c => is_line_terminator c = false) g
  /\ includes g close_tag = false.
Proof.
  revert g; induction s as [|c r IH]; intros g; rewrite lazy_group_unfold.
  - discriminate.
  - destruct (startsWith (c :: r) close_tag) eqn:S.
    + intros H. injection H as <-.
      destruct (startsWith_split _ _ S) as [after E].
      split; [exists after; exact E|]. split; [constructor|reflexivity].
    + destruct (is_line_terminator c) eqn:T; [discriminate|].
      destruct (lazy_group r) as [g'|]; [|discriminate].
      intros H. injection H as <-.
      destruct (IH g' eq_refl) as ((after & ->) & NT & NI).
      split; [exists after; reflexivity|].
      split; [constructor; assumption|].
      rewrite includes_unfold, NI, orb_false_r.
      destruct (startsWith (c :: g') close_tag) eqn:S'; [|reflexivity].
      destruct (startsWith_split _ _ S') as [x E].
      change (c :: g' ++ close_tag ++ after)
        with ((c :: g') ++ close_tag ++ after) in S.
      rewrite E, <- app_assoc, startsWith_app in S.
      discriminate S.
Qed.

Lemma bash_input_match_sound (content g : jsstring) :
  bash_input_match content = Some g ->
  exists before after, content = before ++ open_tag ++ g ++ close_tag ++ after.
Proof.
  induction content as [|c r IH]; rewrite bash_input_match_unfold.
  - discriminate.
  - destruct (startsWith (c :: r) open_tag) eqn:S.
    + destruct (startsWith_split _ _ S) as [s E]. rewrite E, skipn_length_app.
      destruct (lazy_group s) as [g'|] eqn:L.
      * intros H. injection H as <-.
        destruct (lazy_group_sound _ L) as ((after & ->) & _).
        exists [], after. reflexivity.
      * rewrite <- E. intros H. destruct (IH H) as (b & a & ->).
        exists (c :: b), a. reflexivity.
    + intros H. destruct (IH H) as (b & a & ->).
      exists (c :: b), a. reflexivity.
Qed.

(** X7.  What [findUserCommand] returns is the trimmed text that
    stands between an opening tag and a closing tag of the content;
    that text holds no line terminator and no closing tag (the match is
    the shortest), and its trimmed form no line terminator either. *)
Theorem findUserCommand_sound (content cmd : jsstring) :
  findUserCommand content = Some cmd ->
  exists before inner after,
    content = before ++ open_tag ++ inner ++ close_tag ++ after
    /\ cmd = trim inner
    /\ Forall (fun c => is_line_terminator c = false) inner
    /\ includes inner close_tag = false
    /\ Forall (fun c => is_line_terminator c = false) cmd.
Proof.
  unfold findUserCommand.
  destruct (bash_input_match content) as [g|] eqn:B; [|discriminate].
  intros H. injection H as <-.
  assert (L : Forall (fun c => is_line_terminator c = false) g
              /\ includes g close_tag = false).
  { clear - B. revert B.
    induction content as [|c r IH]; rewrite bash_input_match_unfold;
      [discriminate|].
    destruct (startsWith (c :: r) open_tag).
    - destruct (lazy_group (skipn (List.length open_tag) (c :: r))) as [g'|] eqn:L.
      + intros H. injection H as <-. apply (lazy_group_sound _ L).
      + exact IH.
    - exact IH. }
  destruct (bash_input_match_sound _ B) as (before & after & ->).
  exists before, g, after. destruct L as [L1 L2].
  repeat split; try assumption.
  apply Forall_forall. intros c I. apply trim_In in I.
  revert c I. apply Forall_forall. assumption.
Qed.

(* ================================================================== *)
(** ** More on one entry *)
(* ================================================================== *)

(** X8.  [processEntry] never throws and leaves at most one event: one
    command or one diagnostic, never both, and a diagnostic never comes
    with a change of the pending table. *)
Theorem processEntry_at_most_one_event
  (line : jsstring) (lineNumber : N) (filePath : jsstring) (p : pending) :
  exists p' t,
    processEntry line lineNumber filePath p = (Val tt, p', t)
    /\ (List.length t <= 1)%nat
    /\ (diagnostics t <> [] -> p' = p /\ commands t = []).
Proof.
  destruct (processEntry_step line lineNumber filePath p) as (p' & t & E & S).
  exists p', t. split; [assumption|].
  destruct S; simpl; (split; [lia|]); intros D;
    try (exfalso; apply D; reflexivity); split; reflexivity.
Qed.

(** X9.  A tool result is consumed by the command it resolves: when the
    same result line comes again right after, nothing is pending under
    its identifier and the line changes and yields nothing. *)
Theorem repeated_tool_result_is_dropped
  (line : jsstring) (entry : json) (r : tool_result)
  (n m : N) (filePath : jsstring) (p : pending) :
  unique_keys p ->
  JSON_parse line = Some entry ->
  extractToolResult entry = Val (Some r) ->
  exists p1 t1,
    processEntry line n filePath p = (Val tt, p1, t1)
    /\ map_get p1 (tool_use_id r) = None
    /\ processEntry line m filePath p1 = (Val tt, p1, []).
Proof.
  intros U HP HR.
  rewrite (processEntry_result line n filePath p HP HR).
  destruct (map_get p (tool_use_id r)) as [cmd|] eqn:G.
  - eexists _, _. split; [reflexivity|].
    assert (D : map_get (map_delete (tool_use_id r) p) (tool_use_id r) = None)
      by (apply map_get_delete_same; assumption).
    split; [assumption|].
    rewrite (processEntry_result line m filePath _ HP HR), D. reflexivity.
  - eexists _, _. split; [reflexivity|]. split; [assumption|].
    rewrite (processEntry_result line m filePath _ HP HR), G. reflexivity.
Qed.

Lemma map_set_size_same (p : pending) (k : json) (c : ClaudeCommand) :
  map_get p k <> None -> map_size (map_set k c p) = map_size p.
Proof.
  unfold map_size. intros H. f_equal.
  induction p as [|[k0 v0] r IH]; simpl in *; [congruence|].
  destruct (same_value_zero k0 k); simpl; [reflexivity|].
  rewrite IH by assumption. reflexivity.
Qed.

(** X10.  Last write wins: a second Bash tool use under an identifier
    that is still pending takes the place of the first.  Neither line
    yields anything, the table keeps its size, and the identifier now
    stands for the second command: the first one will never be
    yielded. *)
Theorem reused_identifier_overwrites
  (use1 use2 : jsstring) (entry1 entry2 : json) (cmd1 cmd2 : ClaudeCommand)
  (id : jsstring) (n m : N) (filePath : jsstring) (p : pending) :
  JSON_parse use1 = Some entry1 ->
  extractBashCommand entry1 = Val (Some cmd1) ->
  extractToolUseId entry1 = Val (Some (JStr id)) ->
  JSON_parse use2 = Some entry2 ->
  extractBashCommand entry2 = Val (Some cmd2) ->
  extractToolUseId entry2 = Val (Some (JStr id)) ->
  exists p1 p2,
    processEntry use1 n filePath p = (Val tt, p1, [])
    /\ processEntry use2 m filePath p1 = (Val tt, p2, [])
    /\ map_get p2 (JStr id) = Some cmd2
    /\ map_size p2 = map_size p1
    /\ (forall k, same_value_zero (JStr id) k = false ->
                  map_get p2 k = map_get p k).
Proof.
  intros P1 B1 I1 P2 B2 I2.
  assert (SV : same_value_zero (JStr id) (JStr id) = true)
    by (simpl; apply eqb_refl).
  exists (map_set (JStr id) cmd1 p), (map_set (JStr id) cmd2 (map_set (JStr id) cmd1 p)).
  split; [eapply processEntry_store; eassumption|].
  split; [eapply processEntry_store; eassumption|].
  split; [apply map_get_set_same; assumption|].
  split.
  - apply map_set_size_same. rewrite map_get_set_same by assumption. discriminate.
  - intros k K. rewrite !map_get_set_other by assumption. reflexivity.
Qed.

(* ================================================================== *)
(** ** More on the line loop *)
(* ================================================================== *)

(** X11.  A readable file none of whose lines reaches the decoder
    (each is blank or carries no marker) adds nothing of its own,
    malformed lines included: it logs nothing, and all it yields is the
    commands that were pending when it was opened, flushed at its end
    with their [success] set to true.  Read by a new parser, whose
    table is empty, its stream is empty. *)
Theorem unmarked_lines_are_silent
  (filePath : jsstring) (ls : list jsstring) (p : pending) :
  Forall (fun l => reaches_decoder l = false) ls ->
  (exists flushed,
      createFileStream filePath {| lines := ls; fails := false |} p
      = (Val tt, [], map Yield flushed)
      /\ flushed = map (fun c => set_success c true) (map_values p)
      /\ Forall (fun c => success c = Some true) flushed)
  /\ file_stream filePath {| lines := ls; fails := false |} = [].
Proof.
  intros H.
  assert (E : forall q,
            createFileStream filePath {| lines := ls; fails := false |} q
            = (Val tt, [], flush_trace q)).
  { intros q.
    erewrite createFileStream_run
      by (apply processLines_from_skipped; exact H).
    reflexivity. }
  split.
  - exists (map (fun c => set_success c true) (map_values p)).
    split; [|split; [reflexivity|]].
    + rewrite E. unfold flush_trace, map_values. rewrite !map_map. reflexivity.
    + apply Forall_forall. intros c I. apply in_map_iff in I.
      destruct I as (c0 & <- & _). reflexivity.
  - unfold file_stream. rewrite E. reflexivity.
Qed.

Lemma white_lex_top (c : char) :
  is_white c = true -> lex_top c = Some (MTop, []) \/ lex_top c = None.
Proof.
  intros W. unfold lex_top.
  destruct ((c =? 9) || (c =? 10) || (c =? 13) || (c =? 32)); [left; reflexivity|].
  assert (K : forall k, is_white k = false -> (c =? k) = false).
  { intros k Hk. destruct (N.eqb_spec c k); [subst; congruence|reflexivity]. }
  rewrite !K by reflexivity.
  assert (D : is_digit c = false).
  { unfold is_digit. destruct (48 <=? c) eqn:A; [|reflexivity].
    destruct (c <=? 57) eqn:B; [|reflexivity].
    apply N.leb_le in A. apply N.leb_le in B. exfalso.
    unfold is_white, is_line_terminator in W.
    repeat (apply orb_true_iff in W; destruct W as [W|W]);
      try (apply N.eqb_eq in W; lia).
    apply andb_true_iff in W. destruct W as [W1 W2]. apply N.leb_le in W1. lia. }
  rewrite D. right. reflexivity.
Qed.

Lemma blank_lex (s : jsstring) :
  blank s -> lex_from MTop s = Some [] \/ lex_from MTop s = None.
Proof.
  induction 1 as [|c r W _ IH]; [left; reflexivity|].
  simpl. destruct (white_lex_top c W) as [-> | ->]; [|right; reflexivity].
  destruct IH as [-> | ->]; [left|right]; reflexivity.
Qed.

(** X12.  A line that [trim] empties never decodes: the guard on blank
    lines drops no entry, it only spares the diagnostic that
    [JSON.parse] would have caused. *)
Theorem blank_line_never_decodes (line : jsstring) :
  nonempty (trim line) = false -> JSON_parse line = None.
Proof.
  intros H. assert (B : blank line).
  { apply trim_nil. destruct (trim line); [reflexivity|discriminate]. }
  unfold JSON_parse, lex.
  destruct (blank_lex B) as [-> | ->]; reflexivity.
Qed.

(** X13.  On a line that reaches the decoder and brings the count to a
    multiple of 100, the cleanup is all or nothing: a table of more
    than 100 commands is emptied, every command (the one the line may
    have stored as well) being yielded as a success; a table of at
    most 100 is left alone. *)
Theorem cleanup_is_all_or_nothing
  (line : jsstring) (n e : N) (filePath : jsstring) (p : pending) :
  reaches_decoder line = true ->
  e mod maxPendingEntries = 0 ->
  exists p1 t1,
    processEntry line n filePath p = (Val tt, p1, t1)
    /\ processLine line n e filePath p
       = if maxPendingEntries <? map_size p1
         then (Val tt, [], t1 ++ flush_trace p1)
         else (Val tt, p1, t1).
Proof.
  intros R Z. destruct (processEntry_step line n filePath p) as (p1 & t1 & E & _).
  exists p1, t1. split; [assumption|].
  rewrite processLine_reach by assumption. unfold bind. rewrite E.
  apply N.eqb_eq in Z. rewrite Z, cleanupOldPendingCommands_run.
  destruct (maxPendingEntries <? map_size p1); [reflexivity|].
  rewrite app_nil_r. reflexivity.
Qed.

(* ================================================================== *)
(** ** More on the project stream *)
(* ================================================================== *)

Lemma for_each_file_total (l : list file_stat) (p : pending) :
  exists p' t, for_each_file l p = (Val tt, p', t).
Proof.
  revert p; induction l as [|f r IH]; intros p.
  - exists p, []. reflexivity.
  - simpl. unfold bind.
    destruct (createFileStream_total (path f) (reader f) p) as (p1 & t1 & ->).
    destruct (IH p1) as (p2 & t2 & ->). eexists _, _. reflexivity.
Qed.

Section ProjectMore.
Variable join_path : jsstring -> jsstring -> jsstring.


Lemma stat_all_failure projectPath (l : list dir_entry) (e : dir_entry) :
  In e l -> stat_mtime e = None ->
  stat_all join_path projectPath l = Throw ReadError.
Proof.
  induction l as [|x r IH]; [intros []|].
  intros [->|I] S; simpl.
  - rewrite S. reflexivity.
  - destruct (stat_mtime x); [|reflexivity].
    rewrite (IH I S). reflexivity.
Qed.

(** X14.  [createProjectStream] never throws.  When [readdir] fails,
    or when [stat] fails on one [.jsonl] file, it yields no command at
    all, logs one diagnostic for the directory and leaves the pending
    table alone: one file that cannot be examined hides the whole
    project. *)
Theorem createProjectStream_failures
  (projectPath : jsstring) (readdir : option (list dir_entry)) (p : pending) :
  (exists p' t,
      createProjectStream join_path projectPath readdir p = (Val tt, p', t))
  /\ (readdir = None ->
      createProjectStream join_path projectPath readdir p
      = (Val tt, p, [ConsoleError (ErrorReadingProjectDirectory projectPath)]))
  /\ (forall files e,
        readdir = Some files -> In e files -> is_log e = true ->
        stat_mtime e = None ->
        createProjectStream join_path projectPath readdir p
        = (Val tt, p, [ConsoleError (ErrorReadingProjectDirectory projectPath)])).
Proof.
  split; [|split].
  - unfold createProjectStream, try_catch, bind, lift, console_error.
    destruct readdir as [files|]; [|eexists _, _; reflexivity].
    destruct (stat_all join_path projectPath _) as [stats|e];
      [|eexists _, _; reflexivity].
    destruct (for_each_file_total (sort_by_mtime stats) p) as (p' & t & ->).
    eexists _, _. reflexivity.
  - intros ->. reflexivity.
  - intros files e -> I L S.
    unfold createProjectStream, try_catch, bind, lift, console_error.
    rewrite (@stat_all_failure projectPath _ e); [reflexivity| |assumption].
    apply filter_In. split; assumption.
Qed.

Lemma filter_filter (A : Type) (f : A -> bool) (l : list A) :
  filter f (filter f l) = filter f l.
Proof.
  induction l as [|x r IH]; [reflexivity|].
  simpl. destruct (f x) eqn:E; simpl; [rewrite E, IH|]; auto.
Qed.

(** X15.  Directory entries whose name does not end in [.jsonl] play
    no part: they are neither examined nor read, and leaving them out
    of the listing changes nothing. *)
Theorem createProjectStream_only_logs
  (projectPath : jsstring) (files : list dir_entry) (p : pending) :
  createProjectStream join_path projectPath (Some files) p
  = createProjectStream join_path projectPath (Some (filter is_log files)) p.
Proof.
  unfold createProjectStream, try_catch, bind, lift.
  unfold is_log. rewrite filter_filter. reflexivity.
Qed.

End ProjectMore.

(** X16.  A file whose read fails does not stop the project: what its
    lines yielded stays yielded, one diagnostic names the file, and the
    following files are streamed.  The table is not flushed, so the
    commands the failed file left pending wait in the table the next
    file starts with. *)
Theorem failed_file_is_not_flushed
  (f : file_stat) (rest : list file_stat) (p : pending) :
  fails (reader f) = true ->
  exists p1 t1 p2 t2,
    processLines_from 0 0 (lines (reader f)) (path f) p = (Val tt, p1, t1)
    /\ for_each_file rest p1 = (Val tt, p2, t2)
    /\ for_each_file (f :: rest) p
       = (Val tt, p2, t1 ++ ConsoleError (ErrorReadingFile (path f)) :: t2).
Proof.
  intros F.
  destruct (processLines_from_total (path f) (lines (reader f)) 0 0 p)
    as (p1 & t1 & E).
  destruct (for_each_file_total rest p1) as (p2 & t2 & R).
  exists p1, t1, p2, t2. split; [assumption|]. split; [assumption|].
  simpl. unfold bind.
  rewrite (@createFileStream_run (path f) (reader f) p p1 t1 E), F, R.
  rewrite <- app_assoc. reflexivity.
Qed.

(* ================================================================== *)
(** ** What every yielded command satisfies *)
(* ================================================================== *)

Section CommandInvariant.

(** A property of commands that every new command has and that
    setting [success] keeps. *)
Variable P : ClaudeCommand -> Prop.
Hypothesis P_new :
  forall block entry src c, createClaudeCommand block entry src = Some c -> P c.
Hypothesis P_success : forall c b, P c -> P (set_success c b).


Lemma extractBashCommand_P (entry : json) (cmd : ClaudeCommand) :
  extractBashCommand entry = Val (Some cmd) -> P cmd.
Proof.
  unfold extractBashCommand.
  destruct (get (Some entry) (lit "type")) as [ty|e]; cbn [res_bind]; [|discriminate].
  destruct (negb _ || negb _); [discriminate|].
  destruct (findBashToolBlock (message_content entry)) as [[block|]|e];
    cbn [res_bind]; try discriminate.
  destruct (truthy block); [|discriminate].
  intros H. injection H as H. eapply P_new; eassumption.
Qed.

Lemma extractUserCommand_P (entry : json) (cmd : ClaudeCommand) :
  extractUserCommand entry = Val (Some cmd) -> P cmd.
Proof.
  unfold extractUserCommand.
  destruct (get (Some entry) (lit "type")) as [ty|e]; cbn [res_bind]; [|discriminate].
  destruct (negb _ || negb _); [discriminate|].
  destruct (message_content entry) as [[| | |s| |]|]; try discriminate.
  destruct (findUserCommand s) as [c|]; [|discriminate].
  destruct (nonempty c); [|discriminate].
  intros H. injection H as H. eapply P_new; eassumption.
Qed.

Lemma table_of_set (p : pending) k c :
  P c -> table_of P p -> table_of P (map_set k c p).
Proof.
  intros A. unfold table_of.
  induction p as [|[k0 v0] r IH]; simpl; intros H.
  - constructor; [assumption|constructor].
  - inversion H; subst.
    destruct (same_value_zero k0 k); constructor; auto.
Qed.

Lemma table_of_delete (p : pending) k : table_of P p -> table_of P (map_delete k p).
Proof.
  unfold table_of.
  induction p as [|[k0 v0] r IH]; simpl; intros H; [constructor|].
  inversion H; subst.
  destruct (same_value_zero k0 k); [assumption|constructor; auto].
Qed.

Lemma table_of_get (p : pending) k c : table_of P p -> map_get p k = Some c -> P c.
Proof.
  unfold table_of.
  induction p as [|[k0 v0] r IH]; simpl; intros H; [discriminate|].
  inversion H; subst.
  destruct (same_value_zero k0 k); [|auto].
  intros E. injection E as <-. assumption.
Qed.

Lemma flush_trace_P (p : pending) :
  table_of P p -> Forall (yields_only P) (flush_trace p).
Proof.
  unfold table_of, flush_trace. intros H. apply Forall_forall. intros e I.
  apply in_map_iff in I. destruct I as [kc [<- I]].
  simpl. apply P_success. revert kc I. apply Forall_forall. assumption.
Qed.

Lemma entry_step_P line n f (p p' : pending) t :
  entry_step line n f p p' t -> table_of P p ->
  table_of P p' /\ Forall (yields_only P) t.
Proof.
  intros S T. destruct S.
  - split; [assumption|]. repeat constructor.
  - split; [|constructor]. apply table_of_set; [|assumption].
    eapply extractBashCommand_P; eassumption.
  - split; [assumption|]. constructor; [|constructor].
    simpl. apply P_success. eapply extractBashCommand_P; eassumption.
  - split; [apply table_of_delete; assumption|].
    constructor; [|constructor]. simpl. apply P_success.
    eapply table_of_get; eassumption.
  - split; [assumption|constructor].
  - split; [assumption|]. constructor; [|constructor].
    simpl. apply P_success. eapply extractUserCommand_P; eassumption.
  - split; [assumption|constructor].
Qed.

Lemma processLines_from_P f ls n e (p p' : pending) t :
  processLines_from n e ls f p = (Val tt, p', t) -> table_of P p ->
  table_of P p' /\ Forall (yields_only P) t.
Proof.
  revert n e p t; induction ls as [|line rest IH]; intros n e p t H T.
  - simpl in H. unfold ret in H. injection H as <- <-.
    split; [assumption|constructor].
  - simpl in H. unfold bind in H.
    destruct (processLine_cases f line (n + 1) (e + 1) p) as (p1 & t1 & E & C).
    rewrite E in H.
    destruct (processLines_from_total f rest (n + 1) (e + 1) p1) as (p2 & t2 & E2).
    rewrite E2 in H. injection H as <- <-.
    assert (T1 : table_of P p1 /\ Forall (yields_only P) t1).
    { destruct C as [[-> ->]|(q & u & S & C)]; [split; [assumption|constructor]|].
      destruct (entry_step_P S T) as [A B].
      destruct C as [[-> ->]|(_ & -> & ->)]; [split; assumption|].
      split; [constructor|]. apply Forall_app. split; [assumption|].
      apply flush_trace_P. assumption. }
    destruct T1 as [A B]. destruct (IH (n + 1) (e + 1) p1 t2 E2 A) as [A2 B2].
    split; [assumption|]. apply Forall_app. split; assumption.
Qed.

Lemma createFileStream_P f (rl : readline) (p p' : pending) t :
  createFileStream f rl p = (Val tt, p', t) -> table_of P p ->
  table_of P p' /\ Forall (yields_only P) t.
Proof.
  destruct (processLines_from_total f (lines rl) 0 0 p) as (p1 & t1 & E).
  rewrite (@createFileStream_run f rl p p1 t1 E).
  intros H T. destruct (@processLines_from_P f (lines rl) 0 0 p p1 t1 E T) as [A B].
  destruct (fails rl); injection H as <- <-.
  - split; [assumption|]. apply Forall_app. split; [assumption|].
    repeat constructor.
  - split; [constructor|]. apply Forall_app. split; [assumption|].
    apply flush_trace_P. assumption.
Qed.

Lemma for_each_file_P (l : list file_stat) (p p' : pending) t :
  for_each_file l p = (Val tt, p', t) -> table_of P p ->
  table_of P p' /\ Forall (yields_only P) t.
Proof.
  revert p t; induction l as [|f r IH]; intros p t H T.
  - simpl in H. unfold ret in H. injection H as <- <-.
    split; [assumption|constructor].
  - simpl in H. unfold bind in H.
    destruct (createFileStream_total (path f) (reader f) p) as (p1 & t1 & E).
    rewrite E in H.
    destruct (for_each_file_total r p1) as (p2 & t2 & E2).
    rewrite E2 in H. injection H as <- <-.
    destruct (@createFileStream_P (path f) (reader f) p p1 t1 E T) as [A B].
    destruct (IH p1 t2 E2 A) as [A2 B2].
    split; [assumption|]. apply Forall_app. split; assumption.
Qed.

Lemma createResilientCommandStream_P join_path projectPath readdir :
  Forall (yields_only P)
    (createResilientCommandStream join_path projectPath readdir).
Proof.
  unfold createResilientCommandStream, createProjectStream, try_catch, bind,
    lift, console_error.
  destruct readdir as [files|]; [|repeat constructor].
  destruct (stat_all join_path projectPath _) as [stats|e];
    [|repeat constructor].
  destruct (for_each_file_total (sort_by_mtime stats) []) as (p' & t & E).
  rewrite E. simpl. apply (@for_each_file_P (sort_by_mtime stats) [] p' t E). constructor.
Qed.

Lemma yields_only_commands (t : list event) (c : ClaudeCommand) :
  Forall (yields_only P) t -> In c (commands t) -> P c.
Proof.
  induction t as [|[c0|d] r IH]; simpl; intros H; [tauto| |];
    inversion H; subst.
  - intros [<-|I]; [assumption|auto].
  - auto.
Qed.

End CommandInvariant.

Lemma createClaudeCommand_text (block entry : json) (src : command_source)
  (c : ClaudeCommand) :
  createClaudeCommand block entry src = Some c ->
  exists text, command c = normalizeBashCommand text.
Proof.
  unfold createClaudeCommand.
  destruct (get (Some block) (lit "input")) as [input|e]; cbn [res_bind]; [|discriminate].
  destruct (negb (truthy_val (get_opt input (lit "command")))); [discriminate|].
  destruct (entry_timestamp entry) as [ts|e]; cbn [res_bind]; [|discriminate].
  destruct (get_opt input (lit "command")) as [[| | |s| |]|];
    cbn [res_bind]; try discriminate.
  intros H. injection H as <-. exists s. reflexivity.
Qed.

(** X17.  Every command of the project stream has a text on one line,
    with no line feed and no white space at either end: what
    [createClaudeCommand] writes is normalised, and nothing changes it
    afterwards. *)
Theorem project_stream_commands_are_one_line
  (join_path : jsstring -> jsstring -> jsstring) (projectPath : jsstring)
  (readdir : option (list dir_entry)) (c : ClaudeCommand) :
  In c (commands (createResilientCommandStream join_path projectPath readdir)) ->
  one_line c.
Proof.
  apply (@yields_only_commands one_line).
  apply createResilientCommandStream_P.
  - intros block entry src c0 H.
    destruct (createClaudeCommand_text _ _ _ H) as [text E].
    unfold one_line. rewrite E. apply normalizeBashCommand_one_line.
  - intros c0 b H. exact H.
Qed.

Lemma for_each_file_resolved (l : list file_stat) (p p' : pending) t :
  for_each_file l p = (Val tt, p', t) -> all_awaiting p ->
  all_awaiting p' /\ Forall resolved_event t.
Proof.
  revert p t; induction l as [|f r IH]; intros p t H T.
  - simpl in H. unfold ret in H. injection H as <- <-.
    split; [assumption|constructor].
  - simpl in H. unfold bind in H.
    destruct (createFileStream_total (path f) (reader f) p) as (p1 & t1 & E).
    rewrite E in H.
    destruct (for_each_file_total r p1) as (p2 & t2 & E2).
    rewrite E2 in H. injection H as <- <-.
    destruct (@createFileStream_invariant (path f) (reader f) p p1 t1 E T) as [A B].
    destruct (IH p1 t2 E2 A) as [A2 B2].
    split; [assumption|]. apply Forall_app. split; assumption.
Qed.

(** X18.  Every command of the project stream has its [success] set
    when it is yielded, whatever the files hold and whichever reads
    fail; a command of source [user] always has it true, and a command
    yielded with [success] false is of source [bash]. *)
Theorem project_stream_commands_are_settled
  (join_path : jsstring -> jsstring -> jsstring) (projectPath : jsstring)
  (readdir : option (list dir_entry)) (c : ClaudeCommand) :
  In c (commands (createResilientCommandStream join_path projectPath readdir)) ->
  success c <> None
  /\ (source c = user -> success c = Some true)
  /\ (success c = Some false -> source c = bash).
Proof.
  intros I.
  assert (R : Forall resolved_event
                (createResilientCommandStream join_path projectPath readdir)).
  { unfold createResilientCommandStream, createProjectStream, try_catch, bind,
      lift, console_error.
    destruct readdir as [files|]; [|repeat constructor].
    destruct (stat_all join_path projectPath _) as [stats|e];
      [|repeat constructor].
    destruct (for_each_file_total (sort_by_mtime stats) []) as (p' & t & E).
    rewrite E. simpl. apply (@for_each_file_resolved (sort_by_mtime stats) [] p' t E). constructor. }
  destruct (resolved_commands c R I) as [A B].
  split; [assumption|]. split; [assumption|].
  intros F. destruct (source c); [reflexivity|].
  rewrite (B eq_refl) in F. discriminate F.
Qed.

(* ================================================================== *)
(** ** Project root discovery *)
(* ================================================================== *)

Lemma scan_cwd_first (maxLines : nat) (ls : list jsstring) (lineCount : nat) :
  scan_cwd lineCount maxLines ls
  = match first_cwd_line (firstn (maxLines - lineCount) ls) with
    | Some v => CwdFound v
    | None => if (List.length ls <=? maxLines - lineCount)%nat
              then CwdExhausted else CwdStopped
    end.
Proof.
  revert lineCount; induction ls as [|line rest IH]; intros k.
  - rewrite firstn_nil. reflexivity.
  - cbn [scan_cwd]. destruct (maxLines <? k + 1)%nat eqn:C.
    + apply Nat.ltb_lt in C.
      replace (maxLines - k)%nat with 0%nat by lia. reflexivity.
    + apply Nat.ltb_ge in C.
      replace (maxLines - k)%nat with (S (maxLines - (k + 1)))%nat by lia.
      cbn [firstn first_cwd_line List.length].
      destruct (line_cwd line) as [v|]; [reflexivity|].
      rewrite IH. reflexivity.
Qed.

(** X19.  [extractCwdFromFile] looks at the first [maxLines] lines only
    and settles to the working directory of the first of them that
    decodes to an entry with a truthy [cwd]; lines that do not decode
    are passed over.  With no such line it settles to null, except when
    the file has at most [maxLines] lines and its stream fails: then
    the loop meets the failure and the promise is rejected.  When the
    loop has been left by [return] or by [break] a failure of the
    stream is not caught by the function: the promise settles as said
    and the error is left stray. *)
Theorem extractCwdFromFile_first_lines (rl : readline) (maxLines : nat) :
  extractCwdFromFile rl maxLines
  = match first_cwd_line (firstn maxLines (lines rl)) with
    | Some v => {| settled := Val (Some v); stray_error := fails rl |}
    | None =>
        if (List.length (lines rl) <=? maxLines)%nat
        then {| settled := if fails rl then Throw ReadError else Val None;
                stray_error := false |}
        else {| settled := Val None; stray_error := fails rl |}
    end.
Proof.
  unfold extractCwdFromFile. rewrite scan_cwd_first, Nat.sub_0_r.
  destruct (first_cwd_line _); [reflexivity|].
  destruct (List.length (lines rl) <=? maxLines)%nat; reflexivity.
Qed.

Lemma line_cwd_sound (line : jsstring) (v : json) :
  line_cwd line = Some v ->
  exists entry, JSON_parse line = Some entry
    /\ prop entry (lit "cwd") = Some v /\ truthy v = true.
Proof.
  unfold line_cwd. destruct (JSON_parse line) as [entry|]; [|discriminate].
  destruct entry; cbn [get]; try discriminate;
    match goal with
    | |- context [prop ?e ?k] =>
        destruct (prop e k) as [w|] eqn:E; [|discriminate];
        destruct (truthy w) eqn:T; [|discriminate];
        intros H; injection H as <-; eexists; repeat split; eassumption
    end.
Qed.

Lemma first_cwd_line_sound (ls : list jsstring) (v : json) :
  first_cwd_line ls = Some v ->
  exists line, In line ls /\ line_cwd line = Some v.
Proof.
  induction ls as [|line rest IH]; simpl; [discriminate|].
  destruct (line_cwd line) as [w|] eqn:E.
  - intros H. injection H as <-. exists line. auto.
  - intros H. destruct (IH H) as (l & I & L). exists l. auto.
Qed.

Lemma first_cwd_line_truthy (ls : list jsstring) (v : json) :
  first_cwd_line ls = Some v -> truthy v = true.
Proof.
  intros H. destruct (first_cwd_line_sound _ H) as (l & _ & C).
  destruct (line_cwd_sound _ C) as (_ & _ & _ & T). exact T.
Qed.

(** One turn of the loop of [extractProjectRoot]. *)
Lemma first_cwd_cons (e : dir_entry) (r : list dir_entry) :
  first_cwd (e :: r)
  = match first_cwd_line (firstn default_maxLines (lines (content e))) with
    | Some v => {| root := Some v; stray := fails (content e) |}
    | None => and_stray (fails_late (content e) default_maxLines) (first_cwd r)
    end.
Proof.
  cbn [first_cwd]. rewrite extractCwdFromFile_first_lines.
  destruct (first_cwd_line _) as [v|] eqn:F.
  - cbn [settled stray_error]. rewrite (first_cwd_line_truthy _ F). reflexivity.
  - unfold fails_late.
    rewrite Nat.ltb_antisym.
    destruct (List.length (lines (content e)) <=? default_maxLines)%nat;
      cbn [settled stray_error negb].
    + rewrite andb_false_r. destruct (fails (content e)); reflexivity.
    + rewrite andb_true_r. reflexivity.
Qed.

Lemma first_cwd_sound (files : list dir_entry) (v : json) :
  root (first_cwd files) = Some v ->
  exists e, In e files
    /\ first_cwd_line (firstn default_maxLines (lines (content e))) = Some v.
Proof.
  induction files as [|e r IH]; [discriminate|].
  rewrite first_cwd_cons.
  destruct (first_cwd_line _) as [w|] eqn:E.
  - cbn [root]. intros H. injection H as <-. exists e. split; [left; reflexivity|exact E].
  - cbn [and_stray root]. intros H.
    destruct (IH H) as (e' & I & F). exists e'. split; [right; exact I|exact F].
Qed.

(** X20.  A project root that [extractProjectRoot] returns is the
    truthy [cwd] of an entry decoded from one of the first ten lines of
    a file of the directory whose name ends in [.jsonl]. *)
Theorem extractProjectRoot_sound
  (readdir : option (list dir_entry)) (v : json) :
  root (extractProjectRoot readdir) = Some v ->
  exists files e line entry,
    readdir = Some files
    /\ In e files /\ is_log e = true
    /\ In line (firstn 10 (lines (content e)))
    /\ JSON_parse line = Some entry
    /\ prop entry (lit "cwd") = Some v
    /\ truthy v = true.
Proof.
  unfold extractProjectRoot. destruct readdir as [files|]; [|discriminate].
  intros H. destruct (first_cwd_sound _ H) as (e & I & F).
  apply filter_In in I. destruct I as [I L].
  destruct (first_cwd_line_sound _ F) as (line & IL & C).
  destruct (line_cwd_sound _ C) as (entry & J & Q & T).
  exists files, e, line, entry. repeat split; assumption.
Qed.

Lemma first_cwd_app (before after : list dir_entry) :
  Forall (fun e =>
    first_cwd_line (firstn default_maxLines (lines (content e))) = None) before ->
  first_cwd (before ++ after)
  = and_stray (existsb (fun e => fails_late (content e) default_maxLines) before)
      (first_cwd after).
Proof.
  induction 1 as [|e r N _ IH].
  - change ([] ++ after) with after.
    destruct (first_cwd after). reflexivity.
  - change ((e :: r) ++ after) with (e :: r ++ after).
    rewrite first_cwd_cons, N, IH. unfold and_stray. cbn [root stray existsb].
    rewrite orb_assoc. reflexivity.
Qed.

Lemma existsb_none (A : Type) (f : A -> bool) (l : list A) :
  Forall (fun x => f x = false) l -> existsb f l = false.
Proof.
  induction 1 as [|x r H _ IH]; [reflexivity|].
  cbn [existsb]. rewrite H, IH. reflexivity.
Qed.

(** X21.  [extractProjectRoot] returns the answer of the first
    [.jsonl] file, in the order of the directory listing, that tells a
    working directory in its first ten lines.  The files listed before
    it are passed over, whether they were read to their end or their
    stream failed within the first ten lines (the rejection is caught),
    and what is listed after it is not looked at.  The only error that
    can be left stray is one of the stream of the answering file, which
    is closed at the [return].  (A file listed before whose stream
    fails behind its tenth line is outside this statement: its error is
    not caught.) *)
Theorem extractProjectRoot_first_file
  (files before after : list dir_entry) (e : dir_entry) (v : json) :
  filter is_log files = before ++ e :: after ->
  Forall (fun e' =>
    first_cwd_line (firstn 10 (lines (content e'))) = None) before ->
  Forall (fun e' => fails_late (content e') 10 = false) before ->
  first_cwd_line (firstn 10 (lines (content e))) = Some v ->
  extractProjectRoot (Some files)
  = {| root := Some v; stray := fails (content e) |}.
Proof.
  intros F N L H. unfold extractProjectRoot.
  change (filter (fun e0 => endsWith (name e0) (lit ".jsonl")) files)
    with (filter is_log files).
  rewrite F, (first_cwd_app _ N), first_cwd_cons.
  change default_maxLines with 10%nat. rewrite H, (existsb_none _ L).
  reflexivity.
Qed.

(** X22.  When no [.jsonl] file of the directory tells a working
    directory in its first ten lines and no stream fails behind its
    tenth line, [extractProjectRoot] returns null and leaves no error
    behind: the files that were read to their end and the files whose
    stream failed within the first ten lines are passed over alike. *)
Theorem extractProjectRoot_none (files : list dir_entry) :
  Forall (fun e =>
    first_cwd_line (firstn 10 (lines (content e))) = None)
    (filter is_log files) ->
  Forall (fun e => fails_late (content e) 10 = false) (filter is_log files) ->
  extractProjectRoot (Some files) = {| root := None; stray := false |}.
Proof.
  intros H L. unfold extractProjectRoot.
  change (filter (fun e0 => endsWith (name e0) (lit ".jsonl")) files)
    with (filter is_log files).
  rewrite <- (app_nil_r (filter is_log files)).
  rewrite (first_cwd_app _ H).
  change default_maxLines with 10%nat. rewrite (existsb_none _ L).
  reflexivity.
Qed.

(* ================================================================== *)
(** ** Diagnostics *)
(* ================================================================== *)

Lemma get_throws (v : value) (k : jsstring) (e : error) :
  get v k = Throw e -> e = TypeError.
Proof. destruct v as [[]|]; simpl; congruence. Qed.

Lemma find_throws (t : json -> res bool) (items : list json) (e : error) :
  (forall x e', t x = Throw e' -> e' = TypeError) ->
  find t items = Throw e -> e = TypeError.
Proof.
  intros T. induction items as [|x r IH]; simpl; [discriminate|].
  destruct (t x) as [[|]|e'] eqn:E; [discriminate|exact IH|].
  intros H. injection H as <-. eapply T; eassumption.
Qed.

Lemma call_find_throws (content : value) (t : json -> res bool) (e : error) :
  (forall x e', t x = Throw e' -> e' = TypeError) ->
  call_find content t = Throw e -> e = TypeError.
Proof.
  intros T. destruct content as [[| | | |items|]|]; simpl; try congruence.
  apply find_throws. exact T.
Qed.

Lemma bash_test_throws (block : json) (e : error) :
  bash_test block = Throw e -> e = TypeError.
Proof.
  unfold bash_test.
  destruct (get (Some block) (lit "type")) as [ty|e1] eqn:E1; cbn [res_bind].
  - destruct (is_string ty (lit "tool_use")); [|discriminate].
    destruct (get (Some block) (lit "name")) as [nm|e2] eqn:E2; cbn [res_bind];
      [discriminate|].
    intros H. injection H as <-. eapply get_throws; eassumption.
  - intros H. injection H as <-. eapply get_throws; eassumption.
Qed.

Lemma result_test_throws (block : json) (e : error) :
  result_test block = Throw e -> e = TypeError.
Proof.
  unfold result_test.
  destruct (get (Some block) (lit "type")) as [ty|e1] eqn:E1; cbn [res_bind].
  - destruct (is_string ty (lit "tool_result")); [|discriminate].
    destruct (get (Some block) (lit "tool_use_id")) as [nm|e2] eqn:E2;
      cbn [res_bind]; [discriminate|].
    intros H. injection H as <-. eapply get_throws; eassumption.
  - intros H. injection H as <-. eapply get_throws; eassumption.
Qed.

Lemma findBashToolBlock_throws (content : value) (e : error) :
  findBashToolBlock content = Throw e -> e = TypeError.
Proof.
  change (findBashToolBlock content) with (call_find content bash_test).
  apply call_find_throws. exact bash_test_throws.
Qed.

Lemma extractBashCommand_throws (entry : json) (e : error) :
  extractBashCommand entry = Throw e -> e = TypeError.
Proof.
  unfold extractBashCommand.
  destruct (get (Some entry) (lit "type")) as [ty|e1] eqn:E1; cbn [res_bind].
  2:{ intros H. injection H as <-. eapply get_throws; eassumption. }
  destruct (negb _ || negb _); [discriminate|].
  destruct (findBashToolBlock (message_content entry)) as [[block|]|e2] eqn:E2;
    cbn [res_bind].
  - destruct (truthy block); discriminate.
  - discriminate.
  - intros H. injection H as <-. eapply findBashToolBlock_throws; eassumption.
Qed.

Lemma extractToolUseId_throws (entry : json) (e : error) :
  extractToolUseId entry = Throw e -> e = TypeError.
Proof.
  unfold extractToolUseId.
  destruct (get (Some entry) (lit "type")) as [ty|e1] eqn:E1; cbn [res_bind].
  2:{ intros H. injection H as <-. eapply get_throws; eassumption. }
  destruct (negb _ || negb _); [discriminate|].
  destruct (findBashToolBlock (message_content entry)) as [b|e2] eqn:E2;
    cbn [res_bind]; [discriminate|].
  intros H. injection H as <-. eapply findBashToolBlock_throws; eassumption.
Qed.

Lemma extractToolResult_throws (entry : json) (e : error) :
  extractToolResult entry = Throw e -> e = TypeError.
Proof.
  unfold extractToolResult.
  destruct (get (Some entry) (lit "type")) as [ty|e1] eqn:E1; cbn [res_bind].
  2:{ intros H. injection H as <-. eapply get_throws; eassumption. }
  destruct (negb _ || negb _); [discriminate|].
  destruct (typeof_string _); [discriminate|].
  change (call_find (message_content entry) _)
    with (call_find (message_content entry) result_test).
  destruct (call_find (message_content entry) result_test) as [b|e2] eqn:E2;
    cbn [res_bind].
  - destruct (get_opt b (lit "tool_use_id")) as [id|]; [|discriminate].
    destruct (truthy id); discriminate.
  - intros H. injection H as <-.
    eapply call_find_throws; [exact result_test_throws|eassumption].
Qed.

Lemma extractUserCommand_throws (entry : json) (e : error) :
  extractUserCommand entry = Throw e -> e = TypeError.
Proof.
  unfold extractUserCommand.
  destruct (get (Some entry) (lit "type")) as [ty|e1] eqn:E1; cbn [res_bind].
  2:{ intros H. injection H as <-. eapply get_throws; eassumption. }
  destruct (negb _ || negb _); [discriminate|].
  destruct (message_content entry) as [[| | |s| |]|]; try discriminate.
  destruct (findUserCommand s) as [c|]; [|discriminate].
  destruct (nonempty c); discriminate.
Qed.

(** The error type that [processEntry] reports for [line]. *)
Lemma processEntry_diagnostic
  (line : jsstring) (lineNumber : N) (filePath : jsstring) (p : pending) :
  exists p' t,
    processEntry line lineNumber filePath p = (Val tt, p', t)
    /\ forall d, In d (diagnostics t) ->
         d = ErrorParsingLine lineNumber filePath (error_type_of line).
Proof.
  unfold error_type_of.
  destruct (JSON_parse line) as [entry|] eqn:HP.
  2:{ eexists _, _. split; [apply processEntry_syntax_error; assumption|].
      simpl. intros d [<-|[]]. reflexivity. }
  assert (U : forall p' t e,
            processEntry line lineNumber filePath p
            = (Val tt, p', t ++
                 [ConsoleError (ErrorParsingLine lineNumber filePath
                    match e with SyntaxError => JSON_syntax | _ => parsing end)]) ->
            t = [] -> e = TypeError ->
            exists p' t,
              processEntry line lineNumber filePath p = (Val tt, p', t)
              /\ forall d, In d (diagnostics t) ->
                   d = ErrorParsingLine lineNumber filePath parsing).
  { intros p' t e E -> ->. eexists _, _. split; [exact E|].
    simpl. intros d [<-|[]]. reflexivity. }
  assert (Q : forall p' t,
            processEntry line lineNumber filePath p = (Val tt, p', t) ->
            diagnostics t = [] ->
            exists p' t,
              processEntry line lineNumber filePath p = (Val tt, p', t)
              /\ forall d, In d (diagnostics t) ->
                   d = ErrorParsingLine lineNumber filePath parsing).
  { intros p' t E D. eexists _, _. split; [exact E|].
    rewrite D. intros d []. }
  destruct (extractBashCommand entry) as [[cmd|]|e] eqn:HB.
  - destruct (extractToolUseId entry) as [[id|]|e] eqn:HI.
    + eapply Q; [eapply processEntry_store; eassumption|reflexivity].
    + eapply Q; [eapply processEntry_immediate; eassumption|reflexivity].
    + eapply (U p [] e); [|reflexivity|eapply extractToolUseId_throws; eassumption].
      unfold processEntry, try_catch, bind, lift, parse_line, yield,
        update_pending, get_pending, console_error, ret.
      rewrite HP, HB, HI. reflexivity.
  - destruct (extractToolResult entry) as [[r|]|e] eqn:HR.
    + pose proof (@processEntry_result line lineNumber filePath p entry r HP HR) as E.
      destruct (map_get p (tool_use_id r)) eqn:G;
        (eapply Q; [exact E|reflexivity]).
    + destruct (extractUserCommand entry) as [[c|]|e] eqn:HU.
      * eapply Q; [eapply processEntry_user; eassumption|reflexivity].
      * apply (Q p []); [|reflexivity].
        unfold processEntry, try_catch, bind, lift, parse_line, yield,
          update_pending, get_pending, console_error, ret.
        rewrite HP, HB, HR, HU. reflexivity.
      * eapply (U p [] e); [|reflexivity|eapply extractUserCommand_throws; eassumption].
        unfold processEntry, try_catch, bind, lift, parse_line, yield,
          update_pending, get_pending, console_error, ret.
        rewrite HP, HB, HR, HU. reflexivity.
    + eapply (U p [] e); [|reflexivity|eapply extractToolResult_throws; eassumption].
      unfold processEntry, try_catch, bind, lift, parse_line, yield,
        update_pending, get_pending, console_error, ret.
      rewrite HP, HB, HR. reflexivity.
  - eapply (U p [] e); [|reflexivity|eapply extractBashCommand_throws; eassumption].
    unfold processEntry, try_catch, bind, lift, parse_line, yield,
      update_pending, get_pending, console_error, ret.
    rewrite HP, HB. reflexivity.
Qed.

Lemma diagnostics_app (t u : list event) :
  diagnostics (t ++ u) = diagnostics t ++ diagnostics u.
Proof.
  induction t as [|[c|d] r IH]; simpl; [reflexivity|assumption|].
  rewrite IH. reflexivity.
Qed.

Lemma diagnostics_flush_trace (p : pending) : diagnostics (flush_trace p) = [].
Proof.
  unfold flush_trace. induction p as [|kc r IH]; simpl; [reflexivity|exact IH].
Qed.

Lemma processLine_diagnostic (line : jsstring) (n e : N) (f : jsstring)
  (p p' : pending) (t : list event) (d : diagnostic) :
  processLine line n e f p = (Val tt, p', t) ->
  In d (diagnostics t) ->
  reaches_decoder line = true
  /\ d = ErrorParsingLine n f (error_type_of line).
Proof.
  destruct (reaches_decoder line) eqn:R.
  2:{ rewrite processLine_skip by assumption. intros H. injection H as <- <-.
      intros []. }
  rewrite processLine_reach by assumption. unfold bind.
  destruct (processEntry_diagnostic line n f p) as (p1 & t1 & -> & D).
  intros H I. split; [reflexivity|]. apply D.
  destruct (e mod maxPendingEntries =? 0).
  - rewrite cleanupOldPendingCommands_run in H.
    destruct (maxPendingEntries <? map_size p1); injection H as <- <-.
    + rewrite diagnostics_app, diagnostics_flush_trace, app_nil_r in I. exact I.
    + rewrite app_nil_r in I. exact I.
  - unfold ret in H. injection H as <- <-. rewrite app_nil_r in I. exact I.
Qed.

Lemma processLines_from_diagnostic (f : jsstring) (ls : list jsstring) (n e : N)
  (p p' : pending) (t : list event) (d : diagnostic) :
  processLines_from n e ls f p = (Val tt, p', t) ->
  In d (diagnostics t) ->
  exists i line,
    nth_error ls i = Some line
    /\ reaches_decoder line = true
    /\ d = ErrorParsingLine (n + N.of_nat i + 1) f (error_type_of line).
Proof.
  revert n e p t; induction ls as [|line rest IH]; intros n e p t H I.
  - simpl in H. unfold ret in H. injection H as <- <-. destruct I.
  - simpl in H. unfold bind in H.
    destruct (processLine_cases f line (n + 1) (e + 1) p) as (p1 & t1 & E & _).
    rewrite E in H.
    destruct (processLines_from_total f rest (n + 1) (e + 1) p1) as (p2 & t2 & E2).
    rewrite E2 in H. injection H as <- <-.
    rewrite diagnostics_app in I. apply in_app_or in I. destruct I as [I|I].
    + destruct (@processLine_diagnostic line (n + 1) (e + 1) f p p1 t1 d E I) as [R ->].
      exists 0%nat, line. split; [reflexivity|]. split; [assumption|].
      f_equal. lia.
    + destruct (IH (n + 1) (e + 1) p1 t2 E2 I) as (i & l & N & R & ->).
      exists (S i), l. split; [exact N|]. split; [assumption|].
      f_equal. lia.
Qed.

(** X23.  Every diagnostic of a file stream names its cause.  A
    diagnostic about a line carries the file's path and the position of
    the line in the file, counted from one over all lines including the
    blank and the filtered ones; the line is one that reached the
    decoder, and the error type is [JSON syntax] exactly when the line
    does not decode.  The one other diagnostic is about the file, and
    comes only when its stream failed. *)
Theorem file_stream_diagnostics_name_the_line
  (f : jsstring) (rl : readline) (d : diagnostic) :
  In d (diagnostics (file_stream f rl)) ->
  (d = ErrorReadingFile f /\ fails rl = true)
  \/ exists i line,
       nth_error (lines rl) i = Some line
       /\ reaches_decoder line = true
       /\ d = ErrorParsingLine (N.of_nat i + 1) f
                (match JSON_parse line with
                 | Some _ => parsing
                 | None => JSON_syntax
                 end).
Proof.
  unfold file_stream.
  destruct (processLines_from_total f (lines rl) 0 0 []) as (p1 & t1 & E).
  rewrite (@createFileStream_run f rl [] p1 t1 E).
  intros I.
  assert (C : In d (diagnostics t1)
              \/ (d = ErrorReadingFile f /\ fails rl = true)).
  { destruct (fails rl); simpl in I; rewrite diagnostics_app in I;
      apply in_app_or in I; destruct I as [I|I]; auto.
    - simpl in I. destruct I as [<-|[]]. auto.
    - rewrite diagnostics_flush_trace in I. destruct I. }
  destruct C as [C|C]; [right|left; exact C].
  destruct (@processLines_from_diagnostic f (lines rl) 0 0 [] p1 t1 d E C) as (i & l & N & R & ->).
  exists i, l. split; [exact N|]. split; [exact R|]. reflexivity.
Qed.

(* ================================================================== *)
(** ** The text of a user command *)
(* ================================================================== *)

Lemma trim_trim (s : jsstring) : trim (trim s) = trim s.
Proof.
  unfold trim at 1. rewrite trimStart_trim. apply trimEnd_trim.
Qed.

(** Normalisation keeps a text that is already on one line and
    trimmed. *)
Lemma normalizeBashCommand_fixed (x : jsstring) :
  ~ In LF x -> trim x = x -> normalizeBashCommand x = x.
Proof.
  intros L T. unfold normalizeBashCommand.
  rewrite (@split_lines_single x L). simpl. rewrite T.
  destruct x; reflexivity.
Qed.

(** X24.  The text of a user command is what [findUserCommand] found,
    unchanged by the normalisation: the trimmed body of the first
    [<bash-input>] tag.  It is never empty, the command has no
    description, and its project path is the [cwd] of the entry. *)
Theorem user_command_text_is_the_tag_body (entry : json) (c : ClaudeCommand) :
  extractUserCommand entry = Val (Some c) ->
  exists content,
    message_content entry = Some (JStr content)
    /\ findUserCommand content = Some (command c)
    /\ command c <> []
    /\ description c = None
    /\ projectPath c = prop entry (lit "cwd").
Proof.
  unfold extractUserCommand.
  destruct (get (Some entry) (lit "type")) as [ty|e]; cbn [res_bind]; [|discriminate].
  destruct (negb _ || negb _); [discriminate|].
  destruct (message_content entry) as [[| | |s| |]|]; try discriminate.
  destruct (findUserCommand s) as [cmd|] eqn:F; [|discriminate].
  destruct (nonempty cmd) eqn:NE; [|discriminate].
  assert (FX : normalizeBashCommand cmd = cmd).
  { unfold findUserCommand in F.
    destruct (bash_input_match s) as [g|] eqn:B; [|discriminate].
    injection F as <-.
    apply normalizeBashCommand_fixed; [|apply trim_trim].
    intros I. apply trim_In in I.
    assert (L : Forall (fun c => is_line_terminator c = false) g).
    { clear - B. revert B.
      induction s as [|a r IH]; rewrite bash_input_match_unfold;
        [discriminate|].
      destruct (startsWith (a :: r) open_tag).
      - destruct (lazy_group (skipn (List.length open_tag) (a :: r)))
          as [g'|] eqn:L.
        + intros H. injection H as <-. eapply lazy_group_sound. exact L.
        + exact IH.
      - exact IH. }
    rewrite Forall_forall in L. specialize (L _ I). discriminate L. }
  unfold createClaudeCommand. cbn [get prop assoc res_bind get_opt].
  change (JsString.eqb (lit "input") (lit "input")) with true.
  cbn [get_opt prop assoc].
  change (JsString.eqb (lit "command") (lit "command")) with true.
  change (JsString.eqb (lit "command") (lit "description")) with false.
  cbn [truthy_val truthy]. rewrite NE. cbn [negb].
  destruct (entry_timestamp entry) as [ts|e]; cbn [res_bind]; [|discriminate].
  intros H. injection H as <-. cbn [command description projectPath].
  exists s. rewrite FX.
  split; [reflexivity|]. split; [exact F|].
  split; [|split; reflexivity].
  destruct cmd; [discriminate NE|discriminate].
Qed.

(* ================================================================== *)
(** ** The size of the pending table *)
(* ================================================================== *)

Lemma map_set_size_le (p : pending) (k : json) (c : ClaudeCommand) :
  map_size (map_set k c p) <= map_size p + 1.
Proof.
  unfold map_size.
  assert (H : (List.length (map_set k c p) <= List.length p + 1)%nat).
  { induction p as [|[k0 v0] r IH]; simpl; [lia|].
    destruct (same_value_zero k0 k); simpl; lia. }
  lia.
Qed.

Lemma map_delete_size_le (p : pending) (k : json) :
  map_size (map_delete k p) <= map_size p.
Proof.
  unfold map_size.
  assert (H : (List.length (map_delete k p) <= List.length p)%nat).
  { induction p as [|[k0 v0] r IH]; simpl; [lia|].
    destruct (same_value_zero k0 k); simpl; lia. }
  lia.
Qed.

Lemma entry_step_size line n f (p p' : pending) t :
  entry_step line n f p p' t -> map_size p' <= map_size p + 1.
Proof.
  intros S. destruct S; try lia.
  - apply map_set_size_le.
  - pose proof (map_delete_size_le p (tool_use_id r)). lia.
Qed.

Lemma count_mod_succ (e : N) :
  (e + 1) mod maxPendingEntries = 0
  \/ (e + 1) mod maxPendingEntries = e mod maxPendingEntries + 1.
Proof.
  unfold maxPendingEntries. rewrite N.Div0.add_mod.
  assert (B : e mod 100 < 100) by (apply N.mod_upper_bound; lia).
  remember (e mod 100) as a eqn:Ea.
  change (1 mod 100) with 1.
  destruct (N.eq_dec a 99) as [->|D]; [left; reflexivity|].
  right. apply N.mod_small. lia.
Qed.

(** Between two checks the table grows by at most one command per
    line, from a level [M] that no check leaves exceeded. *)
Lemma processLines_from_size f (M : N) ls n e (p p' : pending) t :
  maxPendingEntries <= M ->
  Forall (fun l => reaches_decoder l = true) ls ->
  processLines_from n e ls f p = (Val tt, p', t) ->
  map_size p <= M + e mod maxPendingEntries ->
  map_size p' <= M + (e + N.of_nat (List.length ls)) mod maxPendingEntries.
Proof.
  intros HM A. revert n e p t; induction A as [|line rest R _ IH]; intros n e p t H B.
  - simpl in H. unfold ret in H. injection H as <- <-.
    simpl. rewrite N.add_0_r. exact B.
  - simpl in H. unfold bind in H.
    destruct (processLine_cases f line (n + 1) (e + 1) p) as (p1 & t1 & E & C).
    rewrite E in H.
    destruct (processLines_from_total f rest (n + 1) (e + 1) p1) as (p2 & t2 & E2).
    rewrite E2 in H. injection H as <- <-.
    replace (e + N.of_nat (List.length (line :: rest)))
      with (e + 1 + N.of_nat (List.length rest)) by (simpl List.length; lia).
    apply (IH (n + 1) (e + 1) p1 t2 E2).
    destruct (count_mod_succ e) as [Z|Z]; rewrite Z.
    + pose proof (@processLine_bound f line (n + 1) (e + 1) p R Z) as K.
      rewrite E in K. simpl in K. lia.
    + destruct C as [[-> ->]|(q & u & S & C)]; [lia|].
      apply entry_step_size in S.
      destruct C as [[-> ->]|(_ & -> & ->)]; [lia|].
      unfold map_size. simpl. lia.
Qed.

(** Once a hundred lines have been read the level is
    [maxPendingEntries], whatever the table held at the start. *)
Lemma processLines_from_size_late f ls n e (p p' : pending) t :
  Forall (fun l => reaches_decoder l = true) ls ->
  processLines_from n e ls f p = (Val tt, p', t) ->
  (maxPendingEntries <= e ->
   map_size p <= maxPendingEntries + e mod maxPendingEntries) ->
  maxPendingEntries <= e + N.of_nat (List.length ls) ->
  map_size p'
  <= maxPendingEntries + (e + N.of_nat (List.length ls)) mod maxPendingEntries.
Proof.
  intros A. revert n e p t; induction A as [|line rest R _ IH]; intros n e p t H B L.
  - simpl in H. unfold ret in H. injection H as <- <-.
    simpl in *. rewrite N.add_0_r in *. apply B. exact L.
  - simpl in H. unfold bind in H.
    destruct (processLine_cases f line (n + 1) (e + 1) p) as (p1 & t1 & E & C).
    rewrite E in H.
    destruct (processLines_from_total f rest (n + 1) (e + 1) p1) as (p2 & t2 & E2).
    rewrite E2 in H. injection H as <- <-.
    replace (e + N.of_nat (List.length (line :: rest)))
      with (e + 1 + N.of_nat (List.length rest)) in *
      by (simpl List.length; lia).
    apply (IH (n + 1) (e + 1) p1 t2 E2); [|exact L].
    intros L1.
    destruct (count_mod_succ e) as [Z|Z]; rewrite Z.
    + pose proof (@processLine_bound f line (n + 1) (e + 1) p R Z) as K.
      rewrite E in K. simpl in K. lia.
    + assert (Le : maxPendingEntries <= e).
      { destruct (N.eq_dec (e + 1) maxPendingEntries) as [Q|Q].
        - exfalso. rewrite Q in Z. rewrite N.Div0.mod_same in Z.
          remember (e mod maxPendingEntries) as a. lia.
        - lia. }
      specialize (B Le).
      destruct C as [[-> ->]|(q & u & S & C)]; [lia|].
      apply entry_step_size in S.
      destruct C as [[-> ->]|(_ & -> & ->)]; [lia|].
      unfold map_size. simpl. lia.
Qed.

(** X25.  The bound of the pending table.  In a file whose lines all
    reach the decoder, and whatever the table [p0] holds when the file
    is opened (a file whose read failed leaves its commands behind):
    after [k] lines the table holds at most
    [max (size p0) 100 + k mod 100] commands, because every line adds
    at most one and the check that comes with every hundredth line
    leaves at most 100 behind; and once a hundred lines have been read
    it holds at most [100 + k mod 100], fewer than 200. *)
Theorem pending_table_is_bounded_when_every_line_is_decoded
  (f : jsstring) (ls : list jsstring) (p0 p : pending) (t : list event) :
  Forall (fun l => reaches_decoder l = true) ls ->
  processLines_from 0 0 ls f p0 = (Val tt, p, t) ->
  map_size p
  <= N.max (map_size p0) maxPendingEntries
     + N.of_nat (List.length ls) mod maxPendingEntries
  /\ (maxPendingEntries <= N.of_nat (List.length ls) ->
      map_size p
      <= maxPendingEntries + N.of_nat (List.length ls) mod maxPendingEntries
      /\ map_size p < 2 * maxPendingEntries).
Proof.
  intros A H. split.
  - pose proof (@processLines_from_size f
                  (N.max (map_size p0) maxPendingEntries) ls 0 0 p0 p t) as B.
    rewrite N.add_0_l in B. apply B; try assumption.
    + apply N.le_max_r.
    + change (0 mod maxPendingEntries) with 0. rewrite N.add_0_r.
      apply N.le_max_l.
  - intros L.
    pose proof (@processLines_from_size_late f ls 0 0 p0 p t A H) as B.
    rewrite N.add_0_l in B.
    assert (B' : map_size p
                 <= maxPendingEntries
                    + N.of_nat (List.length ls) mod maxPendingEntries).
    { apply B; [|exact L]. intros Z. exfalso. revert Z.
      unfold maxPendingEntries. lia. }
    split; [exact B'|].
    assert (U : N.of_nat (List.length ls) mod maxPendingEntries < maxPendingEntries).
    { apply N.mod_upper_bound. unfold maxPendingEntries. lia. }
    remember (N.of_nat (List.length ls) mod maxPendingEntries) as a.
    unfold maxPendingEntries in *. lia.
Qed.

(** A table of at most [maxPendingEntries] commands is inside the
    window for as many lines as it has room for. *)
Lemma within_window_small_table f (ls : list jsstring) :
  forall (n : N) (p : pending),
    map_size p + N.of_nat (List.length ls) <= maxPendingEntries ->
    within_window n p ls f = true.
Proof.
  induction ls as [|line rest IH]; intros n p H; [reflexivity|].
  cbn [within_window].
  assert (H' : map_size p + 1 + N.of_nat (List.length rest) <= maxPendingEntries)
    by (simpl List.length in H; lia).
  destruct (processEntry_step line (n + 1) f p) as (p1 & t1 & E & S).
  apply entry_step_size in S.
  assert (F : flushes_after line (n + 1) f p = false).
  { unfold flushes_after. rewrite E. cbn [fst snd].
    assert (K : (maxPendingEntries <? map_size p1) = false)
      by (apply N.ltb_ge; lia).
    rewrite K. apply andb_false_r. }
  rewrite F. cbn [negb andb].
  destruct (@processLine_no_flush f line (n + 1) p F) as (q & u & L & C).
  rewrite L. cbn [fst snd]. apply IH.
  destruct C as [[-> _]|S']; [lia|].
  apply entry_step_size in S'. lia.
Qed.

(* ================================================================== *)
(** ** Files of one age *)
(* ================================================================== *)

Lemma insert_by_mtime_same (m : Z) (x : file_stat) (l : list file_stat) :
  filter (fun f => (mtime f =? m)%Z) (insert_by_mtime x l)
  = filter (fun f => (mtime f =? m)%Z) (x :: l).
Proof.
  induction l as [|y r IH]; [reflexivity|].
  cbn [insert_by_mtime].
  destruct (mtime x - mtime y <=? 0)%Z eqn:C; [reflexivity|].
  apply Z.leb_gt in C.
  cbn [filter] in *. rewrite IH.
  destruct (mtime x =? m)%Z eqn:X; [|reflexivity].
  apply Z.eqb_eq in X.
  assert (Y : (mtime y =? m)%Z = false) by (apply Z.eqb_neq; lia).
  rewrite Y. reflexivity.
Qed.

(** X26.  The sort of the project's files is stable: the files of one
    modification time come out in the order the directory listed
    them. *)
Theorem sort_by_mtime_keeps_listing_order_on_ties (m : Z) (l : list file_stat) :
  filter (fun f => (mtime f =? m)%Z) (sort_by_mtime l)
  = filter (fun f => (mtime f =? m)%Z) l.
Proof.
  induction l as [|x r IH]; [reflexivity|].
  cbn [sort_by_mtime]. rewrite insert_by_mtime_same.
  cbn [filter]. rewrite IH. reflexivity.
Qed.

(* ================================================================== *)
(** ** The properties above on the sample data *)
(* ================================================================== *)

Lemma normalizeBashCommand_empty_iff_blank_witness :
  normalizeBashCommand Fixture.blank_line = [].
Proof.
  apply (proj2 (normalizeBashCommand_empty_iff_blank Fixture.blank_line)).
  repeat (apply Forall_cons; [vm_compute; reflexivity|]). apply Forall_nil.
Defined.

Lemma extractBashCommand_first_Bash_block_witness :
  exists before block after text,
    message_content (Fixture.decoded Sample.bash_use)
    = Some (JArr (before ++ block :: after))
    /\ Forall (fun b => ~ is_bash_block b) before
    /\ is_bash_block block
    /\ get_opt (prop block (lit "input")) (lit "command") = Some (JStr text)
    /\ nonempty text = true
    /\ command Sample.ls_command = normalizeBashCommand text
    /\ source Sample.ls_command = bash
    /\ extractToolUseId (Fixture.decoded Sample.bash_use)
       = Val (if truthy_val (prop block (lit "id"))
              then prop block (lit "id") else None).
Proof.
  refine (@extractBashCommand_first_Bash_block
            (Fixture.decoded Sample.bash_use) Sample.ls_command _).
  vm_compute; reflexivity.
Defined.

Lemma extractToolResult_first_result_block_witness :
  exists before block after,
    message_content (Fixture.decoded Sample.tool_result_failed)
    = Some (JArr (before ++ block :: after))
    /\ Forall (fun b => ~ is_result_block b) before
    /\ is_result_block block
    /\ prop block (lit "tool_use_id") = Some (tool_use_id Fixture.failed_result)
    /\ is_error Fixture.failed_result
       = nullish_or (prop block (lit "is_error")) (JBool false)
    /\ truthy (tool_use_id Fixture.failed_result) = true
    /\ is_error Fixture.failed_result <> JNull.
Proof.
  refine (@extractToolResult_first_result_block
            (Fixture.decoded Sample.tool_result_failed) Fixture.failed_result _).
  vm_compute; reflexivity.
Defined.

Lemma findUserCommand_sound_witness :
  exists before inner after,
    Fixture.tagged_text = before ++ open_tag ++ inner ++ close_tag ++ after
    /\ lit "git status" = trim inner
    /\ Forall (fun c => is_line_terminator c = false) inner
    /\ includes inner close_tag = false
    /\ Forall (fun c => is_line_terminator c = false) (lit "git status").
Proof.
  refine (@findUserCommand_sound Fixture.tagged_text (lit "git status") _).
  vm_compute; reflexivity.
Defined.

Lemma repeated_tool_result_is_dropped_witness :
  exists p1 t1,
    processEntry Sample.tool_result_ok 2 Sample.log Fixture.one_pending
    = (Val tt, p1, t1)
    /\ map_get p1 (tool_use_id Fixture.ok_result) = None
    /\ processEntry Sample.tool_result_ok 3 Sample.log p1 = (Val tt, p1, []).
Proof.
  refine (@repeated_tool_result_is_dropped
            Sample.tool_result_ok (Fixture.decoded Sample.tool_result_ok)
            Fixture.ok_result 2 3 Sample.log Fixture.one_pending _ _ _).
  - split; [reflexivity|exact I].
  - vm_compute; reflexivity.
  - vm_compute; reflexivity.
Defined.

Lemma reused_identifier_overwrites_witness :
  exists p1 p2,
    processEntry Sample.bash_use 1 Sample.log [] = (Val tt, p1, [])
    /\ processEntry Fixture.bash_use_again 2 Sample.log p1 = (Val tt, p2, [])
    /\ map_get p2 (JStr (lit "t1")) = Some Sample.pwd_command
    /\ map_size p2 = map_size p1
    /\ (forall k, same_value_zero (JStr (lit "t1")) k = false ->
                  map_get p2 k = map_get [] k).
Proof.
  refine (@reused_identifier_overwrites
            Sample.bash_use Fixture.bash_use_again
            (Fixture.decoded Sample.bash_use)
            (Fixture.decoded Fixture.bash_use_again)
            Sample.ls_command Sample.pwd_command (lit "t1") 1 2 Sample.log []
            _ _ _ _ _ _);
    vm_compute; reflexivity.
Defined.

Lemma unmarked_lines_are_silent_witness :
  (exists flushed,
      createFileStream Sample.log
        {| lines := [Sample.summary_line; Fixture.blank_line; Sample.malformed];
           fails := false |} Fixture.one_pending
      = (Val tt, [], map Yield flushed)
      /\ flushed = map (fun c => set_success c true)
                      (map_values Fixture.one_pending)
      /\ Forall (fun c => success c = Some true) flushed)
  /\ file_stream Sample.log
       {| lines := [Sample.summary_line; Fixture.blank_line; Sample.malformed];
          fails := false |} = [].
Proof.
  refine (@unmarked_lines_are_silent Sample.log
            [Sample.summary_line; Fixture.blank_line; Sample.malformed]
            Fixture.one_pending _).
  repeat (apply Forall_cons; [vm_compute; reflexivity|]). apply Forall_nil.
Defined.

Lemma blank_line_never_decodes_witness : JSON_parse Fixture.blank_line = None.
Proof.
  refine (@blank_line_never_decodes Fixture.blank_line _).
  vm_compute; reflexivity.
Defined.

Lemma cleanup_is_all_or_nothing_witness :
  exists p1 t1,
    processEntry Sample.bash_use 100 Sample.log [] = (Val tt, p1, t1)
    /\ processLine Sample.bash_use 100 100 Sample.log []
       = if maxPendingEntries <? map_size p1
         then (Val tt, [], t1 ++ flush_trace p1)
         else (Val tt, p1, t1).
Proof.
  refine (@cleanup_is_all_or_nothing Sample.bash_use 100 100 Sample.log [] _ _).
  - vm_compute; reflexivity.
  - vm_compute; reflexivity.
Defined.

Lemma createProjectStream_failures_witness :
  createProjectStream Sample.posix_join (lit "proj")
    (Some [Sample.older_log; Fixture.vanished_log]) []
  = (Val tt, [], [ConsoleError (ErrorReadingProjectDirectory (lit "proj"))]).
Proof.
  refine (proj2 (proj2 (@createProjectStream_failures Sample.posix_join
            (lit "proj") (Some [Sample.older_log; Fixture.vanished_log]) []))
            [Sample.older_log; Fixture.vanished_log] Fixture.vanished_log
            _ _ _ _).
  - reflexivity.
  - right. left. reflexivity.
  - vm_compute; reflexivity.
  - reflexivity.
Defined.

Lemma failed_file_is_not_flushed_witness :
  exists p1 t1 p2 t2,
    processLines_from 0 0 (lines (reader Fixture.truncated_stat))
      (path Fixture.truncated_stat) [] = (Val tt, p1, t1)
    /\ for_each_file [Sample.newer_stat] p1 = (Val tt, p2, t2)
    /\ for_each_file (Fixture.truncated_stat :: [Sample.newer_stat]) []
       = (Val tt, p2,
          t1 ++ ConsoleError (ErrorReadingFile (path Fixture.truncated_stat)) :: t2).
Proof.
  refine (@failed_file_is_not_flushed Fixture.truncated_stat
            [Sample.newer_stat] [] _).
  reflexivity.
Defined.

Lemma project_stream_commands_are_one_line_witness :
  one_line (set_success Sample.ls_command true).
Proof.
  refine (@project_stream_commands_are_one_line Sample.posix_join (lit "proj")
            (Some Sample.project) (set_success Sample.ls_command true) _).
  vm_compute. left. reflexivity.
Defined.

Lemma project_stream_commands_are_settled_witness :
  success (set_success Sample.git_status_command true) <> None
  /\ (source (set_success Sample.git_status_command true) = user ->
      success (set_success Sample.git_status_command true) = Some true)
  /\ (success (set_success Sample.git_status_command true) = Some false ->
      source (set_success Sample.git_status_command true) = bash).
Proof.
  refine (@project_stream_commands_are_settled Sample.posix_join (lit "proj")
            (Some Sample.project)
            (set_success Sample.git_status_command true) _).
  vm_compute. right. left. reflexivity.
Defined.

Lemma extractProjectRoot_sound_witness :
  exists files e line entry,
    Some Fixture.rooted_project = Some files
    /\ In e files /\ is_log e = true
    /\ In line (firstn 10 (lines (content e)))
    /\ JSON_parse line = Some entry
    /\ prop entry (lit "cwd") = Some (JStr (lit "/home/u/app"))
    /\ truthy (JStr (lit "/home/u/app")) = true.
Proof.
  refine (@extractProjectRoot_sound (Some Fixture.rooted_project)
            (JStr (lit "/home/u/app")) _).
  vm_compute; reflexivity.
Defined.

Lemma extractProjectRoot_first_file_witness :
  extractProjectRoot (Some Fixture.rooted_project)
  = {| root := Some (JStr (lit "/home/u/app"));
       stray := fails (content Fixture.rooted_log) |}.
Proof.
  refine (@extractProjectRoot_first_file Fixture.rooted_project
            [Fixture.broken_log; Fixture.truncated_log] [Fixture.rootless_log]
            Fixture.rooted_log (JStr (lit "/home/u/app")) _ _ _ _).
  - vm_compute; reflexivity.
  - repeat (apply Forall_cons; [vm_compute; reflexivity|]). apply Forall_nil.
  - repeat (apply Forall_cons; [vm_compute; reflexivity|]). apply Forall_nil.
  - vm_compute; reflexivity.
Defined.

Lemma rootless_project_logs :
  filter is_log Fixture.rootless_project
  = [Fixture.broken_log; Fixture.truncated_log; Fixture.rootless_log].
Proof. vm_compute; reflexivity. Defined.

Lemma extractProjectRoot_none_witness :
  extractProjectRoot (Some Fixture.rootless_project)
  = {| root := None; stray := false |}.
Proof.
  refine (@extractProjectRoot_none Fixture.rootless_project _ _).
  - rewrite rootless_project_logs.
    repeat (apply Forall_cons; [vm_compute; reflexivity|]). apply Forall_nil.
  - rewrite rootless_project_logs.
    repeat (apply Forall_cons; [vm_compute; reflexivity|]). apply Forall_nil.
Defined.

Lemma file_stream_diagnostics_name_the_line_witness :
  (ErrorParsingLine 2 Sample.log JSON_syntax = ErrorReadingFile Sample.log
   /\ fails {| lines := [Sample.summary_line; Sample.malformed_with_marker];
               fails := false |} = true)
  \/ exists i line,
       nth_error (lines {| lines := [Sample.summary_line;
                                      Sample.malformed_with_marker];
                           fails := false |}) i = Some line
       /\ reaches_decoder line = true
       /\ ErrorParsingLine 2 Sample.log JSON_syntax
          = ErrorParsingLine (N.of_nat i + 1) Sample.log
              (match JSON_parse line with
               | Some _ => parsing
               | None => JSON_syntax
               end).
Proof.
  refine (@file_stream_diagnostics_name_the_line Sample.log
            {| lines := [Sample.summary_line; Sample.malformed_with_marker];
               fails := false |}
            (ErrorParsingLine 2 Sample.log JSON_syntax) _).
  vm_compute. left. reflexivity.
Defined.

Lemma user_command_text_is_the_tag_body_witness :
  exists content,
    message_content (Fixture.decoded Sample.user_command) = Some (JStr content)
    /\ findUserCommand content = Some (command Sample.git_status_command)
    /\ command Sample.git_status_command <> []
    /\ description Sample.git_status_command = None
    /\ projectPath Sample.git_status_command
       = prop (Fixture.decoded Sample.user_command) (lit "cwd").
Proof.
  refine (@user_command_text_is_the_tag_body
            (Fixture.decoded Sample.user_command) Sample.git_status_command _).
  vm_compute; reflexivity.
Defined.

Lemma hundred_uses_reach_the_decoder :
  Forall (fun l => reaches_decoder l = true) Fixture.hundred_uses.
Proof.
  apply Forall_forall. apply forallb_forall. vm_compute; reflexivity.
Defined.

(** A hundred tool uses read with one command pending at the start:
    the check after line 100 finds 101 commands and flushes them. *)
Lemma pending_table_is_bounded_witness :
  map_size Fixture.emptied
  <= N.max (map_size Fixture.one_pending) maxPendingEntries
     + N.of_nat (List.length Fixture.hundred_uses) mod maxPendingEntries
  /\ (maxPendingEntries <= N.of_nat (List.length Fixture.hundred_uses) ->
      map_size Fixture.emptied
      <= maxPendingEntries
         + N.of_nat (List.length Fixture.hundred_uses) mod maxPendingEntries
      /\ map_size Fixture.emptied < 2 * maxPendingEntries).
Proof.
  refine (@pending_table_is_bounded_when_every_line_is_decoded Sample.log
            Fixture.hundred_uses Fixture.one_pending Fixture.emptied
            (snd (processLines_from 0 0 Fixture.hundred_uses Sample.log
                    Fixture.one_pending)) _ _).
  - exact hundred_uses_reach_the_decoder.
  - vm_compute; reflexivity.
Defined.
